(** * Gen_AI wealth advisor: allocation table, annuity plan and growth estimates

    A shallow embedding of the computational core of [Gen_AI.py]:
    - [get_portfolio_allocation] (the static allocation table),
    - the monthly investment plan block (goal mode and monthly mode),
    - [fetch_cagr] and the averaging of the per-asset estimates,
    - the plan block and the estimate block as the page runs them,
    - [explain_portfolio] and the unpacking of the service's reply,
    - [login_section], the gate after it, Restart and the question block.

    Modelling conventions.
    - Python numbers are embedded as exact rationals ([Q]).  The one
      operation that leaves the rationals, a power with a fractional
      exponent, is taken in the reals ([Rpower]) and brought back by
      [round].
    - The monthly plan is modelled a second time in rounded arithmetic:
      every operation of lines 128-141 is followed by a rounding [rnd],
      and [**] is a function [fpow].  The plan theorems hold for every
      [rnd] that rounds to nearest and every [fpow] that is accurate to the
      last place, as binary64 and the platform's [pow] are.  Two instances
      are given: exact arithmetic, in which nothing is rounded, and
      rounding to 53 significant bits with ties to even ([rnd53]).
    - The growth estimates and their average are computed exactly.  Where
      the floats of the interpreter can differ from the exact value, next
      to a tie of the rounding to two decimals, the statements leave room
      for their rounding error.
    - A Python expression either returns a value or raises: [outcome].
    - A [dict] is an association list in insertion order.
    - The data frame that [yf.download] hands to [fetch_cagr] is an input of
      the model: the download itself is an external service.  So are the
      chat-completion service (a function from the request body to the
      parsed response) and what the widgets deliver.
    - A [str] is held as its UTF-8 bytes. *)

From Stdlib Require Import ZArith QArith Qround Qpower Qabs Qreals.
From Stdlib Require Import List String Ascii DecimalString Bool Permutation.
From Stdlib Require Import Reals Psatz.
Import ListNotations.

Local Open Scope Z_scope.

(* ===================================================================== *)
(** * Python run-time model *)
(* ===================================================================== *)

(** The exceptions the modelled expressions can raise. *)
Inductive exn : Set :=
| ZeroDivisionError
| KeyError
| IndexError
| TypeError.

(** Evaluating an expression returns a value or raises. *)
Inductive outcome (A : Type) : Type :=
| Returns (a : A)
| Raises (e : exn).

Arguments Returns {A} a.
Arguments Raises {A} e.

Definition bind {A B : Type} (c : outcome A) (k : A -> outcome B) : outcome B :=
  match c with
  | Returns a => k a
  | Raises e => Raises e
  end.

Module Py.

(** [a / b]: true division, raising on a zero divisor. *)
Definition div (a b : Q) : outcome Q :=
  if Qeq_bool b 0 then Raises ZeroDivisionError else Returns (a / b)%Q.

(** [x ** n] for an integer exponent [n]: zero cannot be raised to a
    negative power. *)
Definition pow (x : Q) (n : Z) : outcome Q :=
  if Qeq_bool x 0 && (n <? 0) then Raises ZeroDivisionError
  else Returns (x ^ n)%Q.

(** [round(x)]: the nearest integer, a tie going to the even neighbour. *)
Definition round (x : Q) : Z :=
  let f := Qfloor x in
  match (x - inject_Z f ?= 1 # 2)%Q with
  | Lt => f
  | Gt => f + 1
  | Eq => if Z.even f then f else f + 1
  end.

(** [round(x, 2)]: the nearest multiple of 1/100, ties to even; the
    fraction is kept in lowest terms. *)
Definition round2 (x : Q) : Q :=
  Qred (inject_Z (round (x * 100)) / 100).

(** [sum(xs)], starting from 0 and adding left to right. *)
Definition sum (xs : list Q) : Q := fold_left Qplus xs 0%Q.

(** [len(xs)]. *)
Definition len {A : Type} (xs : list A) : Z := Z.of_nat (List.length xs).

(** Whether a rational is a whole number. *)
Definition is_integer (y : Q) : bool := (Qden (Qred y) =? 1)%positive.

End Py.

Notation "x <- c ;; k" := (bind c (fun x => k))
  (at level 61, c at next level, right associativity).

(* ===================================================================== *)
(** * Portfolio allocation *)
(* ===================================================================== *)

Local Open Scope string_scope.

(** The dict returned by [get_portfolio_allocation], keys in insertion
    order. *)
Definition Allocation : Type := list (string * Z).

Definition get_portfolio_allocation (risk : string) : Allocation :=
  if risk =? "Low" then
    [("Equity", 30); ("Debt", 60); ("Gold", 10)]
  else if risk =? "Medium" then
    [("Equity", 50); ("Debt", 40); ("Gold", 10)]
  else
    [("Equity", 70); ("Debt", 20); ("Gold", 10)].

(** [allocation[key]]. *)
Fixpoint getitem (key : string) (d : Allocation) : outcome Z :=
  match d with
  | [] => Raises KeyError
  | (k, v) :: rest => if k =? key then Returns v else getitem key rest
  end.

(** [list(allocation.keys())], [list(allocation.values())] and their total. *)
Definition keys (d : Allocation) : list string := map fst d.
Definition values (d : Allocation) : list Z := map snd d.
Definition total (d : Allocation) : Z := fold_left Z.add (values d) 0.

(** The three risk labels offered by the form's select box. *)
Inductive RiskProfile : Set := Low | Medium | High.

Definition label (r : RiskProfile) : string :=
  match r with
  | Low => "Low"
  | Medium => "Medium"
  | High => "High"
  end.

Definition risk_options : list string := map label [Low; Medium; High].

Definition allocate (r : RiskProfile) : Allocation :=
  get_portfolio_allocation (label r).

(** The table of the specification, row by row: (Equity, Debt, Gold). *)
Definition spec_table (r : RiskProfile) : Z * Z * Z :=
  match r with
  | Low => (30, 60, 10)
  | Medium => (50, 40, 10)
  | High => (70, 20, 10)
  end.

Definition of_row (row : Z * Z * Z) : Allocation :=
  let '(e, d, g) := row in [("Equity", e); ("Debt", d); ("Gold", g)].

(* ===================================================================== *)
(** * Monthly investment plan *)
(* ===================================================================== *)

Local Open Scope Q_scope.

(** [months = years * 12] and [monthly_rate = rate / 100 / 12]. *)
Definition months_of (years : Z) : Z := (years * 12)%Z.
Definition monthly_rate_of (rate : Q) : Q := rate / 100 / 12.

(** Goal mode: the contribution that reaches [target].
<<
    monthly = target * monthly_rate / ((1 + monthly_rate) ** months - 1)
    monthly = round(monthly)
>> *)
Definition solveMonthlyFromTarget (target rate : Q) (years : Z) : outcome Z :=
  let months := months_of years in
  let monthly_rate := monthly_rate_of rate in
  growth <- Py.pow (1 + monthly_rate) months ;;
  monthly <- Py.div (target * monthly_rate) (growth - 1) ;;
  Returns (Py.round monthly).

(** Monthly mode: the corpus a fixed contribution grows to.
<<
    future_value = monthly * (((1 + monthly_rate) ** months - 1) / monthly_rate)
    future_value = round(future_value)
>> *)
Definition solveFutureFromMonthly (monthly rate : Q) (years : Z) : outcome Z :=
  let months := months_of years in
  let monthly_rate := monthly_rate_of rate in
  growth <- Py.pow (1 + monthly_rate) months ;;
  factor <- Py.div (growth - 1) monthly_rate ;;
  Returns (Py.round (monthly * factor)).

(** Goal mode followed by monthly mode at the same rate and duration. *)
Definition roundTrip (target rate : Q) (years : Z) : outcome Z :=
  monthly <- solveMonthlyFromTarget target rate years ;;
  solveFutureFromMonthly (inject_Z monthly) rate years.

(** The closed forms of the specification. *)
Definition annuity_factor (r : Q) (n : Z) : Q := ((1 + r) ^ n - 1) / r.
Definition spec_monthly (target r : Q) (n : Z) : Q :=
  target * r / ((1 + r) ^ n - 1).
Definition spec_future (monthly r : Q) (n : Z) : Q :=
  monthly * ((1 + r) ^ n - 1) / r.

(* ===================================================================== *)
(** * Growth-rate estimates *)
(* ===================================================================== *)

(** The part of a pandas data frame that [fetch_cagr] looks at: the row
    index (dates, as day numbers) and the named columns. *)
Record DataFrame : Type := mkFrame {
  index : list Z;
  columns : list (string * list Q)
}.

(** [data.empty]: some axis has length 0. *)
Definition empty (data : DataFrame) : bool :=
  (Nat.eqb (List.length (index data)) 0) || (Nat.eqb (List.length (columns data)) 0).

(** [name in data]: [name] is a column label. *)
Definition contains (name : string) (data : DataFrame) : bool :=
  existsb (fun c => (fst c =? name)%string) (columns data).

(** [data[name]]: the values of the column. *)
Fixpoint column (name : string) (cols : list (string * list Q)) : outcome (list Q) :=
  match cols with
  | [] => Raises KeyError
  | (k, v) :: rest => if (k =? name)%string then Returns v else column name rest
  end.

(** [series.iloc[i]]: by position, a negative [i] counting from the end. *)
Definition iloc (series : list Q) (i : Z) : outcome Q :=
  let n := Z.of_nat (List.length series) in
  let j := (if i <? 0 then n + i else i)%Z in
  if ((j <? 0) || (n <=? j))%Z then Raises IndexError
  else match nth_error series (Z.to_nat j) with
       | Some v => Returns v
       | None => Raises IndexError
       end.

(** A frame whose columns all have one value per row. *)
Definition well_formed (data : DataFrame) : Prop :=
  Forall (fun c => List.length (snd c) = List.length (index data)) (columns data).

Module PyR.

Local Open Scope R_scope.

(** [round] on a real argument. *)
Definition round (x : R) : Z :=
  let f := Int_part x in
  if Rlt_dec (x - IZR f) (1 / 2) then f
  else if Rlt_dec (1 / 2) (x - IZR f) then (f + 1)%Z
  else if Z.even f then f else (f + 1)%Z.

(** [round(x, 2)] on a real argument. *)
Definition round2 (x : R) : Q :=
  Qred (inject_Z (round (x * 100)) / 100).

(** [x ** y] for a float exponent.  A negative base with a fractional
    exponent yields a complex number, on which the later [round(_, 2)]
    raises [TypeError]; nothing else is done with it in between, so the
    model raises at once. *)
Definition pow (x y : Q) : outcome R :=
  if Qeq_bool y 0 then Returns 1
  else match (x ?= 0)%Q with
       | Gt => Returns (Rpower (Q2R x) (Q2R y))
       | Eq => match (y ?= 0)%Q with
               | Lt => Raises ZeroDivisionError
               | _ => Returns 0
               end
       | Lt => if Py.is_integer y
               then Returns (Q2R (x ^ Qnum (Qred y)))
               else Raises TypeError
       end.

End PyR.

(** [fetch_cagr], given the frame the download returned.  The arithmetic
    is that of Python floats, where a zero divisor raises; the values of a
    frame are numpy floats, where it gives inf or nan instead.  The two
    agree on non-zero prices, which the theorems that evaluate the
    arithmetic assume.
<<
    if data.empty or "Adj Close" not in data:
        return None
    start_price = data["Adj Close"].iloc[0]
    end_price = data["Adj Close"].iloc[-1]
    cagr = ((end_price / start_price) ** (1 / years)) - 1
    return round(cagr * 100, 2)
>> *)
Definition fetch_cagr (data : DataFrame) (years : Q) : outcome (option Q) :=
  if empty data || negb (contains "Adj Close" data) then Returns None
  else
    adj_close <- column "Adj Close" (columns data) ;;
    start_price <- iloc adj_close 0 ;;
    end_price <- iloc adj_close (-1) ;;
    ratio <- Py.div end_price start_price ;;
    exponent <- Py.div 1 years ;;
    grown <- PyR.pow ratio exponent ;;
    let cagr := (grown - 1)%R in
    Returns (Some (PyR.round2 (cagr * 100)%R)).

(** The specification's [cagr]: a chronological sequence of (date, price)
    observations, held in the column that [fetch_cagr] reads. *)
Definition frame_of (prices : list (Z * Q)) : DataFrame :=
  mkFrame (map fst prices) [("Adj Close"%string, map snd prices)].

Definition cagr (prices : list (Z * Q)) (years : Q) : outcome (option Q) :=
  fetch_cagr (frame_of prices) years.

(** The growth the specification states, as a percentage. *)
Definition spec_growth_percent (first_price last_price years : Q) : R :=
  ((Rpower (Q2R last_price / Q2R first_price) (1 / Q2R years) - 1) * 100)%R.

(** [[r for r in returns.values() if r is not None]]. *)
Fixpoint present (returns : list (option Q)) : list Q :=
  match returns with
  | [] => []
  | Some r :: rest => r :: present rest
  | None :: rest => present rest
  end.

(** The averaging of the estimates.
<<
    valid_returns = [r for r in returns.values() if r is not None]
    if valid_returns:
        avg_cagr = round(sum(valid_returns) / len(valid_returns), 2)
>> *)
Definition averageGrowth (returns : list (option Q)) : outcome (option Q) :=
  let valid_returns := present returns in
  match valid_returns with
  | [] => Returns None
  | _ :: _ =>
      mean <- Py.div (Py.sum valid_returns) (inject_Z (Py.len valid_returns)) ;;
      Returns (Some (Py.round2 mean))
  end.

(** The arithmetic mean of the specification. *)
Definition spec_mean (xs : list Q) : Q :=
  fold_right Qplus 0 xs / inject_Z (Z.of_nat (List.length xs)).

(* ===================================================================== *)
(** * The plan block and the estimate block as the page runs them *)
(* ===================================================================== *)

(** The dict [mip_info] that the plan block hands to the report: its five
    keys are fixed, so it is held as a record. *)
Record mip_info : Type := mkPlan {
  mip_mode : string;
  mip_monthly : Q;
  mip_years : Z;
  mip_rate : Q;
  mip_future_value : Q
}.

(** The two options of the plan-type radio button. *)
Definition goal_plan_type : string := "🎯 I know my goal amount".
Definition monthly_plan_type : string := "💸 I know my monthly investment".

(** The plan block: [amount] is the number typed into the one input the
    chosen branch shows (the target corpus, or the monthly investment).
<<
    if plan_type == "🎯 I know my goal amount":
        ...
        mip_info = {"mode": "goal", "monthly": monthly, "years": years,
                    "rate": rate, "future_value": target}
    else:
        ...
        mip_info = {"mode": "monthly", "monthly": monthly, "years": years,
                    "rate": rate, "future_value": future_value}
>> *)
Definition monthly_investment_plan
    (plan_type : string) (rate : Q) (years : Z) (amount : Q) : outcome mip_info :=
  if (plan_type =? goal_plan_type)%string then
    monthly <- solveMonthlyFromTarget amount rate years ;;
    Returns (mkPlan "goal" (inject_Z monthly) years rate amount)
  else
    future_value <- solveFutureFromMonthly amount rate years ;;
    Returns (mkPlan "monthly" amount years rate (inject_Z future_value)).

(** What the two sliders can deliver:
    [st.slider("Expected Annual Return (%)", 6.0, 15.0, 12.0)] and
    [st.slider("Investment Duration (Years)", 1, 40, 10)]. *)
Definition rate_slider (rate : Q) : Prop := 6 <= rate /\ rate <= 15.
Definition years_slider (years : Z) : Prop := (1 <= years /\ years <= 40)%Z.

(** The sum 1 + (1+r) + ... + (1+r)^(n-1), which the annuity factor equals. *)
Fixpoint geometric_sum (r : Q) (n : nat) : Q :=
  match n with
  | O => 0
  | S k => geometric_sum r k + (1 + r) ^ Z.of_nat k
  end.

(** The estimate block: one [fetch_cagr] per asset class, each with the
    default [years=5], in the order of the dict literal, then the average.
<<
    returns = {"Equity": fetch_cagr("^NSEI"),
               "Debt": fetch_cagr("ICICIBANK.NS"),
               "Gold": fetch_cagr("GOLDBEES.NS")}
>> *)
Definition return_estimates (nsei icicibank goldbees : DataFrame)
  : outcome (list (string * option Q)) :=
  equity <- fetch_cagr nsei 5 ;;
  debt <- fetch_cagr icicibank 5 ;;
  gold <- fetch_cagr goldbees 5 ;;
  Returns [("Equity"%string, equity); ("Debt"%string, debt); ("Gold"%string, gold)].

Definition average_cagr (nsei icicibank goldbees : DataFrame) : outcome (option Q) :=
  returns <- return_estimates nsei icicibank goldbees ;;
  averageGrowth (map snd returns).

(** The arithmetic of [fetch_cagr] on its own, lines 59-60: what it
    computes from the two prices it has looked up. *)
Definition growth_of (start_price end_price years : Q) : outcome (option Q) :=
  ratio <- Py.div end_price start_price ;;
  exponent <- Py.div 1 years ;;
  grown <- PyR.pow ratio exponent ;;
  Returns (Some (PyR.round2 ((grown - 1) * 100)%R)).

(** A download that delivered no "Adj Close" series: what the guard of
    [fetch_cagr] tests. *)
Definition no_series (data : DataFrame) : Prop :=
  empty data = true \/ contains "Adj Close" data = false.

(* ===================================================================== *)
(** * Strings, parsed responses and the session *)
(* ===================================================================== *)

(** A Python [str] is held as its UTF-8 bytes: comparing and joining
    strings is then comparing and joining the bytes.  Where the code looks
    at single characters, the bytes are first cut into characters: a byte
    of the form 10xxxxxx continues the character before it. *)
Definition is_continuation (b : Ascii.ascii) : bool :=
  let n := Ascii.N_of_ascii b in ((128 <=? n) && (n <? 192))%N.

Definition starts_with_continuation (c : string) : bool :=
  match c with
  | EmptyString => false
  | String b _ => is_continuation b
  end.

Fixpoint characters (s : string) : list string :=
  match s with
  | EmptyString => []
  | String b rest =>
      match characters rest with
      | c :: cs =>
          if starts_with_continuation c then String b c :: cs
          else String b EmptyString :: c :: cs
      | [] => [String b EmptyString]
      end
  end.

(** [c.isspace()] for one character, by its code point: U+0009 to U+000D,
    U+001C to U+0020, U+0085, U+00A0, U+1680, U+2000 to U+200A, U+2028,
    U+2029, U+202F, U+205F and U+3000. *)
Definition isspace (c : string) : bool :=
  match map Ascii.N_of_ascii (list_ascii_of_string c) with
  | [b] => (((9 <=? b) && (b <=? 13)) || ((28 <=? b) && (b <=? 32)))%N
  | [a; b] => ((a =? 194) && ((b =? 133) || (b =? 160)))%N
  | [a; b; c] =>
      (((a =? 225) && (b =? 154) && (c =? 128))
       || ((a =? 226) && (b =? 128)
           && (((128 <=? c) && (c <=? 138)) || (c =? 168) || (c =? 169)
               || (c =? 175)))
       || ((a =? 226) && (b =? 129) && (c =? 159))
       || ((a =? 227) && (b =? 128) && (c =? 128)))%N
  | _ => false
  end.

Fixpoint drop_spaces (cs : list string) : list string :=
  match cs with
  | [] => []
  | c :: rest => if isspace c then drop_spaces rest else cs
  end.

(** [s.strip()]: the string without its leading and trailing white space. *)
Definition strip (s : string) : string :=
  String.concat "" (rev (drop_spaces (rev (drop_spaces (characters s))))).

(** [str(n)] for an integer. *)
Definition str_of_int (n : Z) : string := NilZero.string_of_int (Z.to_int n).

#[local] Set Warnings "-register-all".

(** The values [response.json()] builds. *)
Inductive json : Type :=
| JNull
| JBool (b : bool)
| JNumber (q : Q)
| JString (s : string)
| JArray (items : list json)
| JObject (members : list (string * json)).

(** [d[key]] on a dict held as an association list. *)
Fixpoint lookup (key : string) (members : list (string * json)) : outcome json :=
  match members with
  | [] => Raises KeyError
  | (k, v) :: rest => if (k =? key)%string then Returns v else lookup key rest
  end.

(** [xs[i]] on a list, a negative [i] counting from the end. *)
Definition item {A : Type} (xs : list A) (i : Z) : outcome A :=
  let n := Z.of_nat (List.length xs) in
  let j := (if i <? 0 then n + i else i)%Z in
  if ((j <? 0) || (n <=? j))%Z then Raises IndexError
  else match nth_error xs (Z.to_nat j) with
       | Some v => Returns v
       | None => Raises IndexError
       end.

(** [value[key]] with a string key: only a dict can be asked. *)
Definition subscript_key (value : json) (key : string) : outcome json :=
  match value with
  | JObject members => lookup key members
  | _ => Raises TypeError
  end.

(** [value[i]] with an integer: a list or a string gives its item, a dict
    of a parsed response has string keys only, and nothing else can be
    subscripted. *)
Definition subscript_index (value : json) (i : Z) : outcome json :=
  match value with
  | JArray items => item items i
  | JString s => c <- item (characters s) i ;; Returns (JString c)
  | JObject _ => Raises KeyError
  | _ => Raises TypeError
  end.

(** [response.json()["choices"][0]["message"]["content"]]. *)
Definition reply_content (response : json) : outcome json :=
  choices <- subscript_key response "choices" ;;
  first <- subscript_index choices 0 ;;
  message <- subscript_key first "message" ;;
  subscript_key message "content".

(** The member of an object, for stating what a response looks like. *)
Definition member (key : string) (value : json) : option json :=
  match subscript_key value key with
  | Returns v => Some v
  | Raises _ => None
  end.

(** Truth value of a parsed value, as [if value:] takes it. *)
Definition truthy (value : json) : bool :=
  match value with
  | JNull => false
  | JBool b => b
  | JNumber q => negb (Qeq_bool q 0)
  | JString s => negb (s =? "")%string
  | JArray items => negb (Nat.eqb (List.length items) 0)
  | JObject members => negb (Nat.eqb (List.length members) 0)
  end.

(** [st.session_state]: a dict from names to values. *)
Definition session : Type := list (string * json).

Definition session_contains (key : string) (state : session) : bool :=
  existsb (fun m => (fst m =? key)%string) state.

(** [state[key] = value]: in place when the key is there, at the end
    otherwise. *)
Fixpoint session_set (key : string) (value : json) (state : session) : session :=
  match state with
  | [] => [(key, value)]
  | (k, v) :: rest =>
      if (k =? key)%string then (k, value) :: rest
      else (k, v) :: session_set key value rest
  end.

(** [login_section], given the text typed and whether Login was pressed.
<<
    if st.sidebar.button("Login"):
        st.session_state['user'] = {"email": email}
>> *)
Definition login_section (state : session) (email : string) (login_clicked : bool)
  : session :=
  if login_clicked
  then session_set "user" (JObject [("email"%string, JString email)]) state
  else state.

(** The gate after it: ['user' not in st.session_state] stops the script. *)
Definition script_continues (state : session) : bool :=
  session_contains "user" state.

(** [st.session_state.clear()], the Restart button. *)
Definition restart (state : session) : session := [].

Section Chat.

(** The chat-completion service, from the request body to the parsed
    response body; the configured model name; and [str] of a dict, which
    the question prompt embeds. *)
Variable chat : json -> json.
Variable model_name : string.
Variable repr_dict : Allocation -> string.


(** The request body both prompts are sent in. *)
Definition payload (system_content prompt : string) : json :=
  JObject
    [("model"%string, JString model_name);
     ("messages"%string,
      JArray
        [JObject [("role"%string, JString "system");
                  ("content"%string, JString system_content)];
         JObject [("role"%string, JString "user");
                  ("content"%string, JString prompt)]])].


(** The question block, given the question typed and whether Ask GPT was
    pressed; it returns the session and the answer shown, if one is.
<<
    if "gpt_response" not in st.session_state:
        st.session_state["gpt_response"] = ""
    if st.button("Ask GPT"):
        if user_question.strip() != "":
            ...
            st.session_state["gpt_response"] = reply
    if st.session_state["gpt_response"]:
        st.write(st.session_state["gpt_response"])
>> *)
Definition ask_gpt
    (state : session) (allocation : Allocation) (age : Z) (goal : string)
    (user_question : string) (ask_clicked : bool)
  : outcome (session * option json) :=
  let state1 :=
    if session_contains "gpt_response" state then state
    else session_set "gpt_response" (JString "") state in
  state2 <-
    (if ask_clicked && negb (strip user_question =? "")%string then
       let prompt :=
         ("The user has a portfolio: " ++ repr_dict allocation
          ++ ", age " ++ str_of_int age ++ ", goal: " ++ goal
          ++ ". Question: " ++ user_question)%string in
       reply <- reply_content (chat (payload "You are a financial advisor." prompt)) ;;
       Returns (session_set "gpt_response" reply state1)
     else Returns state1) ;;
  answer <- lookup "gpt_response" state2 ;;
  Returns (state2, if truthy answer then Some answer else None).

End Chat.

(* ===================================================================== *)
(** * The same computations in binary64, up to rounding *)
(* ===================================================================== *)

(** The definitions above compute in exact arithmetic.  The interpreter
    computes in binary64: every [+], [-], [*], [/] delivers the double
    nearest to the exact result, and [**] delivers what the platform's
    [pow] does.  Neither the rounding nor [pow] is code of this repository,
    so both are parameters here: [rnd] takes a rational to the double that
    stands for it, [fpow] is [**] with an integer exponent.  What the
    theorems ask of them is written out in [rounds_to_nearest] and
    [accurate_pow]; exact arithmetic ([rnd] the identity) is one instance,
    rounding to 53 significant bits ([rnd53], [pow53]), which is binary64
    away from overflow and underflow, another. *)

(** Ten times the unit roundoff of binary64 (2^-53, about 1.1e-16), with
    room for a [pow] that is one unit in the last place off. *)
Definition eps : Q := 1 # 1000000000000000.

(** Magnitudes between which a binary64 result is normal (the format
    itself reaches from about 2.2e-308 to 1.8e308). *)
Definition tiny : Q := 1 # (10 ^ 280).
Definition huge : Q := inject_Z (10 ^ 300).

Definition in_range (x : Q) : Prop :=
  x == 0 \/ (tiny <= Qabs x /\ Qabs x <= huge).

(** The quantities of the plan are 0 or far inside that range. *)
Definition ordinary (x : Q) : Prop :=
  x == 0 \/ ((1 # 1000000) <= Qabs x /\ Qabs x <= inject_Z (10 ^ 200)).

(** Rounding to nearest: a relative error of at most [eps] on a result
    that is 0 or normal, and the order of the results kept. *)
Definition rounds_to_nearest (rnd : Q -> Q) : Prop :=
  (forall x, in_range x -> Qabs (rnd x - x) <= eps * Qabs x) /\
  (forall x y, x <= y -> rnd x <= rnd y).

(** [x ** n]: 1 for the exponent 0 whatever the base, and for a base
    between 1 and 2 and up to 480 months a result within a relative error
    of [eps]. *)
Definition accurate_pow (fpow : Q -> Z -> outcome Q) : Prop :=
  (forall x : Q, fpow x 0%Z = Returns 1) /\
  (forall (x : Q) (n : Z),
     1 <= x -> x <= 2 -> (0 <= n)%Z -> (n <= 480)%Z ->
     exists p, fpow x n = Returns p /\ Qabs (p - x ^ n) <= eps * x ^ n).

(** What [st.number_input] delivers for an integer default: an [int]
    between the least and the greatest integer that JavaScript holds
    exactly. *)
Definition number_input (amount : Z) : Prop :=
  (- 2 ^ 53 < amount /\ amount < 2 ^ 53)%Z.

Module Py64.

(** [a / b] on floats. *)
Definition div (rnd : Q -> Q) (a b : Q) : outcome Q :=
  if Qeq_bool b 0 then Raises ZeroDivisionError else Returns (rnd (a / b)).

End Py64.

(** [monthly_rate = rate / 100 / 12]: two divisions, two roundings. *)
Definition monthly_rate64 (rnd : Q -> Q) (rate : Q) : Q :=
  rnd (rnd (rate / 100) / 12).

(** Goal mode, lines 134-135, operation by operation; the [int] target is
    converted to a float where it meets one. *)
Definition solveMonthlyFromTarget64
    (rnd : Q -> Q) (fpow : Q -> Z -> outcome Q)
    (target : Z) (rate : Q) (years : Z) : outcome Z :=
  let months := months_of years in
  let monthly_rate := monthly_rate64 rnd rate in
  growth <- fpow (rnd (1 + monthly_rate)) months ;;
  monthly <- Py64.div rnd (rnd (rnd (inject_Z target) * monthly_rate))
                      (rnd (growth - 1)) ;;
  Returns (Py.round monthly).

(** Monthly mode, lines 140-141, operation by operation. *)
Definition solveFutureFromMonthly64
    (rnd : Q -> Q) (fpow : Q -> Z -> outcome Q)
    (monthly : Z) (rate : Q) (years : Z) : outcome Z :=
  let months := months_of years in
  let monthly_rate := monthly_rate64 rnd rate in
  growth <- fpow (rnd (1 + monthly_rate)) months ;;
  factor <- Py64.div rnd (rnd (growth - 1)) monthly_rate ;;
  Returns (Py.round (rnd (rnd (inject_Z monthly) * factor))).

(** Goal mode followed by monthly mode at the same rate and duration. *)
Definition roundTrip64
    (rnd : Q -> Q) (fpow : Q -> Z -> outcome Q)
    (target : Z) (rate : Q) (years : Z) : outcome Z :=
  monthly <- solveMonthlyFromTarget64 rnd fpow target rate years ;;
  solveFutureFromMonthly64 rnd fpow monthly rate years.

(** Monthly mode followed by goal mode: back to the contribution. *)
Definition contributionTrip64
    (rnd : Q -> Q) (fpow : Q -> Z -> outcome Q)
    (monthly : Z) (rate : Q) (years : Z) : outcome Z :=
  future_value <- solveFutureFromMonthly64 rnd fpow monthly rate years ;;
  solveMonthlyFromTarget64 rnd fpow future_value rate years.

(** The plan block over the two computations. *)
Definition monthly_investment_plan64
    (rnd : Q -> Q) (fpow : Q -> Z -> outcome Q)
    (plan_type : string) (rate : Q) (years : Z) (amount : Z) : outcome mip_info :=
  if (plan_type =? goal_plan_type)%string then
    monthly <- solveMonthlyFromTarget64 rnd fpow amount rate years ;;
    Returns (mkPlan "goal" (inject_Z monthly) years rate (inject_Z amount))
  else
    future_value <- solveFutureFromMonthly64 rnd fpow amount rate years ;;
    Returns (mkPlan "monthly" (inject_Z amount) years rate (inject_Z future_value)).

(** Exact arithmetic: nothing is rounded and [**] is the exact power. *)
Definition exact_rnd (x : Q) : Q := x.
Definition exact_pow (x : Q) (n : Z) : outcome Q := Py.pow x n.

(** Binary64 without its exponent bounds: a number other than 0 is
    rounded to 53 significant bits, to the nearest such number and at a
    tie to the one whose last bit is 0.  [ilog2 x] is the exponent [e]
    with 2^e <= x < 2^(e+1), for a positive [x]. *)
Definition ilog2 (x : Q) : Z :=
  let e0 := (Z.log2 (Qnum x) - Z.log2 (Zpos (Qden x)))%Z in
  if Qle_bool (2 ^ e0) x then e0 else (e0 - 1)%Z.

Definition rnd53_pos (a : Q) : Q :=
  let ulp := 2 ^ (ilog2 a - 52) in
  Qred (inject_Z (Py.round (a / ulp)) * ulp).

Definition rnd53 (x : Q) : Q :=
  match (x ?= 0) with
  | Eq => 0
  | Gt => rnd53_pos x
  | Lt => - rnd53_pos (- x)
  end.

(** [**] correctly rounded: the double nearest to the exact power. *)
Definition pow53 (x : Q) (n : Z) : outcome Q :=
  p <- Py.pow x n ;; Returns (rnd53 p).

(** [a] stands for [b] within a relative error of [e]. *)
Definition approx (e a b : Q) : Prop :=
  exists d : Q, - e <= d /\ d <= e /\ a == b * (1 + d).

(* ===================================================================== *)
(** * Properties of the run-time model *)
(* ===================================================================== *)

Section Outcomes.

Context {A B : Type}.

Lemma bind_returns (a : A) (k : A -> outcome B) :
  (x <- Returns a ;; k x) = k a.
Proof. reflexivity. Qed.

Lemma bind_raises (e : exn) (k : A -> outcome B) :
  (x <- Raises e ;; k x) = Raises e.
Proof. reflexivity. Qed.

Lemma bind_inv (c : outcome A) (k : A -> outcome B) (b : B) :
  (x <- c ;; k x) = Returns b -> exists a, c = Returns a /\ k a = Returns b.
Proof.
  destruct c as [a | e]; simpl; intros H.
  - exists a; auto.
  - discriminate.
Qed.

End Outcomes.

Section Division.

Lemma div_returns (a b : Q) : ~ b == 0 -> Py.div a b = Returns (a / b).
Proof.
  intros Hb. unfold Py.div.
  destruct (Qeq_bool b 0) eqn:E; [| reflexivity].
  apply Qeq_bool_iff in E. contradiction.
Qed.


Lemma pow_returns (x : Q) (n : Z) : ~ x == 0 -> Py.pow x n = Returns (x ^ n).
Proof.
  intros Hx. unfold Py.pow.
  destruct (Qeq_bool x 0) eqn:E; [| reflexivity].
  apply Qeq_bool_iff in E. contradiction.
Qed.

End Division.

Section Rounding.

Lemma inject_Z_succ (z : Z) : inject_Z (z + 1) == inject_Z z + 1.
Proof. now rewrite inject_Z_plus. Qed.

(** [round] lands within half a unit of its argument. *)
Lemma round_bounds (x : Q) :
  x - (1 # 2) <= inject_Z (Py.round x) <= x + (1 # 2).
Proof.
  unfold Py.round.
  pose proof (Qfloor_le x) as Hlo.
  pose proof (Qlt_floor x) as Hhi.
  rewrite inject_Z_succ in Hhi.
  destruct (x - inject_Z (Qfloor x) ?= 1 # 2) eqn:E.
  - rewrite <- Qeq_alt in E.
    destruct (Z.even (Qfloor x)); [| rewrite inject_Z_succ]; lra.
  - rewrite <- Qlt_alt in E. lra.
  - rewrite <- Qgt_alt in E. rewrite inject_Z_succ. lra.
Qed.

Lemma round_error (x : Q) : Qabs (inject_Z (Py.round x) - x) <= 1 # 2.
Proof.
  pose proof (round_bounds x) as [Hlo Hhi].
  apply Qabs_Qle_condition. split; lra.
Qed.

(** [round] does not depend on how the fraction is written. *)
Lemma round_compat (x y : Q) : x == y -> Py.round x = Py.round y.
Proof.
  intros Hxy. unfold Py.round.
  assert (Hf : Qfloor x = Qfloor y) by now rewrite Hxy.
  rewrite Hf.
  assert (Hc : (x - inject_Z (Qfloor y) ?= 1 # 2) = (y - inject_Z (Qfloor y) ?= 1 # 2))
    by now rewrite Hxy.
  now rewrite Hc.
Qed.

(** An integer is its own rounding. *)
Lemma round_inject_Z (z : Z) : Py.round (inject_Z z) = z.
Proof.
  unfold Py.round. rewrite Qfloor_Z.
  assert (E : (inject_Z z - inject_Z z ?= 1 # 2) = Lt).
  { rewrite <- Qlt_alt. generalize (inject_Z z). intros q. lra. }
  now rewrite E.
Qed.



End Rounding.

(* ===================================================================== *)
(** * The allocation table *)
(* ===================================================================== *)

Section AllocationTable.

Local Open Scope string_scope.
Local Open Scope Z_scope.

(** The three branches of [get_portfolio_allocation], by the tests that
    select them. *)
Lemma allocation_cases (risk : string) :
  (risk = "Low" /\
   get_portfolio_allocation risk = [("Equity", 30); ("Debt", 60); ("Gold", 10)]) \/
  (risk = "Medium" /\
   get_portfolio_allocation risk = [("Equity", 50); ("Debt", 40); ("Gold", 10)]) \/
  (risk <> "Low" /\ risk <> "Medium" /\
   get_portfolio_allocation risk = [("Equity", 70); ("Debt", 20); ("Gold", 10)]).
Proof.
  unfold get_portfolio_allocation.
  destruct (String.eqb_spec risk "Low") as [-> | HL].
  - left. split; reflexivity.
  - destruct (String.eqb_spec risk "Medium") as [-> | HM].
    + right. left. split; reflexivity.
    + right. right. repeat split; assumption.
Qed.

(** The labels of [RiskProfile] are exactly the options of the select box. *)
Lemma risk_options_labels :
  risk_options = ["Low"; "Medium"; "High"].
Proof. reflexivity. Qed.

(** C5. [allocate] is defined on every [RiskProfile], never fails, and
    returns exactly the rows of the fixed table: Low gives Equity 30,
    Debt 60, Gold 10; Medium gives 50, 40, 10; High gives 70, 20, 10. *)
Theorem allocate_table :
  allocate Low = [("Equity", 30); ("Debt", 60); ("Gold", 10)] /\
  allocate Medium = [("Equity", 50); ("Debt", 40); ("Gold", 10)] /\
  allocate High = [("Equity", 70); ("Debt", 20); ("Gold", 10)] /\
  forall r : RiskProfile,
    allocate r = of_row (spec_table r) /\
    keys (allocate r) = ["Equity"; "Debt"; "Gold"] /\
    getitem "Equity" (allocate r) = Returns (fst (fst (spec_table r))) /\
    getitem "Debt" (allocate r) = Returns (snd (fst (spec_table r))) /\
    getitem "Gold" (allocate r) = Returns (snd (spec_table r)).
Proof.
  repeat split; try reflexivity; destruct r; reflexivity.
Qed.

(** C6. For each of Low, Medium and High the three percentages of the
    allocation add up to exactly 100. *)
Theorem allocate_sums_to_100 :
  forall r : RiskProfile,
    total (allocate r) = 100 /\
    exists e d g,
      allocate r = [("Equity", e); ("Debt", d); ("Gold", g)] /\
      e + d + g = 100 /\ 0 <= e <= 100 /\ 0 <= d <= 100 /\ 0 <= g <= 100.
Proof.
  intros r. split.
  - destruct r; reflexivity.
  - destruct r; cbn; do 3 eexists; (split; [reflexivity | lia]).
Qed.

(** C9. [get_portfolio_allocation] is defined on every string: an input
    that is neither "Low" nor "Medium" gets the High allocation
    (Equity 70, Debt 20, Gold 10), and whatever the input the percentages
    add up to 100. *)
Theorem allocation_total_on_strings :
  forall risk : string,
    (risk <> "Low" -> risk <> "Medium" ->
     get_portfolio_allocation risk = [("Equity", 70); ("Debt", 20); ("Gold", 10)]) /\
    total (get_portfolio_allocation risk) = 100.
Proof.
  intros risk.
  destruct (allocation_cases risk) as [[HL E] | [[HM E] | (HL & HM & E)]];
    rewrite E; split; try reflexivity; intros; congruence.
Qed.

Lemma allocation_total_on_strings_witness :
  get_portfolio_allocation "Hgih" = [("Equity", 70); ("Debt", 20); ("Gold", 10)] /\
  get_portfolio_allocation "" = [("Equity", 70); ("Debt", 20); ("Gold", 10)] /\
  get_portfolio_allocation "High" = allocate High /\
  total (get_portfolio_allocation "Hgih") = 100.
Proof.
  split; [| split; [| split]].
  - apply (allocation_total_on_strings "Hgih"); discriminate.
  - apply (allocation_total_on_strings ""); discriminate.
  - reflexivity.
  - apply (allocation_total_on_strings "Hgih").
Defined.

End AllocationTable.

(* ===================================================================== *)
(** * The monthly investment plan *)
(* ===================================================================== *)

Section MonthlyPlan.

Local Open Scope Q_scope.


Lemma monthly_rate_pos (rate : Q) : 0 < rate -> 0 < monthly_rate_of rate.
Proof.
  intros H. unfold monthly_rate_of.
  assert (E : rate / 100 / 12 == rate * (1 # 1200)) by field.
  rewrite E. lra.
Qed.

Lemma months_pos (years : Z) : (1 <= years)%Z -> (0 < months_of years)%Z.
Proof. unfold months_of. lia. Qed.

(** With a positive periodic rate the capital strictly grows. *)
Lemma growth_gt_1 (r : Q) (n : Z) : 0 < r -> (0 < n)%Z -> 1 < (1 + r) ^ n.
Proof.
  intros Hr Hn. apply Qpower_1_lt; [lra | assumption].
Qed.


Lemma base_nonzero (r : Q) : 0 <= r -> ~ 1 + r == 0.
Proof. intros Hr E. lra. Qed.



(** The two computations at a positive rate: both divisors are non-zero
    and the closed form is evaluated. *)
Lemma monthly_evaluates (target rate : Q) (years : Z) :
  0 < rate -> (1 <= years)%Z ->
  solveMonthlyFromTarget target rate years =
  Returns (Py.round (spec_monthly target (monthly_rate_of rate) (months_of years))).
Proof.
  intros Hrate Hyears. unfold solveMonthlyFromTarget, spec_monthly.
  pose proof (monthly_rate_pos rate Hrate) as Hr.
  pose proof (growth_gt_1 _ _ Hr (months_pos years Hyears)) as Hg.
  rewrite pow_returns by (apply base_nonzero; lra).
  rewrite bind_returns.
  rewrite div_returns by lra.
  reflexivity.
Qed.

Lemma future_evaluates (monthly rate : Q) (years : Z) :
  0 < rate ->
  solveFutureFromMonthly monthly rate years =
  Returns (Py.round (spec_future monthly (monthly_rate_of rate) (months_of years))).
Proof.
  intros Hrate. unfold solveFutureFromMonthly, spec_future.
  pose proof (monthly_rate_pos rate Hrate) as Hr.
  rewrite pow_returns by (apply base_nonzero; lra).
  rewrite bind_returns.
  rewrite div_returns by lra.
  rewrite bind_returns. f_equal.
  apply round_compat. field. lra.
Qed.

(** The annuity factor and what it does to the closed forms. *)
Lemma annuity_factor_pos (r : Q) (n : Z) :
  0 < r -> (0 < n)%Z -> 0 < annuity_factor r n.
Proof.
  intros Hr Hn. unfold annuity_factor.
  pose proof (growth_gt_1 r n Hr Hn) as Hg.
  apply Qlt_shift_div_l; lra.
Qed.

Lemma spec_future_factor (monthly r : Q) (n : Z) :
  0 < r -> spec_future monthly r n == monthly * annuity_factor r n.
Proof.
  intros Hr. unfold spec_future, annuity_factor. field. lra.
Qed.

Lemma spec_monthly_factor (target r : Q) (n : Z) :
  0 < r -> (0 < n)%Z -> spec_monthly target r n * annuity_factor r n == target.
Proof.
  intros Hr Hn. unfold spec_monthly, annuity_factor.
  pose proof (growth_gt_1 r n Hr Hn) as Hg.
  field. split; lra.
Qed.

(** The round trip lands within half a unit, plus half a unit of
    contribution carried through the annuity factor. *)
Lemma round_trip_bound (target x a : Q) (m fv : Z) :
  0 < a -> x * a == target ->
  x - (1 # 2) <= inject_Z m <= x + (1 # 2) ->
  inject_Z m * a - (1 # 2) <= inject_Z fv <= inject_Z m * a + (1 # 2) ->
  Qabs (inject_Z fv - target) <= (1 # 2) * a + (1 # 2).
Proof.
  intros Ha Hx [Hm1 Hm2] [Hf1 Hf2].
  generalize dependent (inject_Z fv). generalize dependent (inject_Z m).
  intros qm Hm1 Hm2 qf Hf1 Hf2.
  apply Qabs_Qle_condition. split.
  - assert (H : 0 <= (qm - x + (1 # 2)) * a) by (apply Qmult_le_0_compat; lra).
    lra.
  - assert (H : 0 <= (x + (1 # 2) - qm) * a) by (apply Qmult_le_0_compat; lra).
    lra.
Qed.






(** C4 as stated fails at rate 0: the round trip returns nothing, in
    exact arithmetic and in 53-bit arithmetic alike. *)
Lemma round_trip_counterexample :
  0 <= 0 /\ (1 <= 10)%Z /\
  ~ (exists future_value : Z, roundTrip 120000 0 10 = Returns future_value) /\
  ~ (exists future_value : Z,
       roundTrip64 rnd53 pow53 120000 0 10 = Returns future_value).
Proof.
  split; [discriminate | split; [lia | split]].
  - intros [fv Hfv]. vm_compute in Hfv. discriminate.
  - intros [fv Hfv]. vm_compute in Hfv. discriminate.
Qed.

End MonthlyPlan.

(* ===================================================================== *)
(** * Rounding and powers on the reals *)
(* ===================================================================== *)

Section RealRounding.

Local Open Scope R_scope.

Lemma Int_part_bounds (x : R) : IZR (Int_part x) <= x < IZR (Int_part x) + 1.
Proof. destruct (base_Int_part x). lra. Qed.

(** Two integers less than one apart are equal. *)
Lemma IZR_close (a b : Z) : IZR a - IZR b < 1 -> IZR b - IZR a < 1 -> a = b.
Proof.
  intros H1 H2.
  assert (a < b + 1)%Z by (apply lt_IZR; rewrite plus_IZR; lra).
  assert (b < a + 1)%Z by (apply lt_IZR; rewrite plus_IZR; lra).
  lia.
Qed.

(** [round] on the reals lands within half a unit of its argument. *)
Lemma real_round_bounds (x : R) :
  x - 1 / 2 <= IZR (PyR.round x) <= x + 1 / 2.
Proof.
  unfold PyR.round.
  pose proof (Int_part_bounds x) as [Hlo Hhi].
  destruct (Rlt_dec (x - IZR (Int_part x)) (1 / 2)) as [Hd | Hd]; [lra |].
  destruct (Rlt_dec (1 / 2) (x - IZR (Int_part x))) as [Hu | Hu].
  - rewrite plus_IZR. lra.
  - destruct (Z.even (Int_part x)); [| rewrite plus_IZR]; lra.
Qed.

(** Strictly within half a unit of an integer, [round] is that integer. *)
Lemma real_round_unique (x : R) (k : Z) :
  IZR k - 1 / 2 < x < IZR k + 1 / 2 -> PyR.round x = k.
Proof.
  intros [Hlo Hhi].
  pose proof (Int_part_bounds x) as [Flo Fhi].
  unfold PyR.round.
  destruct (Rlt_dec (x - IZR (Int_part x)) (1 / 2)) as [Hd | Hd].
  - apply IZR_close; lra.
  - destruct (Rlt_dec (1 / 2) (x - IZR (Int_part x))) as [Hu | Hu].
    + apply IZR_close; rewrite plus_IZR; lra.
    + assert (E : x = IZR (Int_part x) + 1 / 2) by lra.
      assert (Int_part x < k)%Z by (apply lt_IZR; lra).
      assert (k < Int_part x + 1)%Z by (apply lt_IZR; rewrite plus_IZR; lra).
      lia.
Qed.

Lemma Q2R_inject_Z (z : Z) : Q2R (inject_Z z) = IZR z.
Proof. unfold Q2R. simpl. field. Qed.



Lemma real_round2_unique (x : R) (k : Z) :
  IZR k - 1 / 2 < x * 100 < IZR k + 1 / 2 ->
  PyR.round2 x = Qred (inject_Z k / 100).
Proof.
  intros H. unfold PyR.round2. now rewrite (real_round_unique _ k H).
Qed.

(** On a rational argument the real [round] is the rational one. *)
Lemma Int_part_Q2R (x : Q) : Int_part (Q2R x) = Qfloor x.
Proof.
  symmetry. apply Int_part_spec.
  pose proof (Qle_Rle _ _ (Qfloor_le x)) as Hlo.
  pose proof (Qlt_Rlt _ _ (Qlt_floor x)) as Hhi.
  rewrite Q2R_inject_Z in Hlo, Hhi. rewrite plus_IZR in Hhi.
  split; lra.
Qed.

Lemma real_round_agrees (x : Q) : PyR.round (Q2R x) = Py.round x.
Proof.
  unfold PyR.round, Py.round. rewrite Int_part_Q2R.
  assert (E : Q2R x - IZR (Qfloor x) = Q2R (x - inject_Z (Qfloor x)))
    by now rewrite Q2R_minus, Q2R_inject_Z.
  assert (Hhalf : Q2R (1 # 2) = 1 / 2) by (unfold Q2R; simpl; field).
  rewrite E.
  destruct (x - inject_Z (Qfloor x) ?= 1 # 2)%Q eqn:C.
  - rewrite <- Qeq_alt in C. apply Qeq_eqR in C. rewrite Hhalf in C.
    destruct (Rlt_dec _ _) as [H | _]; [lra |].
    destruct (Rlt_dec _ _) as [H | _]; [lra | reflexivity].
  - rewrite <- Qlt_alt in C. apply Qlt_Rlt in C. rewrite Hhalf in C.
    destruct (Rlt_dec _ _) as [_ | H]; [reflexivity | lra].
  - rewrite <- Qgt_alt in C. apply Qlt_Rlt in C. rewrite Hhalf in C.
    destruct (Rlt_dec _ _) as [H | _]; [lra |].
    destruct (Rlt_dec _ _) as [_ | H]; [reflexivity | lra].
Qed.

Lemma real_round2_agrees (x : Q) : PyR.round2 (Q2R x) = Py.round2 x.
Proof.
  unfold PyR.round2, Py.round2.
  replace (Q2R x * 100) with (Q2R (x * 100)).
  - now rewrite real_round_agrees.
  - rewrite Q2R_mult. f_equal. unfold Q2R. simpl. field.
Qed.

(** Any power of 1 is 1. *)
Lemma Rpower_base_1 (y : R) : Rpower 1 y = 1.
Proof. unfold Rpower. rewrite ln_1, Rmult_0_r. apply exp_0. Qed.

(** The fifth power of the fifth root. *)
Lemma Rpower_fifth (x : R) : 0 < x -> Rpower x (1 / 5) ^ 5 = x.
Proof.
  intros Hx.
  rewrite <- Rpower_pow by (unfold Rpower; apply exp_pos).
  rewrite Rpower_mult.
  replace (1 / 5 * INR 5) with 1 by (simpl; field).
  now apply Rpower_1.
Qed.

(** 2^(1/5) lies strictly between 1.14865 and 1.14875. *)
Lemma fifth_root_of_2 :
  114865 / 100000 < Rpower 2 (1 / 5) < 114875 / 100000.
Proof.
  pose proof (Rpower_fifth 2 ltac:(lra)) as H5.
  assert (Hpos : 0 < Rpower 2 (1 / 5)) by (unfold Rpower; apply exp_pos).
  split.
  - apply Rnot_le_lt. intros Hle.
    pose proof (pow_incr _ _ 5 (conj (Rlt_le _ _ Hpos) Hle)) as Hp.
    rewrite H5 in Hp. lra.
  - apply Rnot_le_lt. intros Hle.
    assert (H0 : 0 <= 114875 / 100000) by lra.
    pose proof (pow_incr _ _ 5 (conj H0 Hle)) as Hp.
    rewrite H5 in Hp. lra.
Qed.

End RealRounding.

(* ===================================================================== *)
(** * Growth-rate estimates *)
(* ===================================================================== *)

Section Frames.

(** Positional access at both ends of a non-empty series. *)
Lemma iloc_first (p : Q) (rest : list Q) : iloc (p :: rest) 0 = Returns p.
Proof.
  unfold iloc. cbn [List.length].
  replace (0 <? 0)%Z with false by reflexivity.
  replace ((0 <? 0)%Z || (Z.of_nat (S (List.length rest)) <=? 0)%Z) with false.
  - reflexivity.
  - symmetry. apply orb_false_intro; [reflexivity | apply Z.leb_gt; lia].
Qed.

Lemma nth_error_last (series : list Q) (d : Q) :
  series <> [] ->
  nth_error series (List.length series - 1) = Some (last series d).
Proof.
  induction series as [| p rest IH]; [congruence |].
  intros _. destruct rest as [| q rest'].
  - reflexivity.
  - specialize (IH ltac:(discriminate)).
    replace (List.length (p :: q :: rest') - 1)%nat
      with (S (List.length (q :: rest') - 1)) by (cbn [List.length]; lia).
    exact IH.
Qed.

(** The last value of a series that starts with [p]. *)
Lemma last_cons (l : list Q) (p d : Q) : last (p :: l) d = last l p.
Proof.
  revert p d. induction l as [| q l IH]; intros p d; [reflexivity |].
  change (last (q :: l) d = last (q :: l) p).
  now rewrite !IH.
Qed.

Lemma iloc_last (series : list Q) (d : Q) :
  series <> [] -> iloc series (-1) = Returns (last series d).
Proof.
  intros Hne. unfold iloc.
  replace (-1 <? 0)%Z with true by reflexivity.
  assert (Hlen : (1 <= Z.of_nat (List.length series))%Z).
  { destruct series; [congruence | cbn [List.length]; lia]. }
  replace ((Z.of_nat (List.length series) + -1 <? 0)%Z
           || (Z.of_nat (List.length series) <=? Z.of_nat (List.length series) + -1)%Z)
    with false.
  - replace (Z.to_nat (Z.of_nat (List.length series) + -1))
      with (List.length series - 1)%nat by lia.
    now rewrite (nth_error_last series d Hne).
  - symmetry. apply orb_false_intro; [apply Z.ltb_ge | apply Z.leb_gt]; lia.
Qed.

(** [name in data] holds exactly when [data[name]] returns a column, and
    that column is one of the frame's. *)
Lemma column_of_contains (name : string) (cols : list (string * list Q)) :
  existsb (fun c => (fst c =? name)%string) cols = true ->
  exists series, column name cols = Returns series /\ In (name, series) cols.
Proof.
  induction cols as [| [k v] rest IH]; [discriminate |].
  cbn [existsb column fst].
  destruct (String.eqb_spec k name) as [-> | Hk].
  - intros _. exists v. split; [reflexivity | now left].
  - cbn [orb]. intros H. destruct (IH H) as (s & Hs & Hin).
    exists s. split; [assumption | now right].
Qed.

Lemma contains_of_column (name : string) (cols : list (string * list Q))
      (series : list Q) :
  column name cols = Returns series ->
  existsb (fun c => (fst c =? name)%string) cols = true /\ In (name, series) cols.
Proof.
  induction cols as [| [k v] rest IH]; [discriminate |].
  cbn [existsb column fst].
  destruct (String.eqb_spec k name) as [-> | Hk].
  - intros E. injection E as ->. split; [reflexivity | now left].
  - cbn [orb]. intros H. destruct (IH H) as [He Hin].
    split; [assumption | now right].
Qed.

(** In a well-formed, non-empty frame every column has a first and a last
    value. *)
Lemma column_nonempty (data : DataFrame) (name : string) (series : list Q) :
  well_formed data -> empty data = false ->
  column name (columns data) = Returns series -> series <> [].
Proof.
  intros Hwf Hemp Hcol.
  apply contains_of_column in Hcol as [_ Hin].
  unfold well_formed in Hwf. rewrite Forall_forall in Hwf.
  specialize (Hwf _ Hin). cbn [snd] in Hwf.
  unfold empty in Hemp. apply orb_false_elim in Hemp as [Hidx _].
  apply Nat.eqb_neq in Hidx.
  intros ->. cbn [List.length] in Hwf. congruence.
Qed.

Lemma frame_of_well_formed (prices : list (Z * Q)) : well_formed (frame_of prices).
Proof.
  unfold well_formed, frame_of. cbn [columns index].
  constructor; [| constructor].
  cbn [snd]. now rewrite !length_map.
Qed.

End Frames.

Section Growth.

Local Open Scope Q_scope.

Ltac step_bind H :=
  let a := fresh "a" in
  apply bind_inv in H; destruct H as (a & _ & H).

(** [fetch_cagr] answers [None] only through its guard. *)
Lemma fetch_cagr_absent_iff (data : DataFrame) (years : Q) :
  fetch_cagr data years = Returns None <->
  empty data = true \/ contains "Adj Close" data = false.
Proof.
  unfold fetch_cagr.
  destruct (empty data); [cbn; intuition |].
  destruct (contains "Adj Close" data); cbn [negb orb].
  - split.
    + intros H. repeat step_bind H. discriminate.
    + intros [H | H]; discriminate.
  - intuition.
Qed.

(** A positive base and a non-zero exponent: the real power. *)
Lemma real_pow_positive (x y : Q) :
  0 < x -> ~ y == 0 -> PyR.pow x y = Returns (Rpower (Q2R x) (Q2R y)).
Proof.
  intros Hx Hy. unfold PyR.pow.
  destruct (Qeq_bool y 0) eqn:E.
  - apply Qeq_bool_iff in E. contradiction.
  - assert (C : (x ?= 0) = Gt) by (rewrite <- Qgt_alt; exact Hx).
    now rewrite C.
Qed.

Lemma Q2R_ratio (a b : Q) : ~ b == 0 -> Q2R (a / b) = (Q2R a / Q2R b)%R.
Proof. intros Hb. now apply Q2R_div. Qed.

Lemma Q2R_reciprocal (y : Q) : ~ y == 0 -> Q2R (1 / y) = (1 / Q2R y)%R.
Proof.
  intros Hy. rewrite Q2R_div by assumption.
  replace (Q2R 1) with 1%R; [reflexivity |].
  unfold Q2R. simpl. field.
Qed.

(** Past the guard, on positive prices and a positive number of years,
    [fetch_cagr] rounds the growth of the specification. *)
Lemma fetch_cagr_evaluates (data : DataFrame) (years : Q) (series : list Q) :
  well_formed data -> empty data = false ->
  column "Adj Close" (columns data) = Returns series ->
  0 < hd 0 series -> 0 < last series 0 -> 0 < years ->
  fetch_cagr data years =
  Returns (Some (PyR.round2
                   (spec_growth_percent (hd 0 series) (last series 0) years))).
Proof.
  intros Hwf Hemp Hcol Hfirst Hlast Hyears.
  pose proof (column_nonempty _ _ _ Hwf Hemp Hcol) as Hne.
  destruct (contains_of_column _ _ _ Hcol) as [Hin _].
  unfold fetch_cagr. rewrite Hemp. unfold contains. rewrite Hin.
  cbn [negb orb]. rewrite Hcol, bind_returns.
  destruct series as [| p rest]; [congruence |].
  rewrite iloc_first, bind_returns.
  rewrite (iloc_last (p :: rest) 0 Hne), bind_returns.
  cbn [hd] in *.
  set (e := last (p :: rest) 0) in *.
  assert (Hp : ~ p == 0) by lra.
  assert (Hy : ~ years == 0) by lra.
  rewrite (div_returns e p Hp), bind_returns.
  rewrite (div_returns 1 years Hy), bind_returns.
  assert (Hratio : 0 < e / p) by (apply Qlt_shift_div_l; lra).
  assert (Hexp : ~ 1 / years == 0).
  { intros E. apply Hy.
    assert (E' : years == 1 / (1 / years)) by (field; lra).
    rewrite E', E. reflexivity. }
  rewrite (real_pow_positive _ _ Hratio Hexp), bind_returns.
  unfold spec_growth_percent.
  rewrite (Q2R_ratio e p Hp), (Q2R_reciprocal years Hy).
  reflexivity.
Qed.

(** X14. On a well-formed frame the look-ups of [fetch_cagr] succeed: it
    raises neither [KeyError] nor [IndexError]; what it can raise comes
    from the arithmetic only. *)
Lemma fetch_cagr_lookups_succeed (data : DataFrame) (years : Q) :
  well_formed data ->
  fetch_cagr data years <> Raises KeyError /\
  fetch_cagr data years <> Raises IndexError.
Proof.
  intros Hwf. unfold fetch_cagr.
  destruct (empty data) eqn:Hemp; [split; discriminate |].
  destruct (contains "Adj Close" data) eqn:Hc; [| split; discriminate].
  cbn [negb orb].
  destruct (column_of_contains _ _ Hc) as (series & Hcol & _).
  pose proof (column_nonempty _ _ _ Hwf Hemp Hcol) as Hne.
  rewrite Hcol, bind_returns.
  destruct series as [| p rest]; [congruence |].
  rewrite iloc_first, bind_returns.
  rewrite (iloc_last (p :: rest) 0 Hne), bind_returns.
  unfold Py.div, PyR.pow.
  destruct (Qeq_bool p 0); [split; discriminate |].
  rewrite bind_returns.
  destruct (Qeq_bool years 0); [split; discriminate |].
  rewrite bind_returns.
  destruct (Qeq_bool (1 / years) 0); [split; discriminate |].
  destruct (last (p :: rest) 0 / p ?= 0); [| | split; discriminate].
  - destruct (1 / years ?= 0); split; discriminate.
  - destruct (Py.is_integer (1 / years)); split; discriminate.
Qed.

(** The one-observation series: the ratio of the price to itself. *)
Lemma single_observation_evaluates (d : Z) (p years : Q) :
  ~ p == 0 -> ~ years == 0 ->
  cagr [(d, p)] years = Returns (Some 0).
Proof.
  intros Hp Hy. unfold cagr, fetch_cagr.
  cbn [frame_of map fst snd empty index columns List.length Nat.eqb orb
       contains existsb].
  replace (("Adj Close" =? "Adj Close")%string) with true by reflexivity.
  cbn [negb orb column].
  replace (("Adj Close" =? "Adj Close")%string) with true by reflexivity.
  rewrite bind_returns, iloc_first, bind_returns.
  rewrite (iloc_last [p] 0 ltac:(discriminate)), bind_returns.
  cbn [last].
  rewrite (div_returns p p Hp), bind_returns.
  rewrite (div_returns 1 years Hy), bind_returns.
  assert (Hone : p / p == 1) by (field; assumption).
  assert (Hratio : 0 < p / p) by (rewrite Hone; reflexivity).
  assert (Hexp : ~ 1 / years == 0).
  { intros E. apply Hy.
    assert (E' : years == 1 / (1 / years)) by (field; assumption).
    rewrite E', E. reflexivity. }
  rewrite (real_pow_positive _ _ Hratio Hexp), bind_returns.
  rewrite (Qeq_eqR _ _ Hone).
  replace (Q2R 1) with 1%R by (unfold Q2R; simpl; field).
  rewrite Rpower_base_1.
  rewrite (real_round2_unique _ 0); [reflexivity |].
  split; lra.
Qed.

(** The two-point example: 100 growing to 200 over 5 years. *)
Lemma doubling_in_five_years (d1 d2 : Z) :
  cagr [(d1, 100); (d2, 200)] 5 = Returns (Some (1487 # 100)).
Proof.
  unfold cagr.
  rewrite (fetch_cagr_evaluates _ 5 [100; 200]);
    try reflexivity; [| apply frame_of_well_formed].
  cbn [hd last]. unfold spec_growth_percent.
  replace (Q2R 200 / Q2R 100)%R with 2%R by (unfold Q2R; simpl; field).
  replace (Q2R 5) with 5%R by (unfold Q2R; simpl; field).
  pose proof fifth_root_of_2 as [Hlo Hhi].
  rewrite (real_round2_unique _ 1487); [reflexivity |].
  split; lra.
Qed.




(** C10. A series with exactly one observation never gives an absent
    result: wherever the expression is defined (a non-zero price, a
    non-zero number of years) it gives 0.0, the growth of a price to
    itself; absent is kept for empty or column-less frames. *)
Theorem single_observation_cagr (d : Z) (p years : Q) :
  cagr [(d, p)] years <> Returns None /\
  (~ p == 0 -> ~ years == 0 -> cagr [(d, p)] years = Returns (Some 0)).
Proof.
  split.
  - intros H. apply fetch_cagr_absent_iff in H as [H | H]; discriminate.
  - apply single_observation_evaluates.
Qed.

Lemma single_observation_cagr_witness :
  ~ 100 == 0 /\ ~ 5 == 0 /\
  cagr [(0%Z, 100)] 5 = Returns (Some 0).
Proof.
  split; [discriminate | split; [discriminate |]].
  apply (single_observation_cagr 0 100 5); discriminate.
Defined.

End Growth.

Section Average.

Local Open Scope Q_scope.

Lemma fold_left_Qplus (xs : list Q) (a : Q) :
  fold_left Qplus xs a == a + fold_right Qplus 0 xs.
Proof.
  revert a. induction xs as [| x xs IH]; intros a; cbn [fold_left fold_right].
  - ring.
  - rewrite IH. ring.
Qed.

(** [sum] adds from the left, the mean of the specification from the
    right: the same rational. *)
Lemma sum_fold_right (xs : list Q) : Py.sum xs == fold_right Qplus 0 xs.
Proof. unfold Py.sum. rewrite fold_left_Qplus. ring. Qed.

Lemma round2_compat (x y : Q) : x == y -> Py.round2 x = Py.round2 y.
Proof.
  intros Hxy. unfold Py.round2. apply Qred_complete.
  assert (E : Py.round (x * 100) = Py.round (y * 100))
    by (apply round_compat; now rewrite Hxy).
  now rewrite E.
Qed.

(** The comprehension keeps exactly the present values, in order. *)
Lemma present_In (returns : list (option Q)) (r : Q) :
  In r (present returns) <-> In (Some r) returns.
Proof.
  induction returns as [| [x |] rest IH]; cbn [present In].
  - tauto.
  - rewrite IH. split; intros [H | H]; auto; left; congruence.
  - rewrite IH. split; [auto | intros [H | H]; [discriminate | assumption]].
Qed.

Lemma present_nil_iff (returns : list (option Q)) :
  present returns = [] <-> Forall (fun r => r = None) returns.
Proof.
  induction returns as [| [x |] rest IH]; cbn [present].
  - split; auto.
  - split; [discriminate | intros H; inversion H; discriminate].
  - rewrite IH. split; intros H; [constructor; auto | now inversion H].
Qed.

Lemma len_nonzero {A : Type} (x : A) (xs : list A) :
  ~ inject_Z (Py.len (x :: xs)) == 0.
Proof.
  unfold Py.len. cbn [List.length]. intros E.
  assert (H : (0 < Z.of_nat (S (List.length xs)))%Z) by lia.
  rewrite Zlt_Qlt in H. rewrite E in H. discriminate.
Qed.

(** With a value present the mean is taken and rounded: the guard keeps
    the divisor away from 0. *)
Lemma averageGrowth_evaluates (returns : list (option Q)) :
  present returns <> [] ->
  averageGrowth returns = Returns (Some (Py.round2 (spec_mean (present returns)))).
Proof.
  intros Hne. unfold averageGrowth.
  destruct (present returns) as [| x xs] eqn:E; [congruence |].
  rewrite div_returns by apply len_nonzero.
  rewrite bind_returns. do 2 f_equal.
  apply round2_compat. unfold spec_mean, Py.len.
  now rewrite sum_fold_right.
Qed.

Lemma averageGrowth_absent_iff (returns : list (option Q)) :
  averageGrowth returns = Returns None <-> present returns = [].
Proof.
  split.
  - intros H. destruct (present returns) as [| x xs] eqn:E; [reflexivity |].
    rewrite averageGrowth_evaluates in H by (rewrite E; discriminate).
    discriminate.
  - intros E. unfold averageGrowth. now rewrite E.
Qed.




End Average.

(* ===================================================================== *)
(** * Rounding, powers and the annuity factor *)
(* ===================================================================== *)

Section PlanProperties.

Local Open Scope Q_scope.

(** [round] never reorders its arguments. *)
Lemma round_monotone (x y : Q) : x <= y -> (Py.round x <= Py.round y)%Z.
Proof.
  intros Hxy.
  destruct (Z_le_gt_dec (Py.round x) (Py.round y)) as [Hle | Hgt]; [assumption |].
  exfalso.
  pose proof (round_bounds x) as [_ Hx].
  pose proof (round_bounds y) as [Hy _].
  assert (Hstep : inject_Z (Py.round y) + 1 <= inject_Z (Py.round x)).
  { rewrite <- inject_Z_succ. rewrite <- Zle_Qle. lia. }
  assert (E : x == y) by lra.
  apply round_compat in E. lia.
Qed.

Lemma round_zero : Py.round 0 = 0%Z.
Proof. reflexivity. Qed.

Lemma Qpower_succ (a : Q) (k : nat) :
  a ^ Z.of_nat (S k) == a * a ^ Z.of_nat k.
Proof.
  rewrite Nat2Z.inj_succ. unfold Z.succ.
  rewrite Qpower_plus' by lia.
  rewrite Qpower_1_r. ring.
Qed.

(** Powers keep the order of non-negative bases. *)
Lemma Qpower_base_monotone (a b : Q) (k : nat) :
  0 <= a -> a <= b -> a ^ Z.of_nat k <= b ^ Z.of_nat k.
Proof.
  intros Ha Hab. induction k as [| k IH].
  - apply Qle_refl.
  - rewrite !Qpower_succ.
    apply Qmult_le_compat_nonneg; split; try assumption.
    apply Qpower_0_le; assumption.
Qed.

(** The annuity factor is the geometric sum. *)
Lemma annuity_factor_sum (r : Q) (n : nat) :
  0 < r -> annuity_factor r (Z.of_nat n) == geometric_sum r n.
Proof.
  intros Hr. induction n as [| n IH].
  - unfold annuity_factor. cbn [geometric_sum Z.of_nat Qpower]. field. lra.
  - cbn [geometric_sum]. rewrite <- IH. unfold annuity_factor.
    rewrite Qpower_succ. field. lra.
Qed.

Lemma geometric_sum_rate_monotone (r1 r2 : Q) (n : nat) :
  0 <= r1 -> r1 <= r2 -> geometric_sum r1 n <= geometric_sum r2 n.
Proof.
  intros H1 H12. induction n as [| n IH]; cbn [geometric_sum].
  - apply Qle_refl.
  - apply Qplus_le_compat; [assumption |].
    apply Qpower_base_monotone; lra.
Qed.

Lemma geometric_sum_term (r : Q) (k : nat) : 0 <= r -> 1 <= (1 + r) ^ Z.of_nat k.
Proof.
  intros Hr. apply Qpower_1_le; [lra | lia].
Qed.

Lemma geometric_sum_length_monotone (r : Q) (n m : nat) :
  0 <= r -> (n <= m)%nat -> geometric_sum r n <= geometric_sum r m.
Proof.
  intros Hr Hnm. induction Hnm as [| m Hnm IH].
  - apply Qle_refl.
  - cbn [geometric_sum]. pose proof (geometric_sum_term r m Hr). lra.
Qed.

(** Every term is at least 1: the factor is at least the number of months. *)
Lemma geometric_sum_at_least (r : Q) (n : nat) :
  0 <= r -> inject_Z (Z.of_nat n) <= geometric_sum r n.
Proof.
  intros Hr. induction n as [| n IH].
  - apply Qle_refl.
  - cbn [geometric_sum]. rewrite Nat2Z.inj_succ. unfold Z.succ.
    rewrite inject_Z_succ.
    pose proof (geometric_sum_term r n Hr). lra.
Qed.

Lemma months_as_nat (years : Z) :
  (1 <= years)%Z -> months_of years = Z.of_nat (Z.to_nat (months_of years)).
Proof. intros H. unfold months_of. lia. Qed.

(** The goal-mode closed form is the target over the annuity factor. *)
Lemma spec_monthly_over_factor (target r : Q) (n : Z) :
  0 < r -> (0 < n)%Z ->
  spec_monthly target r n == target / annuity_factor r n.
Proof.
  intros Hr Hn. unfold spec_monthly, annuity_factor.
  pose proof (growth_gt_1 r n Hr Hn) as Hg.
  field. split; lra.
Qed.

(** Dividing a non-negative amount by a larger positive number gives less. *)
Lemma Qdiv_antitone (t a b : Q) : 0 <= t -> 0 < a -> a <= b -> t / b <= t / a.
Proof.
  intros Ht Ha Hab.
  apply Qle_shift_div_l; [lra |].
  assert (E : t / b * a == t * (a / b)) by (field; lra).
  rewrite E.
  assert (H1 : a / b <= 1) by (apply Qle_shift_div_r; lra).
  assert (H0 : 0 <= t * (1 - a / b)) by (apply Qmult_le_0_compat; lra).
  lra.
Qed.

Lemma monthly_rate_scale (rate : Q) : monthly_rate_of rate == rate * (1 # 1200).
Proof. unfold monthly_rate_of. field. Qed.

Lemma geometric_sum_pos (r : Q) (years : Z) :
  0 <= r -> (1 <= years)%Z ->
  1 <= geometric_sum r (Z.to_nat (months_of years)).
Proof.
  intros Hr Hy.
  apply Qle_trans with (inject_Z (Z.of_nat (Z.to_nat (months_of years)))).
  - rewrite <- (months_as_nat years Hy). unfold months_of.
    change 1 with (inject_Z 1). rewrite <- Zle_Qle. lia.
  - now apply geometric_sum_at_least.
Qed.

Lemma annuity_factor_months (rate : Q) (years : Z) :
  0 < rate -> (1 <= years)%Z ->
  annuity_factor (monthly_rate_of rate) (months_of years) ==
  geometric_sum (monthly_rate_of rate) (Z.to_nat (months_of years)).
Proof.
  intros Hrate Hy.
  rewrite (months_as_nat years Hy) at 1.
  apply annuity_factor_sum. now apply monthly_rate_pos.
Qed.

(** Both computations through the geometric sum. *)
Lemma monthly_as_quotient (target rate : Q) (years : Z) :
  0 < rate -> (1 <= years)%Z ->
  solveMonthlyFromTarget target rate years =
  Returns (Py.round (target /
                     geometric_sum (monthly_rate_of rate) (Z.to_nat (months_of years)))).
Proof.
  intros Hrate Hy. rewrite monthly_evaluates by assumption.
  f_equal. apply round_compat.
  rewrite spec_monthly_over_factor
    by (try apply monthly_rate_pos; try apply months_pos; assumption).
  now rewrite annuity_factor_months.
Qed.

Lemma future_as_product (monthly rate : Q) (years : Z) :
  0 < rate -> (1 <= years)%Z ->
  solveFutureFromMonthly monthly rate years =
  Returns (Py.round (monthly *
                     geometric_sum (monthly_rate_of rate) (Z.to_nat (months_of years)))).
Proof.
  intros Hrate Hy. rewrite future_evaluates by assumption.
  f_equal. apply round_compat.
  rewrite spec_future_factor by now apply monthly_rate_pos.
  now rewrite annuity_factor_months.
Qed.

Lemma months_inject (years : Z) :
  (1 <= years)%Z ->
  inject_Z (years * 12) == inject_Z (Z.of_nat (Z.to_nat (months_of years))).
Proof. intros Hy. now rewrite <- (months_as_nat years Hy). Qed.

Lemma slider_rate_pos (rate : Q) : rate_slider rate -> 0 < rate.
Proof. intros [H _]. lra. Qed.

Lemma slider_years_pos (years : Z) : years_slider years -> (1 <= years)%Z.
Proof. intros [H _]. exact H. Qed.

End PlanProperties.

(* ===================================================================== *)
(** * More on the growth-rate estimates *)
(* ===================================================================== *)

Section GrowthProperties.

Local Open Scope Q_scope.

(** Past the guard the result is decided by the first and the last value
    of the column and by [years]. *)
Lemma fetch_cagr_past_guard (data : DataFrame) (years : Q) (series : list Q) :
  well_formed data -> empty data = false ->
  column "Adj Close" (columns data) = Returns series ->
  fetch_cagr data years = growth_of (hd 0 series) (last series 0) years.
Proof.
  intros Hwf Hemp Hcol.
  pose proof (column_nonempty _ _ _ Hwf Hemp Hcol) as Hne.
  destruct (contains_of_column _ _ _ Hcol) as [Hin _].
  unfold fetch_cagr. rewrite Hemp. unfold contains. rewrite Hin.
  cbn [negb orb]. rewrite Hcol, bind_returns.
  destruct series as [| p rest]; [congruence |].
  rewrite iloc_first, bind_returns.
  rewrite (iloc_last (p :: rest) 0 Hne), bind_returns.
  reflexivity.
Qed.

Lemma cagr_past_guard (d : Z) (p : Q) (rest : list (Z * Q)) (years : Q) :
  cagr ((d, p) :: rest) years = growth_of p (last (map snd rest) p) years.
Proof.
  unfold cagr.
  rewrite (fetch_cagr_past_guard _ years (map snd ((d, p) :: rest)));
    try reflexivity; [| apply frame_of_well_formed].
  cbn [map snd hd]. now rewrite last_cons.
Qed.

(** X8. On well-formed frames the result depends on the "Adj Close"
    column only through its first and its last value: the rows in
    between, the dates and the other columns play no part. *)
Theorem fetch_cagr_endpoints_only
    (data1 data2 : DataFrame) (years : Q) (series1 series2 : list Q) :
  well_formed data1 -> well_formed data2 ->
  empty data1 = false -> empty data2 = false ->
  column "Adj Close" (columns data1) = Returns series1 ->
  column "Adj Close" (columns data2) = Returns series2 ->
  hd 0 series1 = hd 0 series2 -> last series1 0 = last series2 0 ->
  fetch_cagr data1 years = fetch_cagr data2 years.
Proof.
  intros Hwf1 Hwf2 He1 He2 Hc1 Hc2 Hhd Hlast.
  rewrite (fetch_cagr_past_guard data1 years series1) by assumption.
  rewrite (fetch_cagr_past_guard data2 years series2) by assumption.
  now rewrite Hhd, Hlast.
Qed.

Lemma fetch_cagr_endpoints_only_witness :
  fetch_cagr (mkFrame [1; 2; 3]%Z
                [("Close"%string, [90; 95; 99]);
                 ("Adj Close"%string, [100; 150; 200])]) 5 =
  fetch_cagr (frame_of [(7%Z, 100); (8%Z, 200)]) 5.
Proof.
  apply (fetch_cagr_endpoints_only _ _ 5 [100; 150; 200] [100; 200]);
    try reflexivity.
  - repeat constructor.
  - apply frame_of_well_formed.
Defined.

(** X9. With no look-back at all, [years] = 0, a frame that passes the
    guard makes [fetch_cagr] raise [ZeroDivisionError]: [1 / years] is
    not guarded. *)
Theorem fetch_cagr_zero_years (data : DataFrame) (years : Q) :
  well_formed data -> empty data = false ->
  contains "Adj Close" data = true -> years == 0 ->
  fetch_cagr data years = Raises ZeroDivisionError.
Proof.
  intros Hwf Hemp Hc Hy.
  destruct (column_of_contains _ _ Hc) as (series & Hcol & _).
  rewrite (fetch_cagr_past_guard data years series) by assumption.
  unfold growth_of, Py.div.
  destruct (Qeq_bool (hd 0 series) 0); [reflexivity |].
  rewrite bind_returns.
  apply Qeq_bool_iff in Hy. now rewrite Hy.
Qed.

Lemma fetch_cagr_zero_years_witness :
  cagr [(1%Z, 100); (2%Z, 200)] 0 = Raises ZeroDivisionError.
Proof.
  apply (fetch_cagr_zero_years (frame_of [(1%Z, 100); (2%Z, 200)]) 0);
    try reflexivity.
  apply frame_of_well_formed.
Defined.

(** [x ** y] does not depend on how the base is written as a fraction. *)
Lemma real_pow_compat (x x' y : Q) : x == x' -> PyR.pow x y = PyR.pow x' y.
Proof.
  intros Hx. unfold PyR.pow.
  destruct (Qeq_bool y 0); [reflexivity |].
  assert (Hc : (x ?= 0) = (x' ?= 0)) by now rewrite Hx.
  rewrite Hc.
  destruct (x' ?= 0).
  - reflexivity.
  - destruct (Py.is_integer y); [| reflexivity].
    apply f_equal. apply Qeq_eqR. now rewrite Hx.
  - apply f_equal. apply (f_equal (fun b => Rpower b (Q2R y))).
    now apply Qeq_eqR.
Qed.

Lemma growth_of_scale (c s e years : Q) :
  ~ c == 0 -> growth_of (c * s) (c * e) years = growth_of s e years.
Proof.
  intros Hc. unfold growth_of, Py.div.
  assert (Hz : Qeq_bool (c * s) 0 = Qeq_bool s 0).
  { destruct (Qeq_bool s 0) eqn:E.
    - apply Qeq_bool_iff in E. apply Qeq_bool_iff. rewrite E. ring.
    - apply Qeq_bool_neq in E.
      destruct (Qeq_bool (c * s) 0) eqn:E'; [| reflexivity].
      apply Qeq_bool_iff in E'. exfalso.
      destruct (Qmult_integral _ _ E'); contradiction. }
  rewrite Hz.
  destruct (Qeq_bool s 0) eqn:E; [reflexivity |].
  apply Qeq_bool_neq in E.
  rewrite !bind_returns.
  destruct (Qeq_bool years 0); [reflexivity |].
  rewrite !bind_returns.
  assert (Hr : c * e / (c * s) == e / s) by (field; split; assumption).
  now rewrite (real_pow_compat _ _ _ Hr).
Qed.

(** X10. The estimate does not depend on the unit of the prices:
    multiplying every price by the same non-zero factor leaves the result
    of [cagr] as it was, a raise included. *)
Theorem cagr_scale_invariant (c : Q) (prices : list (Z * Q)) (years : Q) :
  ~ c == 0 ->
  cagr (map (fun obs => (fst obs, c * snd obs)) prices) years = cagr prices years.
Proof.
  intros Hc. destruct prices as [| [d p] rest]; [reflexivity |].
  cbn [map fst snd]. rewrite !cagr_past_guard.
  rewrite map_map. cbn [snd].
  assert (Hl : last (map (fun obs : Z * Q => c * snd obs) rest) (c * p) =
               c * last (map snd rest) p).
  { rewrite <- (map_map snd (Qmult c)).
    generalize (map snd rest) as l. intros l. revert p.
    induction l as [| q l IH]; intros p; [reflexivity |].
    cbn [map]. rewrite !last_cons. apply IH. }
  rewrite Hl. now apply growth_of_scale.
Qed.

Lemma cagr_scale_invariant_witness :
  cagr [(1%Z, 100 * 100); (2%Z, 100 * 200)] 5 = cagr [(1%Z, 100); (2%Z, 200)] 5.
Proof.
  apply (cagr_scale_invariant 100 [(1%Z, 100); (2%Z, 200)] 5). discriminate.
Defined.

(** On positive prices and a positive number of years the arithmetic
    goes through. *)
Lemma growth_of_evaluates (s e years : Q) :
  0 < s -> 0 < e -> 0 < years ->
  growth_of s e years =
  Returns (Some (PyR.round2 (spec_growth_percent s e years))).
Proof.
  intros Hs He Hyears. unfold growth_of.
  assert (Hp : ~ s == 0) by lra.
  assert (Hy : ~ years == 0) by lra.
  rewrite (div_returns e s Hp), bind_returns.
  rewrite (div_returns 1 years Hy), bind_returns.
  assert (Hratio : 0 < e / s) by (apply Qlt_shift_div_l; lra).
  assert (Hexp : ~ 1 / years == 0).
  { intros E. apply Hy.
    assert (E' : years == 1 / (1 / years)) by (field; lra).
    rewrite E', E. reflexivity. }
  rewrite (real_pow_positive _ _ Hratio Hexp), bind_returns.
  unfold spec_growth_percent.
  rewrite (Q2R_ratio e s Hp), (Q2R_reciprocal years Hy).
  reflexivity.
Qed.

(** [round] on the reals never reorders its arguments. *)
Lemma real_round_monotone (x y : R) :
  (x <= y)%R -> (PyR.round x <= PyR.round y)%Z.
Proof.
  intros Hxy.
  destruct (Z_le_gt_dec (PyR.round x) (PyR.round y)) as [Hle | Hgt]; [assumption |].
  exfalso.
  pose proof (real_round_bounds x) as [_ Hx].
  pose proof (real_round_bounds y) as [Hy _].
  assert (Hstep : (IZR (PyR.round y) + 1 <= IZR (PyR.round x))%R).
  { rewrite <- plus_IZR. apply IZR_le. lia. }
  assert (E : x = y) by lra.
  subst y. lia.
Qed.

Lemma real_round2_monotone (x y : R) :
  (x <= y)%R -> PyR.round2 x <= PyR.round2 y.
Proof.
  intros Hxy. unfold PyR.round2. rewrite !Qred_correct.
  assert (Hk : (PyR.round (x * 100) <= PyR.round (y * 100))%Z)
    by (apply real_round_monotone; lra).
  apply Qmult_le_compat_r; [| discriminate].
  now rewrite <- Zle_Qle.
Qed.

Lemma real_round2_integer (k : Z) : PyR.round2 (IZR k) = Qred (inject_Z k).
Proof.
  rewrite (real_round2_unique _ (k * 100)).
  - apply Qred_complete. rewrite inject_Z_mult. field.
  - rewrite mult_IZR. split; lra.
Qed.

Lemma Q2R_pos (q : Q) : 0 < q -> (0 < Q2R q)%R.
Proof.
  intros H. apply Qlt_Rlt in H.
  replace 0%R with (Q2R 0); [exact H |]. unfold Q2R. simpl. field.
Qed.

Lemma Q2R_le (a b : Q) : a <= b -> (Q2R a <= Q2R b)%R.
Proof. apply Qle_Rle. Qed.

(** X11. On positive prices and a positive number of years the estimate
    has the sign of the price change (not negative when the last price is
    at least the first, not positive when it is at most the first) and is
    never below -100. *)
Theorem cagr_sign (d : Z) (p : Q) (rest : list (Z * Q)) (years : Q) :
  0 < p -> 0 < last (map snd rest) p -> 0 < years ->
  exists pct : Q,
    cagr ((d, p) :: rest) years = Returns (Some pct) /\
    -100 <= pct /\
    (p <= last (map snd rest) p -> 0 <= pct) /\
    (last (map snd rest) p <= p -> pct <= 0).
Proof.
  intros Hp He Hy.
  set (e := last (map snd rest) p) in *.
  eexists. split.
  - rewrite cagr_past_guard. fold e. now apply growth_of_evaluates.
  - pose proof (Q2R_pos p Hp) as Rp.
    pose proof (Q2R_pos e He) as Re.
    pose proof (Q2R_pos years Hy) as Ry.
    assert (Hexp : (0 < 1 / Q2R years)%R) by (apply Rdiv_lt_0_compat; lra).
    assert (Hratio : (0 < Q2R e / Q2R p)%R) by (apply Rdiv_lt_0_compat; lra).
    unfold spec_growth_percent.
    set (g := Rpower (Q2R e / Q2R p) (1 / Q2R years)).
    assert (Hg : (0 < g)%R) by (unfold g, Rpower; apply exp_pos).
    split; [| split].
    + change (-100) with (Qred (inject_Z (-100))).
      rewrite <- real_round2_integer.
      apply real_round2_monotone. lra.
    + intros Hle. apply Q2R_le in Hle.
      change 0 with (Qred (inject_Z 0)).
      rewrite <- real_round2_integer.
      apply real_round2_monotone.
      assert (H1 : (Rpower 1 (1 / Q2R years) <= g)%R).
      { apply Rle_Rpower_l; [lra |]. split; [lra |].
        apply (Rmult_le_reg_r (Q2R p)); [assumption |].
        unfold Rdiv. rewrite Rmult_assoc, Rinv_l by lra. lra. }
      rewrite Rpower_base_1 in H1. lra.
    + intros Hle. apply Q2R_le in Hle.
      change 0 with (Qred (inject_Z 0)).
      rewrite <- real_round2_integer.
      apply real_round2_monotone.
      assert (H1 : (g <= Rpower 1 (1 / Q2R years))%R).
      { apply Rle_Rpower_l; [lra |]. split; [assumption |].
        apply (Rmult_le_reg_r (Q2R p)); [assumption |].
        unfold Rdiv. rewrite Rmult_assoc, Rinv_l by lra. lra. }
      rewrite Rpower_base_1 in H1. lra.
Qed.

Lemma cagr_sign_witness :
  0 < 200 /\ 0 < 100 /\ 0 < 5 /\
  exists pct : Q,
    cagr [(1%Z, 200); (2%Z, 100)] 5 = Returns (Some pct) /\
    -100 <= pct /\ pct <= 0.
Proof.
  repeat (split; [reflexivity |]).
  destruct (cagr_sign 1 200 [(2%Z, 100)] 5) as (pct & Hc & Hlo & _ & Hneg);
    try reflexivity.
  exists pct. split; [exact Hc | split; [exact Hlo |]].
  apply Hneg. discriminate.
Defined.

Lemma Q2R_power_nat (q : Q) (k : nat) :
  Q2R (q ^ Z.of_nat k) = (Q2R q ^ k)%R.
Proof.
  induction k as [| k IH].
  - cbn [Z.of_nat Qpower pow]. unfold Q2R. simpl. field.
  - rewrite (Qeq_eqR _ _ (Qpower_succ q k)).
    rewrite Q2R_mult, IH. reflexivity.
Qed.

(** The k-th root of a k-th power. *)
Lemma Rpower_root_of_power (a : R) (k : nat) :
  (0 < a)%R -> (1 <= k)%nat -> Rpower (a ^ k) (1 / INR k) = a.
Proof.
  intros Ha Hk.
  rewrite <- Rpower_pow by assumption.
  rewrite Rpower_mult.
  replace (INR k * (1 / INR k))%R with 1%R.
  - now apply Rpower_1.
  - field. apply not_0_INR. lia.
Qed.

(** X12. When the price ratio is an exact power q^n of a positive
    rational q, the look-back is n whole years and (q - 1) * 100 is a
    whole number k of hundredths, the estimate is k hundredths exactly, for
    prices within a factor of 1000 of each other; with n = 1 it is the
    plain percentage change. *)
Theorem cagr_exact_root
    (d : Z) (p : Q) (rest : list (Z * Q)) (n : Z) (q : Q) (k : Z) :
  0 < p -> (1 <= n)%Z -> 0 < q ->
  last (map snd rest) p / p == q ^ n ->
  (q - 1) * 100 * 100 == inject_Z k ->
  last (map snd rest) p <= 1000 * p -> p <= 1000 * last (map snd rest) p ->
  exists pct : Q,
    cagr ((d, p) :: rest) (inject_Z n) = Returns (Some pct) /\
    pct == inject_Z k / 100.
Proof.
  intros Hp Hn Hq Hratio Hk _ _.
  set (e := last (map snd rest) p) in *.
  assert (Hqn : 0 < q ^ n) by now apply Qpower_0_lt.
  assert (He : 0 < e).
  { assert (E : e == q ^ n * p) by (rewrite <- Hratio; field; lra).
    rewrite E. apply Qmult_lt_0_compat; assumption. }
  assert (Hy : 0 < inject_Z n).
  { change 0 with (inject_Z 0). rewrite <- Zlt_Qlt. lia. }
  exists (Py.round2 ((q - 1) * 100)). split.
  - rewrite cagr_past_guard. fold e.
    rewrite growth_of_evaluates by assumption.
    do 2 f_equal.
    rewrite <- real_round2_agrees. f_equal.
    unfold spec_growth_percent.
    rewrite <- (Q2R_ratio e p) by lra.
    rewrite (Qeq_eqR _ _ Hratio).
    replace n with (Z.of_nat (Z.to_nat n)) by lia.
    rewrite Q2R_power_nat, Q2R_inject_Z, <- INR_IZR_INZ.
    rewrite Rpower_root_of_power; [| now apply Q2R_pos | lia].
    rewrite Q2R_mult, Q2R_minus.
    replace (Q2R 1) with 1%R by (unfold Q2R; simpl; field).
    replace (Q2R 100) with 100%R by (unfold Q2R; simpl; field).
    reflexivity.
  - unfold Py.round2. rewrite Qred_correct.
    rewrite (round_compat _ _ Hk), round_inject_Z. reflexivity.
Qed.

Lemma cagr_exact_root_witness :
  0 < 100 /\ (1 <= 2)%Z /\ 0 < 11 # 10 /\ 121 / 100 == (11 # 10) ^ 2 /\
  ((11 # 10) - 1) * 100 * 100 == inject_Z 1000 /\
  121 <= 1000 * 100 /\ 100 <= 1000 * 121 /\
  exists pct : Q,
    cagr [(1%Z, 100); (2%Z, 110); (3%Z, 121)] 2 = Returns (Some pct) /\
    pct == inject_Z 1000 / 100.
Proof.
  split; [reflexivity | split; [lia | split; [reflexivity | split; [reflexivity |]]]].
  split; [reflexivity | split; [discriminate | split; [discriminate |]]].
  apply (cagr_exact_root 1 100 [(2%Z, 110); (3%Z, 121)] 2 (11 # 10) 1000);
    reflexivity || lia || discriminate.
Defined.

Lemma fetch_cagr_output_rounded (data : DataFrame) (years pct : Q) :
  fetch_cagr data years = Returns (Some pct) ->
  Py.round2 pct = pct /\ exists k : Z, pct * 100 == inject_Z k.
Proof.
  unfold fetch_cagr.
  destruct (empty data || negb (contains "Adj Close" data)); [discriminate |].
  intros H.
  repeat (apply bind_inv in H; destruct H as (? & _ & H)).
  injection H as <-.
  match goal with
  | |- context [PyR.round2 ?r] => generalize r
  end.
  intros r.
  assert (Hk : PyR.round2 r * 100 == inject_Z (PyR.round (r * 100)))
    by (unfold PyR.round2; rewrite Qred_correct; field).
  split; [| eexists; exact Hk].
  unfold Py.round2.
  rewrite (round_compat _ _ Hk), round_inject_Z.
  reflexivity.
Qed.

(** X13. On a well-formed frame whose first and last prices are positive
    and within a factor of 1000 of each other, and for a look-back of a
    year or more, what [fetch_cagr] returns is a whole number of
    hundredths: rounding it to two decimals again changes nothing. *)
Theorem fetch_cagr_hundredths
    (data : DataFrame) (years : Q) (series : list Q) (pct : Q) :
  well_formed data ->
  column "Adj Close" (columns data) = Returns series ->
  0 < hd 0 series -> 0 < last series 0 ->
  last series 0 <= 1000 * hd 0 series -> hd 0 series <= 1000 * last series 0 ->
  1 <= years ->
  fetch_cagr data years = Returns (Some pct) ->
  Py.round2 pct = pct /\ exists k : Z, pct * 100 == inject_Z k.
Proof. intros _ _ _ _ _ _ _. apply fetch_cagr_output_rounded. Qed.

Lemma fetch_cagr_hundredths_witness :
  well_formed (frame_of [(1%Z, 100); (2%Z, 200)]) /\
  0 < 100 /\ 0 < 200 /\ 200 <= 1000 * 100 /\ 100 <= 1000 * 200 /\ 1 <= 5 /\
  Py.round2 (1487 # 100) = 1487 # 100.
Proof.
  assert (Hwf : well_formed (frame_of [(1%Z, 100); (2%Z, 200)]))
    by apply frame_of_well_formed.
  split; [exact Hwf |].
  split; [reflexivity | split; [reflexivity |]].
  split; [discriminate | split; [discriminate | split; [discriminate |]]].
  apply (fetch_cagr_hundredths (frame_of [(1%Z, 100); (2%Z, 200)]) 5 [100; 200]);
    try reflexivity; try discriminate; [exact Hwf |].
  apply (doubling_in_five_years 1 2).
Defined.

End GrowthProperties.

(* ===================================================================== *)
(** * More on the average of the estimates *)
(* ===================================================================== *)

Section AverageProperties.

Local Open Scope Q_scope.

Lemma fetch_cagr_lookups_succeed_witness :
  well_formed (frame_of [(1%Z, 0); (2%Z, 200)]) /\
  fetch_cagr (frame_of [(1%Z, 0); (2%Z, 200)]) 5 <> Raises KeyError /\
  fetch_cagr (frame_of [(1%Z, 0); (2%Z, 200)]) 5 <> Raises IndexError.
Proof.
  split; [apply frame_of_well_formed |].
  apply (fetch_cagr_lookups_succeed (frame_of [(1%Z, 0); (2%Z, 200)]) 5).
  apply frame_of_well_formed.
Defined.

Lemma round2_monotone (x y : Q) : x <= y -> Py.round2 x <= Py.round2 y.
Proof.
  intros Hxy. unfold Py.round2. rewrite !Qred_correct.
  assert (Hk : (Py.round (x * 100) <= Py.round (y * 100))%Z)
    by (apply round_monotone; lra).
  apply Qmult_le_compat_r; [| discriminate].
  now rewrite <- Zle_Qle.
Qed.

Lemma sum_permutation (xs ys : list Q) :
  Permutation xs ys -> fold_right Qplus 0 xs == fold_right Qplus 0 ys.
Proof.
  induction 1 as [| x xs ys _ IH | x y xs | xs ys zs _ IH1 _ IH2];
    cbn [fold_right].
  - reflexivity.
  - now rewrite IH.
  - ring.
  - now rewrite IH1.
Qed.

Lemma spec_mean_permutation (xs ys : list Q) :
  Permutation xs ys -> spec_mean xs == spec_mean ys.
Proof.
  intros H. unfold spec_mean.
  rewrite (sum_permutation _ _ H), (Permutation_length H). reflexivity.
Qed.

Lemma present_map_Some (xs : list Q) : present (map Some xs) = xs.
Proof. induction xs as [| x xs IH]; cbn; [reflexivity | now rewrite IH]. Qed.

(** X15. For up to three present values, each a whole number of
    hundredths of magnitude up to 10^4, as [fetch_cagr] delivers them, the
    average depends only on which values are present, not on where they
    stand: absent entries are skipped (not counted as 0) and the order of
    the entries does not matter. *)
Theorem averageGrowth_order_free (returns1 returns2 : list (option Q)) :
  Permutation (present returns1) (present returns2) ->
  (forall v, In (Some v) returns1 -> Py.round2 v = v /\ Qabs v <= 10000) ->
  (List.length (present returns1) <= 3)%nat ->
  averageGrowth returns1 = averageGrowth returns2.
Proof.
  intros H _ _.
  destruct (present returns1) as [| x xs] eqn:E1.
  - apply Permutation_nil in H.
    rewrite (proj2 (averageGrowth_absent_iff returns1) E1).
    now rewrite (proj2 (averageGrowth_absent_iff returns2) H).
  - assert (Hne2 : present returns2 <> []).
    { intros E2. rewrite E2 in H. apply Permutation_sym, Permutation_nil in H.
      discriminate. }
    rewrite averageGrowth_evaluates by (rewrite E1; discriminate).
    rewrite averageGrowth_evaluates by assumption.
    do 2 f_equal. apply round2_compat.
    rewrite E1. now apply spec_mean_permutation.
Qed.

Lemma averageGrowth_order_free_witness :
  Permutation (present [Some 10; None; Some 20])
              (present [Some 20; Some 10; None; None]) /\
  (forall v, In (Some v) [Some 10; None; Some 20] ->
             Py.round2 v = v /\ Qabs v <= 10000) /\
  (List.length (present [Some 10%Q; None; Some 20%Q]) <= 3)%nat /\
  averageGrowth [Some 10; None; Some 20] = averageGrowth [Some 20; Some 10; None; None].
Proof.
  assert (Hp : Permutation (present [Some 10; None; Some 20])
                           (present [Some 20; Some 10; None; None]))
    by (cbn [present]; apply perm_swap).
  assert (Hv : forall v, In (Some v) [Some 10; None; Some 20] ->
                         Py.round2 v = v /\ Qabs v <= 10000).
  { intros v [E | [E | [E | []]]]; try discriminate;
      injection E as <-; split; reflexivity || discriminate. }
  assert (Hl : (List.length (present [Some 10%Q; None; Some 20%Q]) <= 3)%nat)
    by (cbn; lia).
  split; [exact Hp | split; [exact Hv | split; [exact Hl |]]].
  apply averageGrowth_order_free; assumption.
Defined.

(** A non-empty list has a least and a greatest element. *)
Lemma least_element (xs : list Q) :
  xs <> [] -> exists lo, In lo xs /\ forall v, In v xs -> lo <= v.
Proof.
  induction xs as [| x xs IH]; [congruence |]. intros _.
  destruct xs as [| y ys].
  - exists x. split; [now left |]. intros v [<- | []]. apply Qle_refl.
  - destruct (IH ltac:(discriminate)) as (lo & Hin & Hlo).
    destruct (Qlt_le_dec x lo) as [Hx | Hx].
    + exists x. split; [now left |].
      intros v [<- | Hv]; [apply Qle_refl |].
      specialize (Hlo v Hv). lra.
    + exists lo. split; [now right |].
      intros v [<- | Hv]; [assumption | now apply Hlo].
Qed.

Lemma greatest_element (xs : list Q) :
  xs <> [] -> exists hi, In hi xs /\ forall v, In v xs -> v <= hi.
Proof.
  induction xs as [| x xs IH]; [congruence |]. intros _.
  destruct xs as [| y ys].
  - exists x. split; [now left |]. intros v [<- | []]. apply Qle_refl.
  - destruct (IH ltac:(discriminate)) as (hi & Hin & Hhi).
    destruct (Qlt_le_dec hi x) as [Hx | Hx].
    + exists x. split; [now left |].
      intros v [<- | Hv]; [apply Qle_refl |].
      specialize (Hhi v Hv). lra.
    + exists hi. split; [now right |].
      intros v [<- | Hv]; [assumption | now apply Hhi].
Qed.

Lemma sum_bounds (xs : list Q) (lo hi : Q) :
  (forall v, In v xs -> lo <= v <= hi) ->
  lo * inject_Z (Z.of_nat (List.length xs)) <= fold_right Qplus 0 xs /\
  fold_right Qplus 0 xs <= hi * inject_Z (Z.of_nat (List.length xs)).
Proof.
  induction xs as [| x xs IH]; intros H.
  - cbn [fold_right List.length].
    change (inject_Z (Z.of_nat 0)) with 0. split; lra.
  - destruct (H x (or_introl eq_refl)) as [Hlo Hhi].
    destruct IH as [IHlo IHhi]; [intros v Hv; apply H; now right |].
    cbn [fold_right List.length]. rewrite Nat2Z.inj_succ. unfold Z.succ.
    rewrite inject_Z_succ. split; lra.
Qed.

Lemma spec_mean_bounds (xs : list Q) (lo hi : Q) :
  xs <> [] -> (forall v, In v xs -> lo <= v <= hi) ->
  lo <= spec_mean xs <= hi.
Proof.
  intros Hne H. destruct (sum_bounds xs lo hi H) as [Hlo Hhi].
  assert (Hn : 0 < inject_Z (Z.of_nat (List.length xs))).
  { change 0 with (inject_Z 0). rewrite <- Zlt_Qlt.
    destruct xs; [congruence | cbn [List.length]; lia]. }
  unfold spec_mean. split.
  - apply Qle_shift_div_l; assumption.
  - apply Qle_shift_div_r; assumption.
Qed.

Lemma average_between_present (returns : list (option Q)) (avg : Q) :
  (forall v, In (Some v) returns -> Py.round2 v = v) ->
  averageGrowth returns = Returns (Some avg) ->
  exists lo hi : Q,
    In (Some lo) returns /\ In (Some hi) returns /\ lo <= avg /\ avg <= hi.
Proof.
  intros Hfix Havg.
  assert (Hne : present returns <> []).
  { intros E. apply averageGrowth_absent_iff in E. congruence. }
  rewrite averageGrowth_evaluates in Havg by assumption.
  injection Havg as <-.
  destruct (least_element _ Hne) as (lo & Hlo_in & Hlo).
  destruct (greatest_element _ Hne) as (hi & Hhi_in & Hhi).
  exists lo, hi.
  pose proof (spec_mean_bounds (present returns) lo hi Hne
                (fun v Hv => conj (Hlo v Hv) (Hhi v Hv))) as [Hm1 Hm2].
  apply present_In in Hlo_in. apply present_In in Hhi_in.
  repeat split; try assumption.
  - rewrite <- (Hfix lo Hlo_in). now apply round2_monotone.
  - rewrite <- (Hfix hi Hhi_in). now apply round2_monotone.
Qed.



(** What the estimate block returned, fetch by fetch. *)
Lemma average_cagr_inv (nsei icicibank goldbees : DataFrame) (result : option Q) :
  average_cagr nsei icicibank goldbees = Returns result ->
  exists equity debt gold : option Q,
    fetch_cagr nsei 5 = Returns equity /\
    fetch_cagr icicibank 5 = Returns debt /\
    fetch_cagr goldbees 5 = Returns gold /\
    averageGrowth [equity; debt; gold] = Returns result.
Proof.
  unfold average_cagr, return_estimates. intros H.
  destruct (fetch_cagr nsei 5) as [equity |]; [| discriminate].
  destruct (fetch_cagr icicibank 5) as [debt |]; [| discriminate].
  destruct (fetch_cagr goldbees 5) as [gold |]; [| discriminate].
  exists equity, debt, gold. repeat split. exact H.
Qed.

(** X17. The estimate block reports no average exactly when none of the
    three downloads delivered an "Adj Close" series (each frame is empty
    or lacks the column); one series is enough for an average. *)
Theorem average_cagr_absent_iff (nsei icicibank goldbees : DataFrame) :
  average_cagr nsei icicibank goldbees = Returns None <->
  no_series nsei /\ no_series icicibank /\ no_series goldbees.
Proof.
  unfold no_series.
  rewrite <- (fetch_cagr_absent_iff nsei 5), <- (fetch_cagr_absent_iff icicibank 5),
    <- (fetch_cagr_absent_iff goldbees 5).
  split.
  - intros H. apply average_cagr_inv in H as (e & d & g & He & Hd & Hg & Havg).
    apply averageGrowth_absent_iff, present_nil_iff in Havg.
    inversion Havg as [| ? ? E1 H1]; subst.
    inversion H1 as [| ? ? E2 H2]; subst.
    inversion H2 as [| ? ? E3 H3]; subst.
    repeat split; assumption.
  - intros (He & Hd & Hg). unfold average_cagr, return_estimates.
    rewrite He, Hd, Hg. reflexivity.
Qed.

Lemma average_cagr_absent_iff_witness :
  average_cagr (frame_of []) (mkFrame [1%Z] [("Close"%string, [100])]) (frame_of [])
  = Returns None.
Proof.
  apply average_cagr_absent_iff. unfold no_series.
  repeat split; (left; reflexivity) || (right; reflexivity).
Defined.

(** X18. When the three downloads are well formed and those that deliver
    a series have positive first and last prices within a factor of 1000
    of each other, an average that the estimate block reports lies between
    two of the estimates that were fetched. *)
Theorem average_cagr_between (nsei icicibank goldbees : DataFrame) (avg : Q) :
  (forall data, In data [nsei; icicibank; goldbees] -> well_formed data) ->
  (forall data series,
      In data [nsei; icicibank; goldbees] -> empty data = false ->
      column "Adj Close" (columns data) = Returns series ->
      0 < hd 0 series /\ 0 < last series 0 /\
      last series 0 <= 1000 * hd 0 series /\
      hd 0 series <= 1000 * last series 0) ->
  average_cagr nsei icicibank goldbees = Returns (Some avg) ->
  exists (d1 d2 : DataFrame) (lo hi : Q),
    In d1 [nsei; icicibank; goldbees] /\ In d2 [nsei; icicibank; goldbees] /\
    fetch_cagr d1 5 = Returns (Some lo) /\ fetch_cagr d2 5 = Returns (Some hi) /\
    lo <= avg /\ avg <= hi.
Proof.
  intros _ _ H. apply average_cagr_inv in H as (e & d & g & He & Hd & Hg & Havg).
  assert (Hsrc : forall v, In (Some v) [e; d; g] ->
                 exists data, In data [nsei; icicibank; goldbees] /\
                              fetch_cagr data 5 = Returns (Some v)).
  { intros v [E | [E | [E | []]]]; subst.
    - exists nsei. split; [now left | assumption].
    - exists icicibank. split; [right; now left | assumption].
    - exists goldbees. split; [right; right; now left | assumption]. }
  assert (Hfix : forall v, In (Some v) [e; d; g] -> Py.round2 v = v).
  { intros v Hv. destruct (Hsrc v Hv) as (data & _ & Hf).
    now apply (fetch_cagr_output_rounded data 5). }
  destruct (average_between_present _ avg Hfix Havg)
    as (lo & hi & Hlo & Hhi & H1 & H2).
  destruct (Hsrc lo Hlo) as (d1 & Hd1 & Hf1).
  destruct (Hsrc hi Hhi) as (d2 & Hd2 & Hf2).
  exists d1, d2, lo, hi. repeat split; assumption.
Qed.

Lemma average_cagr_between_witness :
  (forall data,
      In data [frame_of [(1%Z, 100); (2%Z, 200)]; frame_of []; frame_of []] ->
      well_formed data) /\
  (forall data series,
      In data [frame_of [(1%Z, 100); (2%Z, 200)]; frame_of []; frame_of []] ->
      empty data = false ->
      column "Adj Close" (columns data) = Returns series ->
      0 < hd 0 series /\ 0 < last series 0 /\
      last series 0 <= 1000 * hd 0 series /\
      hd 0 series <= 1000 * last series 0) /\
  exists (d1 d2 : DataFrame) (lo hi : Q),
    fetch_cagr d1 5 = Returns (Some lo) /\ fetch_cagr d2 5 = Returns (Some hi) /\
    lo <= 1487 # 100 /\ 1487 # 100 <= hi.
Proof.
  assert (Hwf : forall data,
             In data [frame_of [(1%Z, 100); (2%Z, 200)]; frame_of []; frame_of []] ->
             well_formed data).
  { intros data [E | [E | [E | []]]]; subst; apply frame_of_well_formed. }
  assert (Hpos : forall data series,
             In data [frame_of [(1%Z, 100); (2%Z, 200)]; frame_of []; frame_of []] ->
             empty data = false ->
             column "Adj Close" (columns data) = Returns series ->
             0 < hd 0 series /\ 0 < last series 0 /\
             last series 0 <= 1000 * hd 0 series /\
             hd 0 series <= 1000 * last series 0).
  { intros data series [E | [E | [E | []]]] Hemp Hcol; subst;
      try discriminate.
    injection Hcol as <-.
    split; [reflexivity | split; [reflexivity | split; discriminate]]. }
  split; [exact Hwf | split; [exact Hpos |]].
  destruct (average_cagr_between
              (frame_of [(1%Z, 100); (2%Z, 200)]) (frame_of []) (frame_of [])
              (1487 # 100) Hwf Hpos)
    as (d1 & d2 & lo & hi & _ & _ & H1 & H2 & Hlo & Hhi).
  - unfold average_cagr, return_estimates.
    change (fetch_cagr (frame_of [(1%Z, 100); (2%Z, 200)]) 5)
      with (cagr [(1%Z, 100); (2%Z, 200)] 5).
    rewrite doubling_in_five_years. reflexivity.
  - exists d1, d2, lo, hi. repeat split; assumption.
Defined.

End AverageProperties.

(* ===================================================================== *)
(** * Replies, the session and the question block *)
(* ===================================================================== *)

Section Replies.

Local Open Scope string_scope.

(** [lookup] fails in one way only. *)
Lemma lookup_raises (key : string) (members : list (string * json)) (e : exn) :
  lookup key members = Raises e -> e = KeyError.
Proof.
  induction members as [| [k v] rest IH]; cbn [lookup].
  - intros H. now injection H.
  - destruct (k =? key); [discriminate | exact IH].
Qed.

Lemma member_object (key : string) (value v : json) :
  member key value = Some v <->
  exists members, value = JObject members /\ lookup key members = Returns v.
Proof.
  unfold member. split.
  - destruct value; cbn [subscript_key]; try discriminate.
    destruct (lookup key members) eqn:E; [| discriminate].
    intros H. injection H as <-. now exists members.
  - intros (members & -> & H). cbn [subscript_key]. now rewrite H.
Qed.

Lemma item_first {A : Type} (xs : list A) (x : A) :
  item xs 0 = Returns x <-> exists rest, xs = x :: rest.
Proof.
  split.
  - destruct xs as [| y rest]; [discriminate |].
    unfold item. cbn [List.length].
    replace (0 <? 0)%Z with false by reflexivity.
    replace ((0 <? 0)%Z || (Z.of_nat (S (List.length rest)) <=? 0)%Z) with false.
    + cbn. intros H. injection H as <-. now exists rest.
    + symmetry. apply orb_false_intro; [reflexivity | apply Z.leb_gt; lia].
  - intros (rest & ->). unfold item. cbn [List.length].
    replace (0 <? 0)%Z with false by reflexivity.
    replace ((0 <? 0)%Z || (Z.of_nat (S (List.length rest)) <=? 0)%Z) with false.
    + reflexivity.
    + symmetry. apply orb_false_intro; [reflexivity | apply Z.leb_gt; lia].
Qed.

Lemma item_empty {A : Type} (i : Z) : item (@nil A) i = Raises IndexError.
Proof.
  unfold item. cbn [List.length Z.of_nat].
  destruct (i <? 0)%Z eqn:E.
  - rewrite Z.add_0_l, E. reflexivity.
  - replace (0 <=? i)%Z with true; [now rewrite E |].
    symmetry. apply Z.leb_le. apply Z.ltb_ge in E. exact E.
Qed.

(** X19. The reply is unpacked exactly when the response is an object
    whose "choices" is a non-empty list, whose first choice is an object
    with an object "message" that has a "content"; what is returned is that
    content. *)
Theorem reply_content_iff (response v : json) :
  reply_content response = Returns v <->
  exists (first : json) (rest : list json) (message : json),
    member "choices" response = Some (JArray (first :: rest)) /\
    member "message" first = Some message /\
    member "content" message = Some v.
Proof.
  split.
  - unfold reply_content. intros H.
    destruct response; cbn [subscript_key bind] in H; try discriminate.
    destruct (lookup "choices" members) as [choices |] eqn:Ec; [| discriminate].
    cbn [bind] in H.
    destruct choices; cbn [subscript_index bind] in H; try discriminate.
    + destruct (item (characters s) 0); discriminate.
    + destruct (item items 0) as [first |] eqn:Ei; [| discriminate].
      cbn [bind] in H. apply item_first in Ei as (rest & ->).
      destruct first; cbn [subscript_key bind] in H; try discriminate.
      destruct (lookup "message" members0) as [message |] eqn:Em; [| discriminate].
      cbn [bind] in H.
      destruct message; cbn [subscript_key] in H; try discriminate.
      exists (JObject members0), rest, (JObject members1).
      repeat split; apply member_object; eexists; split; try reflexivity;
        assumption.
  - intros (first & rest & message & Hc & Hm & Hv).
    apply member_object in Hc as (members & -> & Hc).
    apply member_object in Hm as (members0 & -> & Hm).
    apply member_object in Hv as (members1 & -> & Hv).
    unfold reply_content. cbn [subscript_key]. rewrite Hc. cbn [bind subscript_index].
    rewrite (proj2 (item_first (JObject members0 :: rest) (JObject members0)))
      by now exists rest.
    cbn [bind subscript_key]. rewrite Hm. cbn [bind subscript_key]. exact Hv.
Qed.

(** X20. How unpacking fails: a response that is not an object raises
    [TypeError]; an object without "choices", such as an error body,
    raises [KeyError]; an empty list of choices raises [IndexError]. *)
Theorem reply_content_failures (response : json) :
  ((forall members, response <> JObject members) ->
   reply_content response = Raises TypeError) /\
  (forall members,
      response = JObject members -> member "choices" response = None ->
      reply_content response = Raises KeyError) /\
  (member "choices" response = Some (JArray []) ->
   reply_content response = Raises IndexError).
Proof.
  split; [| split].
  - intros H. destruct response; try reflexivity.
    exfalso. now apply (H members).
  - intros members -> H. unfold member in H. unfold reply_content.
    cbn [subscript_key] in *.
    destruct (lookup "choices" members) as [|e] eqn:E; [discriminate |].
    apply lookup_raises in E as ->. reflexivity.
  - intros H. apply member_object in H as (members & -> & H).
    unfold reply_content. cbn [subscript_key]. rewrite H.
    cbn [bind subscript_index]. now rewrite item_empty.
Qed.

Lemma reply_content_failures_witness :
  reply_content (JArray []) = Raises TypeError /\
  reply_content
    (JObject [("error", JObject [("message", JString "No auth credentials found")])])
  = Raises KeyError /\
  reply_content (JObject [("choices", JArray [])]) = Raises IndexError.
Proof.
  split; [| split].
  - apply (reply_content_failures (JArray [])). discriminate.
  - eapply (reply_content_failures (JObject _)); reflexivity.
  - apply (reply_content_failures (JObject [("choices", JArray [])])).
    reflexivity.
Defined.

Lemma reply_content_iff_witness :
  reply_content
    (JObject [("id", JString "gen-1");
              ("choices",
               JArray [JObject [("index", JNumber 0);
                                ("message",
                                 JObject [("role", JString "assistant");
                                          ("content", JString "Hold on.")])]])])
  = Returns (JString "Hold on.").
Proof.
  apply reply_content_iff. do 3 eexists. repeat split; reflexivity.
Defined.

Section Explain.

Variable chat : json -> json.
Variable model_name : string.




End Explain.


(** Writing to the session and reading it back. *)
Lemma lookup_set_same (key : string) (value : json) (state : session) :
  lookup key (session_set key value state) = Returns value.
Proof.
  induction state as [| [k v] rest IH]; cbn [session_set lookup].
  - now rewrite String.eqb_refl.
  - destruct (k =? key) eqn:E; cbn [lookup]; rewrite E; [reflexivity | exact IH].
Qed.

Lemma lookup_set_other (key other : string) (value : json) (state : session) :
  other <> key ->
  lookup other (session_set key value state) = lookup other state.
Proof.
  intros Hne. induction state as [| [k v] rest IH]; cbn [session_set lookup].
  - destruct (String.eqb_spec key other); [congruence | reflexivity].
  - destruct (String.eqb_spec k key) as [-> | Hk]; cbn [lookup].
    + destruct (String.eqb_spec key other); [congruence | reflexivity].
    + now rewrite IH.
Qed.

Lemma contains_lookup (key : string) (state : session) :
  session_contains key state = true <-> exists v, lookup key state = Returns v.
Proof.
  unfold session_contains.
  induction state as [| [k v] rest IH]; cbn [existsb lookup fst].
  - split; [discriminate | intros [v H]; discriminate].
  - destruct (k =? key); cbn [orb]; [| exact IH].
    split; [intros _; now exists v | reflexivity].
Qed.

Lemma contains_set (key : string) (value : json) (state : session) :
  session_contains key (session_set key value state) = true.
Proof. apply contains_lookup. exists value. apply lookup_set_same. Qed.

(** X22. Pressing Login lets the script continue whatever was typed,
    the empty string included: the address is stored as typed and is not
    checked.  Whether Login is pressed or not, every other entry of the
    session stays as it was, and after Restart the script stops again
    until Login is pressed. *)
Theorem login_gate (state : session) (email : string) :
  script_continues (login_section state email true) = true /\
  (user <- lookup "user" (login_section state email true) ;;
   subscript_key user "email") = Returns (JString email) /\
  (forall (other : string) (clicked : bool),
      other <> "user" ->
      lookup other (login_section state email clicked) = lookup other state) /\
  script_continues (login_section (restart state) email false) = false.
Proof.
  unfold script_continues, login_section. repeat split.
  - apply contains_set.
  - now rewrite lookup_set_same.
  - intros other [|] Hne; [now apply lookup_set_other | reflexivity].
Qed.

Lemma login_gate_witness :
  script_continues (login_section [] "" true) = true /\
  lookup "gpt_response"
    (login_section [("gpt_response", JString "Hold on.")] "a@b.c" true)
  = Returns (JString "Hold on.").
Proof.
  split.
  - apply (login_gate [] "").
  - destruct (login_gate [("gpt_response", JString "Hold on.")] "a@b.c")
      as (_ & _ & H & _).
    rewrite (H "gpt_response" true); [reflexivity | discriminate].
Defined.

(** Cutting into characters never yields an empty one. *)
Lemma characters_nonempty (s c : string) : In c (characters s) -> c <> "".
Proof.
  revert c. induction s as [| b rest IH]; intros c; cbn [characters].
  - intros [].
  - destruct (characters rest) as [| c0 cs].
    + intros [<- | []]. discriminate.
    + destruct (starts_with_continuation c0).
      * intros [<- | H]; [discriminate | apply IH; now right].
      * intros [<- | H]; [discriminate | now apply IH].
Qed.

Lemma drop_spaces_nil (cs : list string) :
  drop_spaces cs = [] <-> Forall (fun c => isspace c = true) cs.
Proof.
  induction cs as [| c rest IH]; cbn [drop_spaces].
  - split; auto.
  - destruct (isspace c) eqn:E.
    + rewrite IH. split; intros H; [now constructor | now inversion H].
    + split; [discriminate |]. intros H. inversion H. congruence.
Qed.

Lemma drop_spaces_head (cs : list string) (c : string) (rest : list string) :
  drop_spaces cs = c :: rest -> isspace c = false.
Proof.
  induction cs as [| c0 cs IH]; cbn [drop_spaces]; [discriminate |].
  destruct (isspace c0) eqn:E; [exact IH |].
  intros H. injection H as <- _. exact E.
Qed.

Lemma drop_spaces_incl (cs : list string) (c : string) :
  In c (drop_spaces cs) -> In c cs.
Proof.
  induction cs as [| c0 cs IH]; cbn [drop_spaces]; [auto |].
  destruct (isspace c0); [intros H; right; now apply IH | auto].
Qed.

Lemma concat_nonempty (cs : list string) :
  (forall c, In c cs -> c <> "") -> String.concat "" cs = "" -> cs = [].
Proof.
  destruct cs as [| c rest]; [reflexivity |]. intros Hne H. exfalso.
  apply (Hne c (or_introl eq_refl)).
  destruct rest; cbn [String.concat] in H; [exact H |].
  destruct c; [reflexivity | discriminate].
Qed.

(** [strip] leaves nothing exactly when every character is white space. *)
Lemma strip_blank_iff (s : string) :
  strip s = "" <-> Forall (fun c => isspace c = true) (characters s).
Proof.
  unfold strip. split.
  - intros H. apply concat_nonempty in H.
    + apply (f_equal (@rev string)) in H. rewrite rev_involutive in H.
      cbn [rev] in H. apply drop_spaces_nil in H.
      destruct (drop_spaces (characters s)) as [| c rest] eqn:E.
      * now apply drop_spaces_nil.
      * exfalso. apply drop_spaces_head in E.
        apply Forall_rev in H. rewrite rev_involutive in H.
        inversion H. congruence.
    + intros c Hc. apply in_rev, drop_spaces_incl in Hc.
      apply in_rev, drop_spaces_incl in Hc.
      now apply (characters_nonempty s).
  - intros H. apply drop_spaces_nil in H. rewrite H. reflexivity.
Qed.

Section Question.

Variable chat : json -> json.
Variable model_name : string.
Variable repr_dict : Allocation -> string.

(** X23. When Ask GPT is not pressed, or the question holds white space
    only, the question block makes no request and never raises, whatever
    the service would answer: an answer already in the session stays and
    is shown if it is not empty; otherwise the entry is created as the
    empty string and nothing is shown. *)
Theorem ask_gpt_without_request
    (state : session) (allocation : Allocation) (age : Z)
    (goal user_question : string) (ask_clicked : bool) :
  ask_clicked = false \/
  Forall (fun c => isspace c = true) (characters user_question) ->
  (forall answer : json,
      lookup "gpt_response" state = Returns answer ->
      ask_gpt chat model_name repr_dict state allocation age goal
        user_question ask_clicked
      = Returns (state, if truthy answer then Some answer else None)) /\
  (session_contains "gpt_response" state = false ->
   ask_gpt chat model_name repr_dict state allocation age goal
     user_question ask_clicked
   = Returns (session_set "gpt_response" (JString "") state, None)).
Proof.
  intros Hquiet.
  assert (Hcond : ask_clicked && negb (strip user_question =? "") = false).
  { destruct Hquiet as [-> | Hblank]; [reflexivity |].
    apply strip_blank_iff in Hblank. rewrite Hblank.
    apply andb_false_r. }
  unfold ask_gpt. rewrite Hcond. split.
  - intros answer Hanswer.
    assert (Hc : session_contains "gpt_response" state = true)
      by (apply contains_lookup; now exists answer).
    rewrite Hc. cbn [bind]. rewrite Hanswer. reflexivity.
  - intros Hc. rewrite Hc. cbn [bind].
    rewrite lookup_set_same. reflexivity.
Qed.


End Question.

Lemma ask_gpt_without_request_witness :
  Forall (fun c => isspace c = true) (characters "   ") /\
  ask_gpt (fun _ => JNull) "any-model" (fun _ => "{}")
    [("user", JObject [("email", JString "a@b.c")])]
    (get_portfolio_allocation "High") 30 "retirement" "   " true
  = Returns ([("user", JObject [("email", JString "a@b.c")]);
              ("gpt_response", JString "")], None).
Proof.
  assert (H : Forall (fun c => isspace c = true) (characters "   "))
    by (repeat constructor).
  split; [exact H |].
  apply (ask_gpt_without_request (fun _ => JNull) "any-model" (fun _ => "{}")
           [("user", JObject [("email", JString "a@b.c")])]
           (get_portfolio_allocation "High") 30 "retirement" "   " true).
  - right. exact H.
  - reflexivity.
Defined.


End Replies.

(* ===================================================================== *)
(** * Round trips and shapes *)
(* ===================================================================== *)

Section RoundTrips.

Local Open Scope Q_scope.

(** Strictly within half a unit of an integer, [round] is that integer. *)
Lemma round_unique (x : Q) (k : Z) :
  inject_Z k - (1 # 2) < x -> x < inject_Z k + (1 # 2) -> Py.round x = k.
Proof.
  intros Hlo Hhi.
  pose proof (round_bounds x) as [Rlo Rhi].
  assert (H1 : (Py.round x < k + 1)%Z).
  { rewrite Zlt_Qlt, inject_Z_succ. lra. }
  assert (H2 : (k < Py.round x + 1)%Z).
  { rewrite Zlt_Qlt, inject_Z_succ. lra. }
  lia.
Qed.

Lemma geometric_sum_at_least_12 (r : Q) (years : Z) :
  0 <= r -> (1 <= years)%Z ->
  12 <= geometric_sum r (Z.to_nat (months_of years)).
Proof.
  intros Hr Hy.
  apply Qle_trans with (inject_Z (Z.of_nat (Z.to_nat (months_of years)))).
  - rewrite <- (months_as_nat years Hy). unfold months_of.
    change 12 with (inject_Z 12). rewrite <- Zle_Qle. lia.
  - now apply geometric_sum_at_least.
Qed.

(** X26. Between two series that start at the same positive price, the
    one that ends higher never gets the lower estimate. *)
Theorem cagr_monotone_in_last_price
    (d1 d2 : Z) (p : Q) (rest1 rest2 : list (Z * Q)) (years : Q) :
  0 < p -> 0 < last (map snd rest1) p ->
  last (map snd rest1) p <= last (map snd rest2) p -> 0 < years ->
  exists pct1 pct2 : Q,
    cagr ((d1, p) :: rest1) years = Returns (Some pct1) /\
    cagr ((d2, p) :: rest2) years = Returns (Some pct2) /\
    pct1 <= pct2.
Proof.
  intros Hp He1 Hle Hy.
  set (e1 := last (map snd rest1) p) in *.
  set (e2 := last (map snd rest2) p) in *.
  assert (He2 : 0 < e2) by lra.
  do 2 eexists. split; [| split].
  - rewrite cagr_past_guard. fold e1. now apply growth_of_evaluates.
  - rewrite cagr_past_guard. fold e2. now apply growth_of_evaluates.
  - apply real_round2_monotone. unfold spec_growth_percent.
    pose proof (Q2R_pos p Hp) as Rp.
    pose proof (Q2R_pos e1 He1) as Re1.
    pose proof (Q2R_pos years Hy) as Ry.
    pose proof (Q2R_le _ _ Hle) as Rle.
    assert (Hexp : (0 < 1 / Q2R years)%R) by (apply Rdiv_lt_0_compat; lra).
    assert (Hinv : (0 < / Q2R p)%R) by now apply Rinv_0_lt_compat.
    assert (H : (Rpower (Q2R e1 / Q2R p) (1 / Q2R years)
                 <= Rpower (Q2R e2 / Q2R p) (1 / Q2R years))%R).
    { apply Rle_Rpower_l; [lra |]. split.
      - apply Rdiv_lt_0_compat; lra.
      - unfold Rdiv. apply Rmult_le_compat_r; lra. }
    lra.
Qed.

Lemma cagr_monotone_in_last_price_witness :
  0 < 100 /\ 0 < 150 /\ 150 <= 200 /\ 0 < 5 /\
  exists pct1 pct2 : Q,
    cagr [(1%Z, 100); (2%Z, 150)] 5 = Returns (Some pct1) /\
    cagr [(1%Z, 100); (2%Z, 120); (3%Z, 200)] 5 = Returns (Some pct2) /\
    pct1 <= pct2.
Proof.
  split; [reflexivity | split; [reflexivity | split; [discriminate |
    split; [reflexivity |]]]].
  apply (cagr_monotone_in_last_price 1 1 100 [(2%Z, 150)]
           [(2%Z, 120); (3%Z, 200)] 5);
    reflexivity || discriminate.
Defined.

(** X27. Whatever the risk label, the allocation has the three keys
    "Equity", "Debt", "Gold" in this order, as many values as keys, every
    percentage above 0, Gold at 10 and Equity and Debt sharing the other
    90. *)
Theorem allocation_shape (risk : string) :
  keys (get_portfolio_allocation risk) = ["Equity"; "Debt"; "Gold"]%string /\
  List.length (values (get_portfolio_allocation risk)) =
  List.length (keys (get_portfolio_allocation risk)) /\
  Forall (fun percent => (0 < percent)%Z) (values (get_portfolio_allocation risk)) /\
  getitem "Gold" (get_portfolio_allocation risk) = Returns 10%Z /\
  exists equity debt : Z,
    getitem "Equity" (get_portfolio_allocation risk) = Returns equity /\
    getitem "Debt" (get_portfolio_allocation risk) = Returns debt /\
    (equity + debt = 90)%Z.
Proof.
  destruct (allocation_cases risk) as [[_ E] | [[_ E] | (_ & _ & E)]];
    rewrite E; repeat split; try reflexivity;
    try (repeat constructor; fail);
    do 2 eexists; repeat split; reflexivity.
Qed.

End RoundTrips.

(* ===================================================================== *)
(** * Relative error *)
(* ===================================================================== *)

Section RelativeError.

Local Open Scope Q_scope.

Lemma eps_pos : 0 < eps.
Proof. reflexivity. Qed.

Lemma tiny_pos : 0 < tiny.
Proof. reflexivity. Qed.

Lemma tiny_small : 2 * tiny <= 1 # 1000000.
Proof. unfold tiny. vm_compute. discriminate. Qed.

Lemma huge_large : 2 * inject_Z (10 ^ 200) <= huge.
Proof. unfold huge. vm_compute. discriminate. Qed.

Lemma approx_refl (a : Q) : approx 0 a a.
Proof. exists 0. repeat split; try apply Qle_refl. ring. Qed.

Lemma approx_weaken (e e' a b : Q) : e <= e' -> approx e a b -> approx e' a b.
Proof.
  intros He (d & Hlo & Hhi & E). exists d.
  split; [lra | split; [lra | exact E]].
Qed.

Lemma approx_eq (e a a' b b' : Q) :
  a == a' -> b == b' -> approx e a b -> approx e a' b'.
Proof.
  intros Ha Hb (d & Hlo & Hhi & E). exists d.
  split; [assumption | split; [assumption |]].
  rewrite <- Ha, <- Hb. exact E.
Qed.

Lemma approx_nonneg (e a b : Q) : approx e a b -> 0 <= e.
Proof. intros (d & Hlo & Hhi & _). lra. Qed.

(** Errors compose. *)
Lemma approx_trans (e1 e2 a b c : Q) :
  approx e1 a b -> approx e2 b c -> approx (e1 + e2 + e1 * e2) a c.
Proof.
  intros (d1 & L1 & U1 & E1) (d2 & L2 & U2 & E2).
  exists (d1 + d2 + d1 * d2).
  split; [nra | split; [nra |]].
  rewrite E1, E2. ring.
Qed.

Lemma approx_mul (e1 e2 a a' b b' : Q) :
  approx e1 a a' -> approx e2 b b' -> approx (e1 + e2 + e1 * e2) (a * b) (a' * b').
Proof.
  intros (d1 & L1 & U1 & E1) (d2 & L2 & U2 & E2).
  exists (d1 + d2 + d1 * d2).
  split; [nra | split; [nra |]].
  rewrite E1, E2. ring.
Qed.

Lemma approx_div (e1 e2 a a' b b' : Q) :
  e2 <= 1 # 2 -> ~ b' == 0 ->
  approx e1 a a' -> approx e2 b b' ->
  approx (2 * (e1 + e2)) (a / b) (a' / b').
Proof.
  intros He Hb (d1 & L1 & U1 & E1) (d2 & L2 & U2 & E2).
  assert (Hd : 0 < 1 + d2) by lra.
  exists ((d1 - d2) / (1 + d2)). split; [| split].
  - apply Qle_shift_div_l; [assumption | nra].
  - apply Qle_shift_div_r; [assumption | nra].
  - rewrite E1, E2. field. split; [lra | assumption].
Qed.

(** What a relative error means for the difference. *)
Lemma approx_abs (e a b : Q) : approx e a b -> Qabs (a - b) <= e * Qabs b.
Proof.
  intros (d & Hlo & Hhi & E).
  assert (Ed : a - b == b * d) by (rewrite E; ring).
  rewrite Ed, Qabs_Qmult, Qmult_comm.
  apply Qmult_le_compat_r; [| apply Qabs_nonneg].
  apply Qabs_Qle_condition. split; assumption.
Qed.

Lemma approx_zero (e a b : Q) : approx e a b -> b == 0 -> a == 0.
Proof. intros (d & _ & _ & E) Hb. rewrite E, Hb. ring. Qed.

(** A positive quantity is stood for by a positive one nearby. *)
Lemma approx_bounds (e a b : Q) :
  approx e a b -> 0 <= b -> b * (1 - e) <= a /\ a <= b * (1 + e).
Proof.
  intros (d & Hlo & Hhi & E) Hb. rewrite E. split; nra.
Qed.

Lemma approx_pos (e a b : Q) : approx e a b -> e < 1 -> 0 < b -> 0 < a.
Proof.
  intros (d & Hlo & Hhi & E) He Hb. rewrite E.
  apply Qmult_lt_0_compat; lra.
Qed.

Lemma approx_abs_bounds (e a b : Q) :
  approx e a b -> e <= 1 # 2 ->
  (1 # 2) * Qabs b <= Qabs a /\ Qabs a <= 2 * Qabs b.
Proof.
  intros (d & Hlo & Hhi & E) He.
  rewrite E, Qabs_Qmult.
  assert (Hd : Qabs (1 + d) == 1 + d) by (apply Qabs_pos; lra).
  rewrite Hd. pose proof (Qabs_nonneg b). split; nra.
Qed.

(** One plus a small positive quantity. *)
Lemma approx_succ (e r r' : Q) :
  0 <= r' -> approx e r r' -> approx e (1 + r) (1 + r').
Proof.
  intros Hr (d & Hlo & Hhi & E).
  assert (H1 : 0 < 1 + r') by lra.
  exists (d * r' / (1 + r')). split; [| split].
  - apply Qle_shift_div_l; [assumption | nra].
  - apply Qle_shift_div_r; [assumption | nra].
  - rewrite E. field. lra.
Qed.

(** A growth factor less one: the error grows by P / (P - 1). *)
Lemma approx_pred (e k p p' : Q) :
  1 < p' -> p' <= k * (p' - 1) -> approx e p p' -> approx (e * k) (p - 1) (p' - 1).
Proof.
  intros Hp Hk (d & Hlo & Hhi & E).
  assert (H1 : 0 < p' - 1) by lra.
  exists (d * p' / (p' - 1)). split; [| split].
  - apply Qle_shift_div_l; [assumption | nra].
  - apply Qle_shift_div_r; [assumption | nra].
  - rewrite E. field. lra.
Qed.

End RelativeError.

(* ===================================================================== *)
(** * The monthly investment plan in rounded arithmetic *)
(* ===================================================================== *)

Section Rounded.

Local Open Scope Q_scope.

Variable rnd : Q -> Q.
Variable fpow : Q -> Z -> outcome Q.
Hypothesis Hrnd : rounds_to_nearest rnd.
Hypothesis Hpow : accurate_pow fpow.

Lemma rnd_monotone (x y : Q) : x <= y -> rnd x <= rnd y.
Proof. destruct Hrnd as (_ & H). apply H. Qed.

Lemma rnd_compat (x y : Q) : x == y -> rnd x == rnd y.
Proof.
  intros E. apply Qle_antisym; apply rnd_monotone; rewrite E; apply Qle_refl.
Qed.

(** A quantity that is 0 or of ordinary size, and what stands for it. *)
Lemma in_range_near (e a b : Q) :
  approx e a b -> e <= 1 # 2 ->
  ordinary b ->
  in_range a.
Proof.
  intros Ha He [Hb | [Hlo Hhi]].
  - left. now apply (approx_zero e a b).
  - right. destruct (approx_abs_bounds e a b Ha He) as [H1 H2].
    pose proof tiny_small. pose proof huge_large. split; lra.
Qed.

Lemma in_range_exact (b : Q) :
  ordinary b ->
  in_range b.
Proof.
  apply (in_range_near 0 b b); [apply approx_refl | discriminate].
Qed.

(** Rounding a result in range. *)
Lemma approx_rnd (x : Q) : in_range x -> approx eps (rnd x) x.
Proof.
  intros Hx. destruct Hrnd as (Hacc & _).
  specialize (Hacc x Hx).
  destruct (Qeq_dec x 0) as [E | Hne].
  - exists 0. split; [discriminate | split; [discriminate |]].
    assert (Hax : Qabs x == 0) by (rewrite (Qabs_wd x 0 E); reflexivity).
    apply Qabs_Qle_condition in Hacc as [H1 H2]. unfold eps in *. lra.
  - apply Qabs_Qle_condition in Hacc as [Hlo Hhi].
    exists ((rnd x - x) / x). split; [| split].
    + destruct (Qlt_le_dec 0 x) as [Hp | Hn].
      * rewrite (Qabs_pos x) in Hlo by lra.
        apply Qle_shift_div_l; [assumption | lra].
      * assert (Hx' : x < 0) by (destruct (Qle_lt_or_eq _ _ Hn); [assumption | contradiction]).
        rewrite (Qabs_neg x) in Hhi by lra.
        assert (E : (rnd x - x) / x == (x - rnd x) / (- x)) by (field; assumption).
        rewrite E. apply Qle_shift_div_l; lra.
    + destruct (Qlt_le_dec 0 x) as [Hp | Hn].
      * rewrite (Qabs_pos x) in Hhi by lra.
        apply Qle_shift_div_r; [assumption | lra].
      * assert (Hx' : x < 0) by (destruct (Qle_lt_or_eq _ _ Hn); [assumption | contradiction]).
        rewrite (Qabs_neg x) in Hlo by lra.
        assert (E : (rnd x - x) / x == (x - rnd x) / (- x)) by (field; assumption).
        rewrite E. apply Qle_shift_div_r; lra.
    + field. assumption.
Qed.

(** Rounding what stands for an ordinary quantity. *)
Lemma approx_rnd_near (e a b : Q) :
  approx e a b -> e <= 1 # 2 ->
  ordinary b ->
  approx (eps + e + eps * e) (rnd a) b.
Proof.
  intros Ha He Hb.
  apply (approx_trans eps e (rnd a) a b); [| assumption].
  apply approx_rnd. now apply (in_range_near e a b).
Qed.

(** Powers of a number close to 1. *)
Lemma power_near_one_step (d e N q q' : Q) :
  - e <= d -> d <= e -> 0 <= N -> 2 * (N + 1) * e <= 1 ->
  1 - N * e <= q -> q <= 1 + 2 * N * e -> q' == (1 + d) * q ->
  1 - (N + 1) * e <= q' /\ q' <= 1 + 2 * (N + 1) * e.
Proof.
  intros Hlo Hhi HN Hn Hq1 Hq2 E.
  assert (He : 0 <= e) by lra.
  split; nra.
Qed.

Lemma power_near_one (d e : Q) (n : nat) :
  - e <= d -> d <= e -> 2 * inject_Z (Z.of_nat n) * e <= 1 ->
  1 - inject_Z (Z.of_nat n) * e <= (1 + d) ^ Z.of_nat n /\
  (1 + d) ^ Z.of_nat n <= 1 + 2 * inject_Z (Z.of_nat n) * e.
Proof.
  intros Hlo Hhi. induction n as [| n IH]; intros Hn.
  - cbn [Z.of_nat Qpower]. change (inject_Z 0) with 0. split; lra.
  - assert (EN : inject_Z (Z.of_nat (S n)) == inject_Z (Z.of_nat n) + 1).
    { rewrite Nat2Z.inj_succ. unfold Z.succ. rewrite inject_Z_plus. reflexivity. }
    assert (He : 0 <= e) by lra.
    assert (HN : 0 <= inject_Z (Z.of_nat n)).
    { change 0 with (inject_Z 0). rewrite <- Zle_Qle. lia. }
    rewrite EN in Hn |- *.
    assert (Hn0 : 2 * inject_Z (Z.of_nat n) * e <= 1) by nra.
    destruct (IH Hn0) as [IHlo IHhi].
    apply (power_near_one_step d e _ ((1 + d) ^ Z.of_nat n));
      try assumption.
    apply Qpower_succ.
Qed.

Lemma approx_power (e a b : Q) (n : nat) :
  approx e a b -> 2 * inject_Z (Z.of_nat n) * e <= 1 ->
  approx (2 * inject_Z (Z.of_nat n) * e) (a ^ Z.of_nat n) (b ^ Z.of_nat n).
Proof.
  intros (d & Hlo & Hhi & E) Hn.
  destruct (power_near_one d e n Hlo Hhi Hn) as [Plo Phi].
  assert (HN : 0 <= inject_Z (Z.of_nat n)).
  { change 0 with (inject_Z 0). rewrite <- Zle_Qle. lia. }
  exists ((1 + d) ^ Z.of_nat n - 1). split; [nra | split; [lra |]].
  rewrite E, Qmult_power. ring.
Qed.

Lemma approx_of_abs (e a b : Q) :
  0 < b -> Qabs (a - b) <= e * b -> approx e a b.
Proof.
  intros Hb H. apply Qabs_Qle_condition in H as [Hlo Hhi].
  exists ((a - b) / b). split; [| split].
  - apply Qle_shift_div_l; [assumption | lra].
  - apply Qle_shift_div_r; [assumption | lra].
  - field. lra.
Qed.

Lemma approx_scale_div (e a b c : Q) :
  ~ c == 0 -> approx e a b -> approx e (a / c) (b / c).
Proof.
  intros Hc (d & Hlo & Hhi & E). exists d.
  split; [assumption | split; [assumption |]].
  rewrite E. field. assumption.
Qed.

Lemma ordinary_pos (b : Q) :
  (1 # 1000000) <= b -> b <= inject_Z (10 ^ 200) -> ordinary b.
Proof.
  intros Hlo Hhi. right. rewrite Qabs_pos by lra. split; assumption.
Qed.

Lemma input_cap : inject_Z (2 ^ 53) <= 10000000000000000.
Proof. vm_compute. discriminate. Qed.

Lemma ordinary_cap : 1000000000000000000000000 <= inject_Z (10 ^ 200).
Proof. vm_compute. discriminate. Qed.

Lemma growth_cap : (81 # 80) ^ 480 <= 400.
Proof. vm_compute. discriminate. Qed.

(** An amount of the number input, times a factor of ordinary size. *)
Lemma amount_bounds (t : Z) :
  number_input t ->
  t = 0%Z \/ (1 <= Qabs (inject_Z t) /\ Qabs (inject_Z t) <= inject_Z (2 ^ 53)).
Proof.
  intros [Hlo Hhi]. destruct (Z.eq_dec t 0) as [E | Hne]; [now left | right].
  change (Qabs (inject_Z t)) with (inject_Z (Z.abs t)).
  change 1 with (inject_Z 1). rewrite <- !Zle_Qle. lia.
Qed.

Lemma ordinary_amount (t : Z) (c : Q) :
  number_input t -> (1 # 1000000) <= c -> c <= 100000 ->
  ordinary (inject_Z t * c).
Proof.
  intros Ht Hlo Hhi. destruct (amount_bounds t Ht) as [E | [H1 H2]].
  - left. rewrite E. ring.
  - right. rewrite Qabs_Qmult, (Qabs_pos c) by lra.
    pose proof input_cap. pose proof ordinary_cap.
    pose proof (Qabs_nonneg (inject_Z t)).
    split; nra.
Qed.

(** What the sliders allow. *)
Lemma slider_monthly_rate (rate : Q) :
  rate_slider rate ->
  (1 # 200) <= monthly_rate_of rate /\ monthly_rate_of rate <= (1 # 80).
Proof.
  intros [Hlo Hhi]. rewrite monthly_rate_scale. split; lra.
Qed.

Lemma slider_months (years : Z) :
  years_slider years -> (12 <= months_of years /\ months_of years <= 480)%Z.
Proof. unfold years_slider, months_of. lia. Qed.

Lemma slider_factor_low (rate : Q) (years : Z) :
  rate_slider rate -> years_slider years ->
  12 <= annuity_factor (monthly_rate_of rate) (months_of years).
Proof.
  intros Hr Hy. pose proof Hr as [Hr1 _]. pose proof Hy as [Hy1 _].
  rewrite annuity_factor_months by (assumption || lra).
  apply geometric_sum_at_least_12; [| assumption].
  destruct (slider_monthly_rate rate Hr). lra.
Qed.

Lemma slider_growth (rate : Q) (years : Z) :
  rate_slider rate -> years_slider years ->
  (53 # 50) <= (1 + monthly_rate_of rate) ^ months_of years /\
  (1 + monthly_rate_of rate) ^ months_of years <= 400.
Proof.
  intros Hr Hy.
  destruct (slider_monthly_rate rate Hr) as [R1 R2].
  destruct (slider_months years Hy) as [N1 N2].
  split.
  - pose proof (slider_factor_low rate years Hr Hy) as HA.
    unfold annuity_factor in HA.
    apply (Qmult_le_compat_r _ _ (monthly_rate_of rate)) in HA; [| lra].
    assert (E : ((1 + monthly_rate_of rate) ^ months_of years - 1) /
                monthly_rate_of rate * monthly_rate_of rate ==
                (1 + monthly_rate_of rate) ^ months_of years - 1)
      by (field; lra).
    rewrite E in HA. lra.
  - apply Qle_trans with ((81 # 80) ^ months_of years).
    + destruct Hy as [Hy1 _]. rewrite (months_as_nat years Hy1).
      apply Qpower_base_monotone; lra.
    + apply Qle_trans with ((81 # 80) ^ 480); [| exact growth_cap].
      apply Qpower_le_compat_l; [assumption | lra].
Qed.

Lemma slider_factor (rate : Q) (years : Z) :
  rate_slider rate -> years_slider years ->
  12 <= annuity_factor (monthly_rate_of rate) (months_of years) /\
  annuity_factor (monthly_rate_of rate) (months_of years) <= 80000.
Proof.
  intros Hr Hy. split; [now apply slider_factor_low |].
  destruct (slider_monthly_rate rate Hr) as [R1 R2].
  destruct (slider_growth rate years Hr Hy) as [P1 P2].
  unfold annuity_factor. apply Qle_shift_div_r; lra.
Qed.

(** Line 128 in rounded arithmetic. *)
Lemma monthly_rate64_approx (rate : Q) :
  rate_slider rate ->
  approx (4 * eps) (monthly_rate64 rnd rate) (monthly_rate_of rate).
Proof.
  intros Hr. destruct (slider_monthly_rate rate Hr) as [R1 R2].
  pose proof Hr as [Hr1 Hr2].
  assert (H1 : approx eps (rnd (rate / 100)) (rate / 100)).
  { apply approx_rnd, in_range_exact, ordinary_pos.
    - apply Qle_shift_div_l; lra.
    - apply Qle_shift_div_r; [lra |]. pose proof ordinary_cap. lra. }
  apply (approx_scale_div _ _ _ 12) in H1; [| discriminate].
  unfold monthly_rate64.
  apply (approx_weaken (eps + eps + eps * eps)); [unfold eps; lra |].
  apply approx_rnd_near; [exact H1 | unfold eps; lra |].
  change (rate / 100 / 12) with (monthly_rate_of rate).
  pose proof ordinary_cap. apply ordinary_pos; lra.
Qed.

(** The growth factor [(1 + monthly_rate) ** months] in rounded
    arithmetic. *)
Lemma growth64 (rate : Q) (years : Z) :
  rate_slider rate -> years_slider years ->
  exists p : Q,
    fpow (rnd (1 + monthly_rate64 rnd rate)) (months_of years) = Returns p /\
    approx (7000 * eps) p ((1 + monthly_rate_of rate) ^ months_of years).
Proof.
  intros Hr Hy.
  destruct (slider_monthly_rate rate Hr) as [R1 R2].
  destruct (slider_months years Hy) as [N1 N2].
  pose proof (monthly_rate64_approx rate Hr) as Hrate.
  set (r := monthly_rate_of rate) in *.
  set (r64 := monthly_rate64 rnd rate) in *.
  assert (Hs : approx (6 * eps) (rnd (1 + r64)) (1 + r)).
  { apply (approx_weaken (eps + 4 * eps + eps * (4 * eps))); [unfold eps; lra |].
    apply approx_rnd_near.
    - apply approx_succ; [lra | exact Hrate].
    - unfold eps; lra.
    - apply ordinary_pos; [lra |]. pose proof ordinary_cap. lra. }
  destruct (approx_bounds _ _ _ Hs) as [S1 S2]; [lra |].
  assert (B1 : 1 <= rnd (1 + r64)) by (unfold eps in S1; nra).
  assert (B2 : rnd (1 + r64) <= 2) by (unfold eps in S2; nra).
  destruct (proj2 Hpow (rnd (1 + r64)) (months_of years) B1 B2) as (p & Ep & Hp);
    [lia | lia |].
  exists p. split; [exact Ep |].
  assert (Hpos : 0 < rnd (1 + r64) ^ months_of years).
  { apply Qlt_le_trans with 1; [reflexivity |]. apply Qpower_1_le; [assumption | lia]. }
  apply approx_of_abs in Hp; [| assumption].
  destruct Hy as [Hy1 Hy2].
  assert (Hk : inject_Z (months_of years) <= 480).
  { change 480 with (inject_Z 480). rewrite <- Zle_Qle. assumption. }
  assert (Hk0 : 0 <= inject_Z (months_of years)).
  { change 0 with (inject_Z 0). rewrite <- Zle_Qle. lia. }
  pose proof (approx_power (6 * eps) _ _ (Z.to_nat (months_of years)) Hs) as Hn.
  rewrite <- (months_as_nat years Hy1) in Hn.
  set (N := inject_Z (months_of years)) in *.
  assert (Hn' : approx (6000 * eps) (rnd (1 + r64) ^ months_of years)
                       ((1 + r) ^ months_of years)).
  { apply (approx_weaken (2 * N * (6 * eps))); [unfold eps; nra |].
    apply Hn. unfold eps; nra. }
  apply (approx_weaken (eps + 6000 * eps + eps * (6000 * eps))); [unfold eps; lra |].
  apply (approx_trans _ _ _ _ _ Hp Hn').
Qed.

(** The denominator of line 134, [(1 + monthly_rate) ** months - 1]. *)
Lemma denominator64 (rate : Q) (years : Z) :
  rate_slider rate -> years_slider years ->
  exists p : Q,
    fpow (rnd (1 + monthly_rate64 rnd rate)) (months_of years) = Returns p /\
    approx (200000 * eps) (rnd (p - 1))
           ((1 + monthly_rate_of rate) ^ months_of years - 1).
Proof.
  intros Hr Hy.
  destruct (growth64 rate years Hr Hy) as (p & Ep & Hp).
  destruct (slider_growth rate years Hr Hy) as [P1 P2].
  exists p. split; [exact Ep |].
  apply (approx_pred _ 18) in Hp; [| lra | lra].
  apply (approx_weaken (eps + 7000 * eps * 18 + eps * (7000 * eps * 18)));
    [unfold eps; lra |].
  apply approx_rnd_near; [exact Hp | unfold eps; lra |].
  apply ordinary_pos; [lra |]. pose proof ordinary_cap. lra.
Qed.
Lemma monthly_rate64_pos (rate : Q) : rate_slider rate -> 0 < monthly_rate64 rnd rate.
Proof.
  intros Hr. destruct (slider_monthly_rate rate Hr) as [R1 R2].
  apply (approx_pos _ _ _ (monthly_rate64_approx rate Hr)); [unfold eps |]; lra.
Qed.

(** Lines 134-135 and 140-141 on the sliders' ranges: both return, on one
    positive denominator. *)
Lemma plan64_returns (rate : Q) (years : Z) :
  rate_slider rate -> years_slider years ->
  exists den : Q,
    0 < den /\
    approx (200000 * eps) den
           ((1 + monthly_rate_of rate) ^ months_of years - 1) /\
    (forall target : Z,
       solveMonthlyFromTarget64 rnd fpow target rate years =
       Returns (Py.round
                  (rnd (rnd (rnd (inject_Z target) * monthly_rate64 rnd rate) / den)))) /\
    (forall monthly : Z,
       solveFutureFromMonthly64 rnd fpow monthly rate years =
       Returns (Py.round
                  (rnd (rnd (inject_Z monthly) * rnd (den / monthly_rate64 rnd rate))))).
Proof.
  intros Hr Hy.
  destruct (denominator64 rate years Hr Hy) as (p & Ep & Hden).
  destruct (slider_growth rate years Hr Hy) as [P1 P2].
  pose proof (monthly_rate64_pos rate Hr) as Hr64.
  assert (Hpos : 0 < rnd (p - 1)).
  { apply (approx_pos _ _ _ Hden); [unfold eps |]; lra. }
  exists (rnd (p - 1)). split; [exact Hpos | split; [exact Hden | split]].
  - intros target. unfold solveMonthlyFromTarget64. cbv zeta.
    rewrite Ep, bind_returns. unfold Py64.div.
    destruct (Qeq_bool (rnd (p - 1)) 0) eqn:E; [| reflexivity].
    apply Qeq_bool_iff in E. lra.
  - intros monthly. unfold solveFutureFromMonthly64. cbv zeta.
    rewrite Ep, bind_returns. unfold Py64.div.
    destruct (Qeq_bool (monthly_rate64 rnd rate) 0) eqn:E; [| reflexivity].
    apply Qeq_bool_iff in E. lra.
Qed.

Lemma ordinary_eq (a b : Q) : a == b -> ordinary a -> ordinary b.
Proof. intros E H. unfold ordinary in *. rewrite <- E. exact H. Qed.

(** The goal-mode quotient stands for the closed form. *)
Lemma monthly64_approx (rate : Q) (years : Z) (den : Q) (target : Z) :
  rate_slider rate -> years_slider years -> number_input target ->
  approx (200000 * eps) den
         ((1 + monthly_rate_of rate) ^ months_of years - 1) ->
  approx (1 # 1000000000)
         (rnd (rnd (rnd (inject_Z target) * monthly_rate64 rnd rate) / den))
         (spec_monthly (inject_Z target) (monthly_rate_of rate) (months_of years)).
Proof.
  intros Hr Hy Ht Hden.
  destruct (slider_monthly_rate rate Hr) as [R1 R2].
  destruct (slider_growth rate years Hr Hy) as [P1 P2].
  pose proof (monthly_rate64_approx rate Hr) as Hrate.
  unfold spec_monthly.
  set (r := monthly_rate_of rate) in *.
  set (r64 := monthly_rate64 rnd rate) in *.
  set (D := (1 + r) ^ months_of years - 1) in *.
  assert (D1 : (3 # 50) <= D) by (unfold D; lra).
  assert (D2 : D <= 399) by (unfold D; lra).
  set (T := inject_Z target).
  assert (HT : approx eps (rnd T) T).
  { apply approx_rnd, in_range_exact.
    apply (ordinary_eq (T * 1)); [ring |].
    apply ordinary_amount; [assumption | discriminate | discriminate]. }
  assert (Hnum : approx (8 * eps) (rnd (rnd T * r64)) (T * r)).
  { apply (approx_weaken (eps + (eps + 4 * eps + eps * (4 * eps))
                          + eps * (eps + 4 * eps + eps * (4 * eps))));
      [unfold eps; lra |].
    apply approx_rnd_near.
    - apply approx_mul; assumption.
    - unfold eps; lra.
    - apply ordinary_amount; [assumption | lra | lra]. }
  assert (Hq : approx (2 * (8 * eps + 200000 * eps)) (rnd (rnd T * r64) / den)
                      (T * r / D)).
  { apply approx_div; [unfold eps; lra | intro E; lra | assumption | assumption]. }
  apply (approx_weaken (eps + 2 * (8 * eps + 200000 * eps)
                        + eps * (2 * (8 * eps + 200000 * eps))));
    [unfold eps; lra |].
  apply approx_rnd_near; [exact Hq | unfold eps; lra |].
  apply (ordinary_eq (T * (r / D))); [field; lra |].
  apply ordinary_amount; [assumption | |].
  - apply Qle_shift_div_l; lra.
  - apply Qle_shift_div_r; lra.
Qed.

(** The monthly-mode product stands for the closed form. *)
Lemma future64_approx (rate : Q) (years : Z) (den : Q) (monthly : Z) :
  rate_slider rate -> years_slider years -> number_input monthly ->
  approx (200000 * eps) den
         ((1 + monthly_rate_of rate) ^ months_of years - 1) ->
  approx (1 # 1000000000)
         (rnd (rnd (inject_Z monthly) * rnd (den / monthly_rate64 rnd rate)))
         (spec_future (inject_Z monthly) (monthly_rate_of rate) (months_of years)).
Proof.
  intros Hr Hy Ht Hden.
  destruct (slider_monthly_rate rate Hr) as [R1 R2].
  destruct (slider_growth rate years Hr Hy) as [P1 P2].
  destruct (slider_factor rate years Hr Hy) as [A1 A2].
  pose proof (monthly_rate64_approx rate Hr) as Hrate.
  unfold spec_future. unfold annuity_factor in A1, A2.
  set (r := monthly_rate_of rate) in *.
  set (r64 := monthly_rate64 rnd rate) in *.
  set (D := (1 + r) ^ months_of years - 1) in *.
  assert (D1 : (3 # 50) <= D) by (unfold D; lra).
  assert (D2 : D <= 399) by (unfold D; lra).
  set (M := inject_Z monthly).
  assert (HM : approx eps (rnd M) M).
  { apply approx_rnd, in_range_exact.
    apply (ordinary_eq (M * 1)); [ring |].
    apply ordinary_amount; [assumption | discriminate | discriminate]. }
  assert (Hf0 : approx (2 * (200000 * eps + 4 * eps)) (den / r64) (D / r)).
  { apply approx_div; [unfold eps; lra | intro E; lra | assumption | assumption]. }
  assert (Hf : approx (500000 * eps) (rnd (den / r64)) (D / r)).
  { apply (approx_weaken (eps + 2 * (200000 * eps + 4 * eps)
                          + eps * (2 * (200000 * eps + 4 * eps))));
      [unfold eps; lra |].
    apply approx_rnd_near; [exact Hf0 | unfold eps; lra |].
    pose proof ordinary_cap. apply ordinary_pos; lra. }
  refine (approx_eq _ _ _ (M * (D / r)) _ (Qeq_refl _) _ _); [field; lra |].
  apply (approx_weaken (eps + (eps + 500000 * eps + eps * (500000 * eps))
                        + eps * (eps + 500000 * eps + eps * (500000 * eps))));
    [unfold eps; lra |].
  apply approx_rnd_near.
  - apply approx_mul; assumption.
  - unfold eps; lra.
  - apply ordinary_amount; [assumption | lra | lra].
Qed.

Lemma rnd_zero (x : Q) : x == 0 -> rnd x == 0.
Proof.
  intros E. apply (approx_zero eps (rnd x) x); [| exact E].
  apply approx_rnd. left. exact E.
Qed.

Lemma rnd_nonneg (x : Q) : 0 <= x -> 0 <= rnd x.
Proof.
  intros Hx. rewrite <- (rnd_zero 0) by reflexivity. now apply rnd_monotone.
Qed.

(** Goal mode returns the rounding of a number that stands for
    target / A, with A the annuity factor. *)
Lemma monthly64_spec (target : Z) (rate : Q) (years : Z) :
  number_input target -> rate_slider rate -> years_slider years ->
  exists x64 : Q,
    solveMonthlyFromTarget64 rnd fpow target rate years = Returns (Py.round x64) /\
    approx (1 # 1000000000) x64
           (spec_monthly (inject_Z target) (monthly_rate_of rate) (months_of years)).
Proof.
  intros Ht Hr Hy.
  destruct (plan64_returns rate years Hr Hy) as (den & Hpos & Hden & Hm & _).
  eexists. split; [apply Hm |].
  now apply monthly64_approx.
Qed.

(** Monthly mode returns the rounding of a number that stands for
    monthly * A. *)
Lemma future64_spec (monthly : Z) (rate : Q) (years : Z) :
  number_input monthly -> rate_slider rate -> years_slider years ->
  exists y64 : Q,
    solveFutureFromMonthly64 rnd fpow monthly rate years = Returns (Py.round y64) /\
    approx (1 # 1000000000) y64
           (spec_future (inject_Z monthly) (monthly_rate_of rate) (months_of years)).
Proof.
  intros Ht Hr Hy.
  destruct (plan64_returns rate years Hr Hy) as (den & Hpos & Hden & _ & Hf).
  eexists. split; [apply Hf |].
  now apply future64_approx.
Qed.

(** Every operation of the two lines keeps the order of the amounts. *)
Lemma monthly64_monotone (t1 t2 : Z) (rate : Q) (years : Z) :
  rate_slider rate -> years_slider years -> (t1 <= t2)%Z ->
  exists m1 m2 : Z,
    solveMonthlyFromTarget64 rnd fpow t1 rate years = Returns m1 /\
    solveMonthlyFromTarget64 rnd fpow t2 rate years = Returns m2 /\
    (m1 <= m2)%Z.
Proof.
  intros Hr Hy Ht.
  destruct (plan64_returns rate years Hr Hy) as (den & Hpos & _ & Hm & _).
  pose proof (monthly_rate64_pos rate Hr) as Hr64.
  do 2 eexists. split; [apply Hm | split; [apply Hm |]].
  apply round_monotone, rnd_monotone.
  apply Qmult_le_compat_r; [| apply Qlt_le_weak, Qinv_lt_0_compat; exact Hpos].
  apply rnd_monotone.
  apply Qmult_le_compat_r; [| lra].
  apply rnd_monotone. rewrite <- Zle_Qle. exact Ht.
Qed.

Lemma future64_monotone (p1 p2 : Z) (rate : Q) (years : Z) :
  rate_slider rate -> years_slider years -> (p1 <= p2)%Z ->
  exists f1 f2 : Z,
    solveFutureFromMonthly64 rnd fpow p1 rate years = Returns f1 /\
    solveFutureFromMonthly64 rnd fpow p2 rate years = Returns f2 /\
    (f1 <= f2)%Z.
Proof.
  intros Hr Hy Ht.
  destruct (plan64_returns rate years Hr Hy) as (den & Hpos & _ & _ & Hf).
  pose proof (monthly_rate64_pos rate Hr) as Hr64.
  do 2 eexists. split; [apply Hf | split; [apply Hf |]].
  apply round_monotone, rnd_monotone.
  apply Qmult_le_compat_r.
  - apply rnd_monotone. rewrite <- Zle_Qle. exact Ht.
  - apply rnd_nonneg.
    apply Qmult_le_0_compat; [lra |].
    apply Qlt_le_weak, Qinv_lt_0_compat. exact Hr64.
Qed.


End Rounded.

(* ===================================================================== *)
(** * Exact arithmetic is one arithmetic that rounds to nearest *)
(* ===================================================================== *)

Section ExactArithmetic.

Local Open Scope Q_scope.

Lemma exact_rnd_rounds : rounds_to_nearest exact_rnd.
Proof.
  unfold rounds_to_nearest, exact_rnd. split.
  - intros x _.
    assert (E : Qabs (x - x) == 0) by (rewrite (Qabs_wd (x - x) 0); [reflexivity | ring]).
    rewrite E. pose proof (Qabs_nonneg x). unfold eps. lra.
  - intros x y H. exact H.
Qed.

Lemma exact_pow_accurate : accurate_pow exact_pow.
Proof.
  unfold accurate_pow, exact_pow. split.
  - intros x. unfold Py.pow. cbn [Z.ltb Z.compare].
    now rewrite Bool.andb_false_r.
  - intros x n H1 H2 H3 H4. exists (x ^ n). split.
    + apply pow_returns. intro E. lra.
    + assert (E : Qabs (x ^ n - x ^ n) == 0)
        by (rewrite (Qabs_wd (x ^ n - x ^ n) 0); [reflexivity | ring]).
      rewrite E.
      assert (0 <= x ^ n) by (apply Qpower_0_le; lra).
      unfold eps. lra.
Qed.

(** With nothing rounded the two computations are those of the exact
    model. *)
Lemma exact_monthly (target : Z) (rate : Q) (years : Z) :
  solveMonthlyFromTarget64 exact_rnd exact_pow target rate years =
  solveMonthlyFromTarget (inject_Z target) rate years.
Proof. reflexivity. Qed.

Lemma exact_future (monthly : Z) (rate : Q) (years : Z) :
  solveFutureFromMonthly64 exact_rnd exact_pow monthly rate years =
  solveFutureFromMonthly (inject_Z monthly) rate years.
Proof. reflexivity. Qed.

End ExactArithmetic.

(* ===================================================================== *)
(** * Rounding to 53 bits is one more such arithmetic *)
(* ===================================================================== *)

Section Binary64.

Local Open Scope Q_scope.

Lemma two_pow_pos (e : Z) : 0 < 2 ^ e.
Proof. apply Qpower_0_lt. reflexivity. Qed.

Lemma two_pow_plus (e1 e2 : Z) : 2 ^ (e1 + e2) == 2 ^ e1 * 2 ^ e2.
Proof. apply Qpower_plus. discriminate. Qed.

Lemma two_pow_succ (e : Z) : 2 ^ (e + 1) == 2 * 2 ^ e.
Proof. rewrite two_pow_plus. change (2 ^ 1) with 2. ring. Qed.

Lemma two_pow_le (e1 e2 : Z) : (e1 <= e2)%Z -> 2 ^ e1 <= 2 ^ e2.
Proof. intros H. apply Qpower_le_compat_l; [assumption | discriminate]. Qed.

Lemma two_pow_lt_inv (e1 e2 : Z) : 2 ^ e1 < 2 ^ e2 -> (e1 < e2)%Z.
Proof.
  intros H. destruct (Z_lt_le_dec e1 e2) as [Hlt | Hle]; [assumption |].
  apply two_pow_le in Hle. lra.
Qed.

Lemma Zlog2_bounds (n : Z) :
  (0 < n)%Z ->
  2 ^ Z.log2 n <= inject_Z n /\ inject_Z n < 2 * 2 ^ Z.log2 n.
Proof.
  intros Hn. destruct (Z.log2_spec n Hn) as [Hlo Hhi].
  pose proof (Z.log2_nonneg n) as H0.
  assert (E : forall k, (0 <= k)%Z -> inject_Z (2 ^ k) == 2 ^ k).
  { intros k Hk. apply (Zpower_Qpower 2 k Hk). }
  split.
  - rewrite <- E by assumption. rewrite <- Zle_Qle. assumption.
  - rewrite <- two_pow_succ. rewrite <- E by lia. rewrite <- Zlt_Qlt.
    assumption.
Qed.

Lemma ilog2_spec (x : Q) :
  0 < x -> 2 ^ ilog2 x <= x /\ x < 2 * 2 ^ ilog2 x.
Proof.
  intros Hx. destruct x as [n d].
  assert (Hn : (0 < n)%Z).
  { unfold Qlt in Hx. cbn in Hx. lia. }
  destruct (Zlog2_bounds n Hn) as [N1 N2].
  destruct (Zlog2_bounds (Zpos d) (Pos2Z.is_pos d)) as [D1 D2].
  unfold ilog2. cbn [Qnum Qden].
  set (ln := Z.log2 n) in *. set (ld := Z.log2 (Zpos d)) in *.
  pose proof (two_pow_pos ln) as PA. pose proof (two_pow_pos ld) as PB.
  assert (Ex : n # d == inject_Z n / inject_Z (Zpos d)) by apply Qmake_Qdiv.
  assert (HD : 0 < inject_Z (Zpos d)) by reflexivity.
  assert (E0 : 2 ^ (ln - ld) == 2 ^ ln / 2 ^ ld).
  { apply Qpower_minus. discriminate. }
  assert (Em : 2 ^ (ln - ld - 1) == 2 ^ ln / 2 ^ ld / 2).
  { rewrite Qpower_minus by discriminate. rewrite E0. reflexivity. }
  assert (Hup : n # d < 2 * (2 ^ ln / 2 ^ ld)).
  { rewrite Ex. apply Qlt_shift_div_r; [assumption |].
    assert (E : 2 * (2 ^ ln / 2 ^ ld) * inject_Z (Zpos d) ==
                2 * 2 ^ ln * (inject_Z (Zpos d) / 2 ^ ld)) by (field; lra).
    rewrite E.
    assert (H1 : 1 <= inject_Z (Zpos d) / 2 ^ ld) by (apply Qle_shift_div_l; lra).
    nra. }
  assert (Hlo : 2 ^ ln / 2 ^ ld / 2 <= n # d).
  { rewrite Ex. apply Qle_shift_div_l; [assumption |].
    assert (E : 2 ^ ln / 2 ^ ld / 2 * inject_Z (Zpos d) ==
                2 ^ ln * (inject_Z (Zpos d) / (2 * 2 ^ ld))) by (field; lra).
    rewrite E.
    assert (H1 : inject_Z (Zpos d) / (2 * 2 ^ ld) <= 1) by (apply Qle_shift_div_r; lra).
    nra. }
  destruct (Qle_bool (2 ^ (ln - ld)) (n # d)) eqn:B.
  - apply Qle_bool_iff in B. split; [exact B |]. rewrite E0. exact Hup.
  - assert (Hlt : n # d < 2 ^ (ln - ld)).
    { apply Qnot_le_lt. intros H. apply Qle_bool_iff in H. congruence. }
    rewrite Em. split; [exact Hlo |].
    rewrite E0 in Hlt.
    assert (E2 : 2 * (2 ^ ln / 2 ^ ld / 2) == 2 ^ ln / 2 ^ ld) by (field; lra).
    rewrite E2. exact Hlt.
Qed.


Lemma round_two_pow (k : Z) : (0 <= k)%Z -> inject_Z (Py.round (2 ^ k)) == 2 ^ k.
Proof.
  intros Hk.
  rewrite (round_compat (2 ^ k) (inject_Z (2 ^ k))).
  - rewrite round_inject_Z. apply (Zpower_Qpower 2 k Hk).
  - symmetry. apply (Zpower_Qpower 2 k Hk).
Qed.

(** The rounding of a positive number: in its binade, half a unit in the
    last place away at most. *)
Lemma rnd53_pos_spec (a : Q) :
  0 < a ->
  2 ^ ilog2 a <= rnd53_pos a /\ rnd53_pos a <= 2 * 2 ^ ilog2 a /\
  Qabs (rnd53_pos a - a) <= (1 # 2) * 2 ^ (ilog2 a - 52).
Proof.
  intros Ha. destruct (ilog2_spec a Ha) as [Hlo Hhi].
  unfold rnd53_pos. cbv zeta. rewrite Qred_correct.
  set (e := ilog2 a) in *.
  pose proof (two_pow_pos (e - 52)) as Hu.
  assert (Ee : 2 ^ e == 2 ^ 52 * 2 ^ (e - 52)).
  { rewrite <- two_pow_plus. replace (52 + (e - 52))%Z with e by lia. reflexivity. }
  set (ulp := 2 ^ (e - 52)) in *.
  assert (Et : a / ulp * ulp == a) by (field; lra).
  assert (T1 : 2 ^ 52 <= a / ulp) by (apply Qle_shift_div_l; lra).
  assert (T2 : a / ulp <= 2 ^ 53).
  { apply Qle_shift_div_r; [assumption |].
    change (2 ^ 53) with (2 * 2 ^ 52). lra. }
  pose proof (round_bounds (a / ulp)) as [R1 R2].
  pose proof (round_monotone _ _ T1) as K1.
  pose proof (round_monotone _ _ T2) as K2.
  rewrite Zle_Qle in K1, K2.
  rewrite (round_two_pow 52) in K1 by lia.
  rewrite (round_two_pow 53) in K2 by lia.
  change (2 ^ 53) with (2 * 2 ^ 52) in K2.
  set (k := inject_Z (Py.round (a / ulp))) in *.
  set (t := a / ulp) in *.
  set (c := 2 ^ 52) in *.
  split; [nra | split; [nra |]].
  apply Qabs_Qle_condition. split; nra.
Qed.

Lemma rnd53_pos_monotone (a b : Q) :
  0 < a -> a <= b -> rnd53_pos a <= rnd53_pos b.
Proof.
  intros Ha Hab.
  assert (Hb : 0 < b) by lra.
  destruct (ilog2_spec a Ha) as [A1 A2].
  destruct (ilog2_spec b Hb) as [B1 B2].
  assert (He : (ilog2 a < ilog2 b + 1)%Z).
  { apply two_pow_lt_inv. rewrite two_pow_succ. lra. }
  destruct (Z.eq_dec (ilog2 a) (ilog2 b)) as [E | Hne].
  - unfold rnd53_pos. cbv zeta. rewrite !Qred_correct, E.
    pose proof (two_pow_pos (ilog2 b - 52)) as Hu.
    apply Qmult_le_compat_r; [| lra].
    rewrite <- Zle_Qle. apply round_monotone.
    apply Qmult_le_compat_r; [assumption |].
    apply Qlt_le_weak, Qinv_lt_0_compat. exact Hu.
  - destruct (rnd53_pos_spec a Ha) as (_ & Ra & _).
    destruct (rnd53_pos_spec b Hb) as (Rb & _ & _).
    assert (Hle : 2 ^ (ilog2 a + 1) <= 2 ^ ilog2 b) by (apply two_pow_le; lia).
    rewrite two_pow_succ in Hle. lra.
Qed.

Lemma rnd53_pos_positive (a : Q) : 0 < a -> 0 < rnd53_pos a.
Proof.
  intros Ha. destruct (rnd53_pos_spec a Ha) as (H & _ & _).
  pose proof (two_pow_pos (ilog2 a)). lra.
Qed.

Lemma unit_roundoff : (1 # 2) * 2 ^ (- 52) <= eps.
Proof. vm_compute. discriminate. Qed.

Lemma rnd53_pos_error (a : Q) :
  0 < a -> Qabs (rnd53_pos a - a) <= eps * a.
Proof.
  intros Ha. destruct (ilog2_spec a Ha) as [Hlo _].
  destruct (rnd53_pos_spec a Ha) as (_ & _ & H).
  assert (E : 2 ^ (ilog2 a - 52) == 2 ^ ilog2 a * 2 ^ (- 52)).
  { rewrite <- two_pow_plus. reflexivity. }
  rewrite E in H. pose proof unit_roundoff as Hu.
  pose proof (two_pow_pos (ilog2 a)) as Hp.
  assert (Hc : 0 < 2 ^ (- 52)) by apply two_pow_pos.
  generalize dependent (2 ^ (- 52)). intros c H _ Hu Hc.
  eapply Qle_trans; [exact H |]. unfold eps in *. nra.
Qed.

Lemma rnd53_cases (x : Q) :
  (x == 0 /\ rnd53 x = 0) \/
  (0 < x /\ rnd53 x = rnd53_pos x) \/
  (x < 0 /\ rnd53 x = - rnd53_pos (- x)).
Proof.
  unfold rnd53. destruct (x ?= 0) eqn:C.
  - left. split; [now apply Qeq_alt | reflexivity].
  - right. right. split; [now apply Qlt_alt | reflexivity].
  - right. left. split; [now apply Qgt_alt | reflexivity].
Qed.

(** Rounding to 53 bits rounds to nearest. *)
Lemma rnd53_rounds : rounds_to_nearest rnd53.
Proof.
  split.
  - intros x _.
    destruct (rnd53_cases x) as [[Hx E] | [[Hx E] | [Hx E]]]; rewrite E.
    + assert (Hax : Qabs x == 0) by (rewrite (Qabs_wd x 0 Hx); reflexivity).
      assert (Hd : Qabs (0 - x) == 0)
        by (rewrite (Qabs_wd (0 - x) 0); [reflexivity | rewrite Hx; ring]).
      rewrite Hd, Hax. unfold eps. lra.
    + rewrite (Qabs_pos x) by lra. now apply rnd53_pos_error.
    + rewrite (Qabs_neg x) by lra.
      assert (Hn : 0 < - x) by lra.
      pose proof (rnd53_pos_error (- x) Hn) as H.
      apply Qabs_Qle_condition in H as [H1 H2].
      apply Qabs_Qle_condition. split; lra.
  - intros x y Hxy.
    destruct (rnd53_cases x) as [[Hx Ex] | [[Hx Ex] | [Hx Ex]]];
      destruct (rnd53_cases y) as [[Hy Ey] | [[Hy Ey] | [Hy Ey]]];
      rewrite Ex, Ey; try lra.
    + pose proof (rnd53_pos_positive y Hy). lra.
    + now apply rnd53_pos_monotone.
    + assert (Hn : 0 < - x) by lra.
      pose proof (rnd53_pos_positive (- x) Hn). lra.
    + assert (Hn : 0 < - x) by lra.
      pose proof (rnd53_pos_positive (- x) Hn).
      pose proof (rnd53_pos_positive y Hy). lra.
    + assert (Hn : 0 < - y) by lra.
      assert (Hle : - y <= - x) by lra.
      pose proof (rnd53_pos_monotone (- y) (- x) Hn Hle). lra.
Qed.

(** The correctly rounded power is accurate. *)
Lemma pow53_accurate : accurate_pow pow53.
Proof.
  split.
  - intros x. unfold pow53, Py.pow. cbn [Z.ltb Z.compare].
    rewrite Bool.andb_false_r, bind_returns. reflexivity.
  - intros x n H1 H2 H3 H4. unfold pow53.
    rewrite pow_returns by (intro E; lra). rewrite bind_returns.
    eexists. split; [reflexivity |].
    assert (Hp : 0 < x ^ n) by (apply Qpower_0_lt; lra).
    destruct (rnd53_cases (x ^ n)) as [[Hx E] | [[Hx E] | [Hx E]]]; try lra.
    rewrite E. now apply rnd53_pos_error.
Qed.

End Binary64.

(* ===================================================================== *)
(** * The monthly investment plan as the interpreter computes it *)
(* ===================================================================== *)

Section RoundedPlan.

Local Open Scope Q_scope.

Lemma Qabs_cases (t : Q) :
  (0 <= t /\ Qabs t == t) \/ (t <= 0 /\ Qabs t == - t).
Proof.
  destruct (Qlt_le_dec t 0) as [H | H].
  - right. split; [lra | apply Qabs_neg; lra].
  - left. split; [assumption | now apply Qabs_pos].
Qed.

(** Rounding a number that stands for [x]: half a unit, and the relative
    error, away from [x]. *)
Lemma near_round (e x64 x : Q) :
  approx e x64 x ->
  Qabs (inject_Z (Py.round x64) - x) <= (1 # 2) + e * Qabs x.
Proof.
  intros H. apply approx_abs in H.
  apply Qabs_Qle_condition in H as [H1 H2].
  pose proof (round_bounds x64) as [R1 R2].
  apply Qabs_Qle_condition. split; lra.
Qed.


Lemma scale_bound (m x A c : Q) :
  0 < A -> Qabs (m - x) <= c -> Qabs (m * A - x * A) <= c * A.
Proof.
  intros HA H. apply Qabs_Qle_condition in H as [H1 H2].
  apply Qabs_Qle_condition. split; nra.
Qed.

Lemma Qabs_scale (x A : Q) : 0 < A -> Qabs (x * A) == Qabs x * A.
Proof.
  intros HA. rewrite Qabs_Qmult, (Qabs_pos A) by lra. reflexivity.
Qed.

(** The closed forms over the annuity factor, on the sliders' ranges. *)
Lemma slider_closed_forms (amount rate : Q) (years : Z) :
  rate_slider rate -> years_slider years ->
  spec_monthly amount (monthly_rate_of rate) (months_of years) *
    annuity_factor (monthly_rate_of rate) (months_of years) == amount /\
  spec_future amount (monthly_rate_of rate) (months_of years) ==
    amount * annuity_factor (monthly_rate_of rate) (months_of years).
Proof.
  intros Hr Hy.
  destruct (slider_monthly_rate rate Hr) as [R1 R2].
  destruct (slider_months years Hy) as [N1 N2].
  split.
  - apply spec_monthly_factor; [lra | lia].
  - apply spec_future_factor. lra.
Qed.

(** The contribution computed is no larger in magnitude than the target,
    so it is an amount the number input could deliver as well. *)
Lemma monthly_is_input (target m : Z) (x A : Q) :
  number_input target -> 12 <= A -> x * A == inject_Z target ->
  Qabs (inject_Z m - x) <= (1 # 2) + (1 # 1000000000) * Qabs x ->
  number_input m.
Proof.
  intros [T1 T2] HA Hx Hm.
  assert (HxT : Qabs x * A == Qabs (inject_Z target))
    by (rewrite <- Hx; symmetry; apply Qabs_scale; lra).
  change (Qabs (inject_Z target)) with (inject_Z (Z.abs target)) in HxT.
  assert (Hle : inject_Z (Z.abs m) < inject_Z (Z.abs target + 1)).
  { change (inject_Z (Z.abs m)) with (Qabs (inject_Z m)).
    rewrite inject_Z_plus. change (inject_Z 1) with 1.
    assert (HT0 : 0 <= inject_Z (Z.abs target)).
    { change 0 with (inject_Z 0). rewrite <- Zle_Qle. lia. }
    pose proof (Qabs_nonneg x) as Hx0.
    apply Qabs_Qle_condition in Hm as [M1 M2].
    destruct (Qabs_cases x) as [[S1 S2] | [S1 S2]];
      destruct (Qabs_cases (inject_Z m)) as [[U1 U2] | [U1 U2]];
      rewrite U2; rewrite S2 in *; nra. }
  rewrite <- Zlt_Qlt in Hle. unfold number_input. lia.
Qed.

(** There and back from a target. *)
Lemma trip_bound (T A x m fv : Q) :
  12 <= A -> x * A == T ->
  Qabs (m - x) <= (1 # 2) + (1 # 1000000000) * Qabs x ->
  Qabs (fv - m * A) <= (1 # 2) + (1 # 1000000000) * Qabs (m * A) ->
  Qabs (fv - T) <= (1 # 2) * A + (1 # 2) + (Qabs T + A) * (1 # 100000000).
Proof.
  intros HA Hx Hm Hf.
  apply (scale_bound _ _ A) in Hm; [| lra].
  assert (HxT : Qabs x * A == Qabs T)
    by (rewrite <- Hx; symmetry; apply Qabs_scale; lra).
  rewrite Hx in Hm.
  assert (E : ((1 # 2) + (1 # 1000000000) * Qabs x) * A ==
              (1 # 2) * A + (1 # 1000000000) * Qabs T)
    by (rewrite <- HxT; ring).
  rewrite E in Hm. clear E HxT Hx.
  generalize dependent (m * A). intros u Hu Hf.
  apply Qabs_Qle_condition in Hu as [U1 U2].
  apply Qabs_Qle_condition in Hf as [F1 F2].
  apply Qabs_Qle_condition.
  destruct (Qabs_cases T) as [[S1 S2] | [S1 S2]];
    destruct (Qabs_cases u) as [[V1 V2] | [V1 V2]];
    rewrite S2 in *; rewrite V2 in *; split; lra.
Qed.

(** There and back from a contribution of at most 10^8. *)
Lemma contribution_bound (M A w fv x : Q) :
  12 <= A -> w * A == fv ->
  Qabs M <= 100000000 ->
  Qabs (fv - M * A) <= (1 # 2) + (1 # 1000000000) * Qabs (M * A) ->
  Qabs (x - w) <= (1 # 1000000000) * Qabs w ->
  M - (1 # 2) < x /\ x < M + (1 # 2).
Proof.
  intros HA Hw HM Hf Hx.
  rewrite (Qabs_scale M A) in Hf by lra.
  rewrite <- Hw in Hf.
  assert (Hd : Qabs (w - M) * A <= (1 # 2) + (1 # 1000000000) * (Qabs M * A)).
  { rewrite <- (Qabs_scale (w - M) A) by lra.
    assert (E : (w - M) * A == w * A - M * A) by ring.
    rewrite E. exact Hf. }
  pose proof (Qabs_nonneg (w - M)) as D0.
  pose proof (Qabs_nonneg M) as M0.
  assert (Hd' : Qabs (w - M) <= (1 # 24) + (1 # 1000000000) * Qabs M) by nra.
  apply Qabs_Qle_condition in Hx as [X1 X2].
  apply Qabs_Qle_condition in Hd' as [W1 W2].
  destruct (Qabs_cases M) as [[S1 S2] | [S1 S2]];
    destruct (Qabs_cases w) as [[V1 V2] | [V1 V2]];
    rewrite S2 in *; rewrite V2 in *; split; lra.
Qed.

(** The corpus of a contribution of at most 10^8 is an amount the number
    input could deliver. *)
Lemma future_is_input (M A : Q) (fv : Z) :
  A <= 80000 -> 0 < A -> Qabs M <= 100000000 ->
  Qabs (inject_Z fv - M * A) <= (1 # 2) + (1 # 1000000000) * Qabs (M * A) ->
  number_input fv.
Proof.
  intros HA HA0 HM Hf.
  rewrite (Qabs_scale M A) in Hf by lra.
  pose proof (Qabs_nonneg M) as M0.
  assert (Hle : inject_Z (Z.abs fv) < inject_Z 9000000000000).
  { change (inject_Z (Z.abs fv)) with (Qabs (inject_Z fv)).
    change (inject_Z 9000000000000) with 9000000000000.
    apply Qabs_Qle_condition in Hf as [F1 F2].
    assert (HMA : Qabs M * A <= 8000000000000) by nra.
    assert (HMA' : - (Qabs M * A) <= M * A /\ M * A <= Qabs M * A).
    { destruct (Qabs_cases M) as [[S1 S2] | [S1 S2]]; rewrite S2; split; nra. }
    destruct (Qabs_cases (inject_Z fv)) as [[U1 U2] | [U1 U2]]; rewrite U2; lra. }
  rewrite <- Zlt_Qlt in Hle. unfold number_input. lia.
Qed.

(** Interest adds at least the monthly rate to the number of months. *)
Lemma geometric_sum_above (r : Q) (k : nat) :
  0 <= r ->
  inject_Z (Z.of_nat (S (S k))) + r <= geometric_sum r (S (S k)).
Proof.
  intros Hr. induction k as [| k IH].
  - cbn [geometric_sum Z.of_nat Pos.of_succ_nat Pos.succ Qpower Qpower_positive pow_pos].
    change (inject_Z 2) with 2. lra.
  - cbn [geometric_sum] in *.
    assert (E : inject_Z (Z.of_nat (S (S (S k)))) == inject_Z (Z.of_nat (S (S k))) + 1).
    { rewrite (Nat2Z.inj_succ (S (S k))). unfold Z.succ.
      rewrite inject_Z_plus. reflexivity. }
    rewrite E.
    pose proof (geometric_sum_term r (S (S k)) Hr). lra.
Qed.

Lemma factor_above_months (rate : Q) (years : Z) :
  rate_slider rate -> years_slider years ->
  inject_Z (months_of years) * (1 + (1 # 1000000)) <=
  annuity_factor (monthly_rate_of rate) (months_of years).
Proof.
  intros Hr Hy.
  destruct (slider_monthly_rate rate Hr) as [R1 R2].
  destruct (slider_months years Hy) as [N1 N2].
  pose proof Hr as [Hr1 _]. pose proof Hy as [Hy1 _].
  rewrite annuity_factor_months by (assumption || lra).
  remember (Z.to_nat (months_of years)) as k eqn:Ek.
  assert (Hk : months_of years = Z.of_nat k) by (subst k; lia).
  rewrite Hk in *.
  destruct k as [| [| k]]; [lia | lia |].
  pose proof (geometric_sum_above (monthly_rate_of rate) k) as H.
  assert (Hn : inject_Z (Z.of_nat (S (S k))) <= 480).
  { change 480 with (inject_Z 480). rewrite <- Zle_Qle. assumption. }
  assert (Hn0 : 0 <= inject_Z (Z.of_nat (S (S k)))).
  { change 0 with (inject_Z 0). rewrite <- Zle_Qle. lia. }
  specialize (H ltac:(lra)). lra.
Qed.

(** A rate half a slider step higher raises the annuity factor. *)
Lemma geometric_sum_gap (r1 r2 c : Q) (n : nat) :
  0 <= r1 -> 0 <= c -> (1 + r1) * (1 + c) <= 1 + r2 ->
  geometric_sum r1 (S n) + c * (geometric_sum r1 (S n) - 1) <=
  geometric_sum r2 (S n).
Proof.
  intros Hr Hc H. induction n as [| n IH].
  - cbn [geometric_sum Z.of_nat Qpower]. lra.
  - cbn [geometric_sum] in *.
    assert (Hterm : (1 + r1) ^ Z.of_nat (S n) * (1 + c) <= (1 + r2) ^ Z.of_nat (S n)).
    { apply Qle_trans with (((1 + r1) * (1 + c)) ^ Z.of_nat (S n)).
      - rewrite Qmult_power.
        apply Qmult_le_l; [apply Qlt_le_trans with 1; [reflexivity |];
                           apply geometric_sum_term; assumption |].
        rewrite Qpower_succ.
        pose proof (geometric_sum_term c n Hc). nra.
      - apply Qpower_base_monotone; [nra | assumption]. }
    lra.
Qed.

Lemma factor_rate_gap (rate1 rate2 : Q) (years : Z) :
  rate_slider rate1 -> rate_slider rate2 -> rate1 + (1 # 200) <= rate2 ->
  years_slider years ->
  annuity_factor (monthly_rate_of rate1) (months_of years) * (1 + (1 # 1000000)) <=
  annuity_factor (monthly_rate_of rate2) (months_of years).
Proof.
  intros Hr1 Hr2 Hgap Hy.
  destruct (slider_monthly_rate rate1 Hr1) as [R1 R2].
  destruct (slider_factor rate1 years Hr1 Hy) as [A1 A2].
  pose proof Hr1 as [Hr1' _]. pose proof Hr2 as [Hr2' _]. pose proof Hy as [Hy1 _].
  destruct (slider_months years Hy) as [N1 N2].
  rewrite annuity_factor_months in A1, A2 |- * by (assumption || lra).
  rewrite (annuity_factor_months rate2) by (assumption || lra).
  assert (Hs : monthly_rate_of rate1 + (1 # 240000) <= monthly_rate_of rate2).
  { rewrite !monthly_rate_scale. lra. }
  remember (Z.to_nat (months_of years)) as k eqn:Ek.
  destruct k as [| k]; [lia |].
  pose proof (geometric_sum_gap (monthly_rate_of rate1) (monthly_rate_of rate2)
                (1 # 400000) k) as H.
  specialize (H ltac:(lra) ltac:(discriminate) ltac:(nra)).
  lra.
Qed.

(** A year more raises the annuity factor. *)
Lemma factor_years_gap (rate : Q) (years1 years2 : Z) :
  rate_slider rate -> years_slider years1 -> years_slider years2 ->
  (years1 < years2)%Z ->
  annuity_factor (monthly_rate_of rate) (months_of years1) * (1 + (1 # 1000000)) <=
  annuity_factor (monthly_rate_of rate) (months_of years2).
Proof.
  intros Hr Hy1 Hy2 Hlt.
  destruct (slider_monthly_rate rate Hr) as [R1 R2].
  destruct (slider_factor rate years1 Hr Hy1) as [A1 A2].
  pose proof Hr as [Hr' _]. pose proof Hy1 as [Hy1' _]. pose proof Hy2 as [Hy2' _].
  rewrite annuity_factor_months in A1, A2 |- * by (assumption || lra).
  rewrite (annuity_factor_months rate years2) by (assumption || lra).
  assert (Hr0 : 0 <= monthly_rate_of rate) by lra.
  pose proof (geometric_sum_length_monotone (monthly_rate_of rate)
                (S (Z.to_nat (months_of years1))) (Z.to_nat (months_of years2)) Hr0) as H.
  specialize (H ltac:(unfold months_of; lia)).
  cbn [geometric_sum] in H.
  pose proof (geometric_sum_term (monthly_rate_of rate) (Z.to_nat (months_of years1)) Hr0).
  lra.
Qed.

(** With a larger factor the corpus is larger and the contribution
    smaller, the rounding errors notwithstanding. *)
Lemma future_order (M A1 A2 y1 y2 : Q) :
  0 <= M -> 0 < A1 -> A1 * (1 + (1 # 1000000)) <= A2 ->
  approx (1 # 1000000000) y1 (M * A1) -> approx (1 # 1000000000) y2 (M * A2) ->
  y1 <= y2.
Proof.
  intros HM HA Hgap H1 H2.
  assert (Hu : M * A1 * (1 + (1 # 1000000)) <= M * A2) by nra.
  assert (Hu0 : 0 <= M * A1) by nra.
  generalize dependent (M * A1). intros u1 H1 Hu Hu0.
  generalize dependent (M * A2). intros u2 H2 Hu.
  destruct (approx_bounds _ _ _ H1 Hu0) as [_ B1].
  destruct (approx_bounds _ _ _ H2) as [B2 _]; lra.
Qed.

Lemma monthly_order (T A1 A2 x1 x2 : Q) :
  0 <= T -> 0 < A1 -> A1 * (1 + (1 # 1000000)) <= A2 ->
  approx (1 # 1000000000) x1 (T / A1) -> approx (1 # 1000000000) x2 (T / A2) ->
  x2 <= x1.
Proof.
  intros HT HA Hgap H1 H2.
  assert (HA2 : 0 < A2) by lra.
  assert (Hv2 : 0 <= T / A2) by (apply Qle_shift_div_l; lra).
  assert (Hv : T / A2 * (1 + (1 # 1000000)) <= T / A1).
  { apply Qle_shift_div_l; [assumption |].
    assert (E : T / A2 * (1 + (1 # 1000000)) * A1 ==
                T * (A1 * (1 + (1 # 1000000)) / A2)) by (field; lra).
    rewrite E.
    assert (Hq : A1 * (1 + (1 # 1000000)) / A2 <= 1) by (apply Qle_shift_div_r; lra).
    nra. }
  generalize dependent (T / A1). intros v1 H1 Hv.
  generalize dependent (T / A2). intros v2 H2 Hv2 Hv.
  destruct (approx_bounds _ _ _ H2 Hv2) as [_ B2].
  destruct (approx_bounds _ _ _ H1) as [B1 _]; lra.
Qed.





(** C4 (as amended). For a whole target typed into the number input and
    the rates and durations of the sliders, the two computations are
    inverse up to rounding: the contribution computed for a target T grows
    back to a future value within A/2 + 1/2 + (|T| + A)/10^8 of T, where
    A = ((1+r)^n - 1)/r is the annuity factor: half a unit of contribution
    carried through A, half a unit for the final rounding, and the
    rounding errors of the arithmetic. *)
Theorem round_trip_within_tolerance
    (rnd : Q -> Q) (fpow : Q -> Z -> outcome Q)
    (target : Z) (rate : Q) (years : Z) :
  rounds_to_nearest rnd -> accurate_pow fpow ->
  number_input target -> rate_slider rate -> years_slider years ->
  exists monthly future_value : Z,
    solveMonthlyFromTarget64 rnd fpow target rate years = Returns monthly /\
    solveFutureFromMonthly64 rnd fpow monthly rate years = Returns future_value /\
    roundTrip64 rnd fpow target rate years = Returns future_value /\
    Qabs (inject_Z future_value - inject_Z target) <=
      (1 # 2) * annuity_factor (rate / 100 / 12) (years * 12) + (1 # 2) +
      (Qabs (inject_Z target) + annuity_factor (rate / 100 / 12) (years * 12)) *
      (1 # 100000000).
Proof.
  intros Hrnd Hpow Ht Hr Hy.
  change (rate / 100 / 12) with (monthly_rate_of rate).
  change (years * 12)%Z with (months_of years).
  destruct (slider_factor rate years Hr Hy) as [A1 A2].
  destruct (slider_closed_forms (inject_Z target) rate years Hr Hy) as [Hx _].
  destruct (monthly64_spec rnd fpow Hrnd Hpow target rate years Ht Hr Hy)
    as (x64 & Em & Hxa).
  pose proof (near_round _ _ _ Hxa) as Hm.
  set (m := Py.round x64) in *.
  assert (Hin : number_input m)
    by (apply (monthly_is_input target m _ _ Ht A1 Hx Hm)).
  destruct (slider_closed_forms (inject_Z m) rate years Hr Hy) as [_ Hy'].
  destruct (future64_spec rnd fpow Hrnd Hpow m rate years Hin Hr Hy)
    as (y64 & Ef & Hya).
  pose proof (near_round _ _ _ Hya) as Hf.
  rewrite Hy' in Hf.
  exists m, (Py.round y64). split; [exact Em | split; [exact Ef | split]].
  - unfold roundTrip64. rewrite Em. exact Ef.
  - apply (trip_bound _ _ _ _ _ A1 Hx Hm Hf).
Qed.

Lemma round_trip_within_tolerance_witness :
  rounds_to_nearest rnd53 /\ accurate_pow pow53 /\
  number_input 4500000 /\ rate_slider 12 /\ years_slider 10 /\
  exists future_value : Z,
    roundTrip64 rnd53 pow53 4500000 12 10 = Returns future_value /\
    Qabs (inject_Z future_value - inject_Z 4500000) <=
      (1 # 2) * annuity_factor (12 / 100 / 12) (10 * 12) + (1 # 2) +
      (Qabs (inject_Z 4500000) + annuity_factor (12 / 100 / 12) (10 * 12)) *
      (1 # 100000000).
Proof.
  assert (Ht : number_input 4500000) by (split; reflexivity).
  assert (Hr : rate_slider 12) by (split; discriminate).
  assert (Hy : years_slider 10) by (split; discriminate).
  destruct (round_trip_within_tolerance rnd53 pow53 4500000 12 10
              rnd53_rounds pow53_accurate Ht Hr Hy)
    as (m & fv & _ & _ & Hrt & Hb).
  split; [apply rnd53_rounds | split; [apply pow53_accurate |]].
  split; [exact Ht | split; [exact Hr | split; [exact Hy |]]].
  exists fv. split; assumption.
Defined.

(** An amount of 0 gives 0 in both modes. *)
Lemma monthly64_zero (rnd : Q -> Q) (fpow : Q -> Z -> outcome Q)
    (rate : Q) (years : Z) :
  rounds_to_nearest rnd -> accurate_pow fpow ->
  rate_slider rate -> years_slider years ->
  solveMonthlyFromTarget64 rnd fpow 0 rate years = Returns 0%Z.
Proof.
  intros Hrnd Hpow Hr Hy.
  assert (H0 : number_input 0) by (split; reflexivity).
  destruct (monthly64_spec rnd fpow Hrnd Hpow 0 rate years H0 Hr Hy)
    as (x64 & E & Hx).
  rewrite E. f_equal. transitivity (Py.round 0); [| reflexivity].
  apply round_compat. apply (approx_zero _ _ _ Hx).
  unfold spec_monthly. change (inject_Z 0) with 0.
  unfold Qdiv. ring.
Qed.

Lemma future64_zero (rnd : Q -> Q) (fpow : Q -> Z -> outcome Q)
    (rate : Q) (years : Z) :
  rounds_to_nearest rnd -> accurate_pow fpow ->
  rate_slider rate -> years_slider years ->
  solveFutureFromMonthly64 rnd fpow 0 rate years = Returns 0%Z.
Proof.
  intros Hrnd Hpow Hr Hy.
  assert (H0 : number_input 0) by (split; reflexivity).
  destruct (future64_spec rnd fpow Hrnd Hpow 0 rate years H0 Hr Hy)
    as (y64 & E & Hx).
  rewrite E. f_equal. transitivity (Py.round 0); [| reflexivity].
  apply round_compat. apply (approx_zero _ _ _ Hx).
  unfold spec_future. change (inject_Z 0) with 0.
  unfold Qdiv. ring.
Qed.

(** X1. On the sliders' ranges a larger target never asks for a smaller
    contribution, and a target that is not negative never gives a negative
    one, in every arithmetic that rounds to nearest. *)
Theorem monthly_monotone_in_target
    (rnd : Q -> Q) (fpow : Q -> Z -> outcome Q)
    (t1 t2 : Z) (rate : Q) (years : Z) :
  rounds_to_nearest rnd -> accurate_pow fpow ->
  number_input t1 -> number_input t2 ->
  rate_slider rate -> years_slider years -> (t1 <= t2)%Z ->
  exists m1 m2 : Z,
    solveMonthlyFromTarget64 rnd fpow t1 rate years = Returns m1 /\
    solveMonthlyFromTarget64 rnd fpow t2 rate years = Returns m2 /\
    (m1 <= m2)%Z /\
    ((0 <= t1)%Z -> (0 <= m1)%Z).
Proof.
  intros Hrnd Hpow _ _ Hr Hy Ht.
  destruct (monthly64_monotone rnd fpow Hrnd Hpow t1 t2 rate years Hr Hy Ht)
    as (m1 & m2 & E1 & E2 & Hle).
  exists m1, m2. split; [exact E1 | split; [exact E2 | split; [exact Hle |]]].
  intros H0.
  destruct (monthly64_monotone rnd fpow Hrnd Hpow 0 t1 rate years Hr Hy H0)
    as (m0 & m1' & E0 & E1' & Hle0).
  rewrite (monthly64_zero rnd fpow rate years Hrnd Hpow Hr Hy) in E0.
  rewrite E1 in E1'. injection E0 as E0. injection E1' as E1'. lia.
Qed.

Lemma monthly_monotone_in_target_witness :
  rounds_to_nearest rnd53 /\ accurate_pow pow53 /\
  number_input 1000000 /\ number_input 4500000 /\
  rate_slider 12 /\ years_slider 10 /\ (1000000 <= 4500000)%Z /\
  exists m1 m2 : Z,
    solveMonthlyFromTarget64 rnd53 pow53 1000000 12 10 = Returns m1 /\
    solveMonthlyFromTarget64 rnd53 pow53 4500000 12 10 = Returns m2 /\
    (m1 <= m2)%Z.
Proof.
  assert (Ht1 : number_input 1000000) by (split; reflexivity).
  assert (Ht2 : number_input 4500000) by (split; reflexivity).
  assert (Hr : rate_slider 12) by (split; discriminate).
  assert (Hy : years_slider 10) by (split; discriminate).
  assert (Hle : (1000000 <= 4500000)%Z) by lia.
  destruct (monthly_monotone_in_target rnd53 pow53 1000000 4500000 12 10
              rnd53_rounds pow53_accurate Ht1 Ht2 Hr Hy Hle)
    as (m1 & m2 & H1 & H2 & H3 & _).
  split; [apply rnd53_rounds | split; [apply pow53_accurate |]].
  split; [exact Ht1 | split; [exact Ht2 | split; [exact Hr | split; [exact Hy |]]]].
  split; [exact Hle |].
  exists m1, m2. split; [exact H1 | split; [exact H2 | exact H3]].
Defined.

(** X2. On the sliders' ranges a larger monthly contribution never grows
    to a smaller corpus, and a contribution that is not negative never
    gives a negative one, in every arithmetic that rounds to nearest. *)
Theorem future_monotone_in_monthly
    (rnd : Q -> Q) (fpow : Q -> Z -> outcome Q)
    (p1 p2 : Z) (rate : Q) (years : Z) :
  rounds_to_nearest rnd -> accurate_pow fpow ->
  number_input p1 -> number_input p2 ->
  rate_slider rate -> years_slider years -> (p1 <= p2)%Z ->
  exists f1 f2 : Z,
    solveFutureFromMonthly64 rnd fpow p1 rate years = Returns f1 /\
    solveFutureFromMonthly64 rnd fpow p2 rate years = Returns f2 /\
    (f1 <= f2)%Z /\
    ((0 <= p1)%Z -> (0 <= f1)%Z).
Proof.
  intros Hrnd Hpow _ _ Hr Hy Ht.
  destruct (future64_monotone rnd fpow Hrnd Hpow p1 p2 rate years Hr Hy Ht)
    as (f1 & f2 & E1 & E2 & Hle).
  exists f1, f2. split; [exact E1 | split; [exact E2 | split; [exact Hle |]]].
  intros H0.
  destruct (future64_monotone rnd fpow Hrnd Hpow 0 p1 rate years Hr Hy H0)
    as (f0 & f1' & E0 & E1' & Hle0).
  rewrite (future64_zero rnd fpow rate years Hrnd Hpow Hr Hy) in E0.
  rewrite E1 in E1'. injection E0 as E0. injection E1' as E1'. lia.
Qed.

Lemma future_monotone_in_monthly_witness :
  rounds_to_nearest rnd53 /\ accurate_pow pow53 /\
  number_input 2000 /\ number_input 5000 /\
  rate_slider 12 /\ years_slider 10 /\ (2000 <= 5000)%Z /\
  exists f1 f2 : Z,
    solveFutureFromMonthly64 rnd53 pow53 2000 12 10 = Returns f1 /\
    solveFutureFromMonthly64 rnd53 pow53 5000 12 10 = Returns f2 /\
    (f1 <= f2)%Z.
Proof.
  assert (Ht1 : number_input 2000) by (split; reflexivity).
  assert (Ht2 : number_input 5000) by (split; reflexivity).
  assert (Hr : rate_slider 12) by (split; discriminate).
  assert (Hy : years_slider 10) by (split; discriminate).
  assert (Hle : (2000 <= 5000)%Z) by lia.
  destruct (future_monotone_in_monthly rnd53 pow53 2000 5000 12 10
              rnd53_rounds pow53_accurate Ht1 Ht2 Hr Hy Hle)
    as (f1 & f2 & H1 & H2 & H3 & _).
  split; [apply rnd53_rounds | split; [apply pow53_accurate |]].
  split; [exact Ht1 | split; [exact Ht2 | split; [exact Hr | split; [exact Hy |]]]].
  split; [exact Hle |].
  exists f1, f2. split; [exact H1 | split; [exact H2 | exact H3]].
Defined.

(** Both modes at once, over the annuity factor. *)
Lemma plan64_over_factor
    (rnd : Q -> Q) (fpow : Q -> Z -> outcome Q)
    (amount : Z) (rate : Q) (years : Z) :
  rounds_to_nearest rnd -> accurate_pow fpow ->
  number_input amount -> rate_slider rate -> years_slider years ->
  exists x64 y64 : Q,
    solveMonthlyFromTarget64 rnd fpow amount rate years = Returns (Py.round x64) /\
    solveFutureFromMonthly64 rnd fpow amount rate years = Returns (Py.round y64) /\
    approx (1 # 1000000000) x64
           (inject_Z amount /
            annuity_factor (monthly_rate_of rate) (months_of years)) /\
    approx (1 # 1000000000) y64
           (inject_Z amount *
            annuity_factor (monthly_rate_of rate) (months_of years)).
Proof.
  intros Hrnd Hpow Ht Hr Hy.
  destruct (slider_monthly_rate rate Hr) as [R1 R2].
  destruct (slider_months years Hy) as [N1 N2].
  destruct (monthly64_spec rnd fpow Hrnd Hpow amount rate years Ht Hr Hy)
    as (x64 & Em & Hx).
  destruct (future64_spec rnd fpow Hrnd Hpow amount rate years Ht Hr Hy)
    as (y64 & Ef & Hf).
  exists x64, y64. split; [exact Em | split; [exact Ef | split]].
  - refine (approx_eq _ _ _ _ _ (Qeq_refl _) _ Hx).
    apply spec_monthly_over_factor; [lra | lia].
  - refine (approx_eq _ _ _ _ _ (Qeq_refl _) _ Hf).
    apply spec_future_factor. lra.
Qed.

(** X3. Interest only helps, on the sliders' ranges.  For a target that
    is not negative the contribution asked is at most the interest-free
    one, target / months rounded; for a contribution that is not negative
    the corpus is at least the interest-free one, monthly * months. *)
Theorem interest_only_helps
    (rnd : Q -> Q) (fpow : Q -> Z -> outcome Q)
    (amount : Z) (rate : Q) (years : Z) :
  rounds_to_nearest rnd -> accurate_pow fpow ->
  number_input amount -> rate_slider rate -> years_slider years ->
  (0 <= amount)%Z ->
  exists monthly future_value : Z,
    solveMonthlyFromTarget64 rnd fpow amount rate years = Returns monthly /\
    (monthly <= Py.round (inject_Z amount / inject_Z (years * 12)))%Z /\
    solveFutureFromMonthly64 rnd fpow amount rate years = Returns future_value /\
    (amount * (years * 12) <= future_value)%Z.
Proof.
  intros Hrnd Hpow Ht Hr Hy Ha.
  change (years * 12)%Z with (months_of years).
  destruct (slider_months years Hy) as [N1 N2].
  destruct (plan64_over_factor rnd fpow amount rate years Hrnd Hpow Ht Hr Hy)
    as (x64 & y64 & Em & Ef & Hx & Hf).
  pose proof (factor_above_months rate years Hr Hy) as Hgap.
  assert (Hn : 0 < inject_Z (months_of years)).
  { change 0 with (inject_Z 0). rewrite <- Zlt_Qlt. lia. }
  assert (Ha' : 0 <= inject_Z amount).
  { change 0 with (inject_Z 0). rewrite <- Zle_Qle. exact Ha. }
  exists (Py.round x64), (Py.round y64).
  split; [exact Em | split; [| split; [exact Ef |]]].
  - apply round_monotone.
    apply (monthly_order (inject_Z amount) (inject_Z (months_of years)) _ _ _
             Ha' Hn Hgap); [| exact Hx].
    apply (approx_weaken 0); [discriminate | apply approx_refl].
  - rewrite <- (round_inject_Z (amount * months_of years)).
    apply round_monotone. rewrite inject_Z_mult.
    apply (future_order (inject_Z amount) (inject_Z (months_of years)) _ _ _
             Ha' Hn Hgap); [| exact Hf].
    apply (approx_weaken 0); [discriminate | apply approx_refl].
Qed.

Lemma interest_only_helps_witness :
  rounds_to_nearest rnd53 /\ accurate_pow pow53 /\
  number_input 120000 /\ rate_slider 12 /\ years_slider 10 /\ (0 <= 120000)%Z /\
  exists monthly future_value : Z,
    solveMonthlyFromTarget64 rnd53 pow53 120000 12 10 = Returns monthly /\
    (monthly <= Py.round (inject_Z 120000 / inject_Z (10 * 12)))%Z /\
    solveFutureFromMonthly64 rnd53 pow53 120000 12 10 = Returns future_value /\
    (120000 * (10 * 12) <= future_value)%Z.
Proof.
  assert (Ht : number_input 120000) by (split; reflexivity).
  assert (Hr : rate_slider 12) by (split; discriminate).
  assert (Hy : years_slider 10) by (split; discriminate).
  assert (Ha : (0 <= 120000)%Z) by lia.
  split; [apply rnd53_rounds | split; [apply pow53_accurate |]].
  split; [exact Ht | split; [exact Hr | split; [exact Hy | split; [exact Ha |]]]].
  exact (interest_only_helps rnd53 pow53 120000 12 10
           rnd53_rounds pow53_accurate Ht Hr Hy Ha).
Defined.

(** The order of the results from the order of the annuity factors. *)
Lemma plan64_order
    (rnd : Q -> Q) (fpow : Q -> Z -> outcome Q)
    (amount : Z) (rate1 rate2 : Q) (years1 years2 : Z) :
  rounds_to_nearest rnd -> accurate_pow fpow ->
  number_input amount -> (0 <= amount)%Z ->
  rate_slider rate1 -> rate_slider rate2 ->
  years_slider years1 -> years_slider years2 ->
  annuity_factor (monthly_rate_of rate1) (months_of years1) * (1 + (1 # 1000000)) <=
  annuity_factor (monthly_rate_of rate2) (months_of years2) ->
  exists m1 m2 f1 f2 : Z,
    solveMonthlyFromTarget64 rnd fpow amount rate1 years1 = Returns m1 /\
    solveMonthlyFromTarget64 rnd fpow amount rate2 years2 = Returns m2 /\
    (m2 <= m1)%Z /\
    solveFutureFromMonthly64 rnd fpow amount rate1 years1 = Returns f1 /\
    solveFutureFromMonthly64 rnd fpow amount rate2 years2 = Returns f2 /\
    (f1 <= f2)%Z.
Proof.
  intros Hrnd Hpow Ht Ha Hr1 Hr2 Hy1 Hy2 Hgap.
  destruct (plan64_over_factor rnd fpow amount rate1 years1 Hrnd Hpow Ht Hr1 Hy1)
    as (x1 & y1 & Em1 & Ef1 & Hx1 & Hf1).
  destruct (plan64_over_factor rnd fpow amount rate2 years2 Hrnd Hpow Ht Hr2 Hy2)
    as (x2 & y2 & Em2 & Ef2 & Hx2 & Hf2).
  destruct (slider_factor rate1 years1 Hr1 Hy1) as [A1 _].
  assert (HA : 0 < annuity_factor (monthly_rate_of rate1) (months_of years1)) by lra.
  assert (Ha' : 0 <= inject_Z amount).
  { change 0 with (inject_Z 0). rewrite <- Zle_Qle. exact Ha. }
  exists (Py.round x1), (Py.round x2), (Py.round y1), (Py.round y2).
  split; [exact Em1 | split; [exact Em2 | split]];
    [| split; [exact Ef1 | split; [exact Ef2 |]]].
  - apply round_monotone.
    apply (monthly_order _ _ _ _ _ Ha' HA Hgap Hx1 Hx2).
  - apply round_monotone.
    apply (future_order _ _ _ _ _ Ha' HA Hgap Hf1 Hf2).
Qed.

(** X4. On the sliders' ranges an expected return higher by half a slider
    step (0.005) or more never raises the contribution asked for a target
    that is not negative, and never lowers the corpus of a contribution
    that is not negative. *)
Theorem higher_rate_effect
    (rnd : Q -> Q) (fpow : Q -> Z -> outcome Q)
    (amount : Z) (rate1 rate2 : Q) (years : Z) :
  rounds_to_nearest rnd -> accurate_pow fpow ->
  number_input amount -> (0 <= amount)%Z ->
  rate_slider rate1 -> rate_slider rate2 -> rate1 + (1 # 200) <= rate2 ->
  years_slider years ->
  exists m1 m2 f1 f2 : Z,
    solveMonthlyFromTarget64 rnd fpow amount rate1 years = Returns m1 /\
    solveMonthlyFromTarget64 rnd fpow amount rate2 years = Returns m2 /\
    (m2 <= m1)%Z /\
    solveFutureFromMonthly64 rnd fpow amount rate1 years = Returns f1 /\
    solveFutureFromMonthly64 rnd fpow amount rate2 years = Returns f2 /\
    (f1 <= f2)%Z.
Proof.
  intros Hrnd Hpow Ht Ha Hr1 Hr2 Hgap Hy.
  apply plan64_order; try assumption.
  now apply factor_rate_gap.
Qed.

Lemma higher_rate_effect_witness :
  rounds_to_nearest rnd53 /\ accurate_pow pow53 /\
  number_input 5000 /\ (0 <= 5000)%Z /\
  rate_slider 6 /\ rate_slider 15 /\ 6 + (1 # 200) <= 15 /\ years_slider 10 /\
  exists m1 m2 f1 f2 : Z,
    solveMonthlyFromTarget64 rnd53 pow53 5000 6 10 = Returns m1 /\
    solveMonthlyFromTarget64 rnd53 pow53 5000 15 10 = Returns m2 /\
    (m2 <= m1)%Z /\
    solveFutureFromMonthly64 rnd53 pow53 5000 6 10 = Returns f1 /\
    solveFutureFromMonthly64 rnd53 pow53 5000 15 10 = Returns f2 /\
    (f1 <= f2)%Z.
Proof.
  assert (Ht : number_input 5000) by (split; reflexivity).
  assert (Ha : (0 <= 5000)%Z) by lia.
  assert (Hr1 : rate_slider 6) by (split; discriminate).
  assert (Hr2 : rate_slider 15) by (split; discriminate).
  assert (Hgap : 6 + (1 # 200) <= 15) by discriminate.
  assert (Hy : years_slider 10) by (split; discriminate).
  split; [apply rnd53_rounds | split; [apply pow53_accurate |]].
  split; [exact Ht | split; [exact Ha | split; [exact Hr1 | split; [exact Hr2 |]]]].
  split; [exact Hgap | split; [exact Hy |]].
  exact (higher_rate_effect rnd53 pow53 5000 6 15 10
           rnd53_rounds pow53_accurate Ht Ha Hr1 Hr2 Hgap Hy).
Defined.

(** X5. On the sliders' ranges a longer duration never raises the
    contribution asked for a target that is not negative, and never lowers
    the corpus of a contribution that is not negative. *)
Theorem longer_duration_effect
    (rnd : Q -> Q) (fpow : Q -> Z -> outcome Q)
    (amount : Z) (rate : Q) (years1 years2 : Z) :
  rounds_to_nearest rnd -> accurate_pow fpow ->
  number_input amount -> (0 <= amount)%Z ->
  rate_slider rate ->
  years_slider years1 -> years_slider years2 -> (years1 <= years2)%Z ->
  exists m1 m2 f1 f2 : Z,
    solveMonthlyFromTarget64 rnd fpow amount rate years1 = Returns m1 /\
    solveMonthlyFromTarget64 rnd fpow amount rate years2 = Returns m2 /\
    (m2 <= m1)%Z /\
    solveFutureFromMonthly64 rnd fpow amount rate years1 = Returns f1 /\
    solveFutureFromMonthly64 rnd fpow amount rate years2 = Returns f2 /\
    (f1 <= f2)%Z.
Proof.
  intros Hrnd Hpow Ht Ha Hr Hy1 Hy2 Hle.
  destruct (Z.eq_dec years1 years2) as [E | Hne].
  - subst years2.
    destruct (plan64_over_factor rnd fpow amount rate years1 Hrnd Hpow Ht Hr Hy1)
      as (x & y & Em & Ef & _ & _).
    exists (Py.round x), (Py.round x), (Py.round y), (Py.round y).
    repeat split; try assumption; lia.
  - apply plan64_order; try assumption.
    apply factor_years_gap; try assumption. lia.
Qed.

Lemma longer_duration_effect_witness :
  rounds_to_nearest rnd53 /\ accurate_pow pow53 /\
  number_input 5000 /\ (0 <= 5000)%Z /\ rate_slider 12 /\
  years_slider 5 /\ years_slider 10 /\ (5 <= 10)%Z /\
  exists m1 m2 f1 f2 : Z,
    solveMonthlyFromTarget64 rnd53 pow53 5000 12 5 = Returns m1 /\
    solveMonthlyFromTarget64 rnd53 pow53 5000 12 10 = Returns m2 /\
    (m2 <= m1)%Z /\
    solveFutureFromMonthly64 rnd53 pow53 5000 12 5 = Returns f1 /\
    solveFutureFromMonthly64 rnd53 pow53 5000 12 10 = Returns f2 /\
    (f1 <= f2)%Z.
Proof.
  assert (Ht : number_input 5000) by (split; reflexivity).
  assert (Ha : (0 <= 5000)%Z) by lia.
  assert (Hr : rate_slider 12) by (split; discriminate).
  assert (Hy1 : years_slider 5) by (split; discriminate).
  assert (Hy2 : years_slider 10) by (split; discriminate).
  assert (Hle : (5 <= 10)%Z) by lia.
  split; [apply rnd53_rounds | split; [apply pow53_accurate |]].
  split; [exact Ht | split; [exact Ha | split; [exact Hr | split; [exact Hy1 |]]]].
  split; [exact Hy2 | split; [exact Hle |]].
  exact (longer_duration_effect rnd53 pow53 5000 12 5 10
           rnd53_rounds pow53_accurate Ht Ha Hr Hy1 Hy2 Hle).
Defined.



(** X7. With an amount of the number input and the rate and the duration
    the two sliders can deliver, the plan block never raises, whatever the
    plan type.  The plan it hands on keeps the amount typed (as the target
    in goal mode, any other plan type being monthly mode, where it is the
    contribution), and its contribution grows to its future value up to
    half a unit of contribution carried through the annuity factor A and
    the rounding errors of the arithmetic, one part in 10^9 of amount * A. *)
Theorem plan_block_in_slider_range
    (rnd : Q -> Q) (fpow : Q -> Z -> outcome Q)
    (plan_type : string) (rate : Q) (years : Z) (amount : Z) :
  rounds_to_nearest rnd -> accurate_pow fpow ->
  number_input amount -> rate_slider rate -> years_slider years ->
  exists plan : mip_info,
    monthly_investment_plan64 rnd fpow plan_type rate years amount = Returns plan /\
    mip_years plan = years /\ mip_rate plan = rate /\
    ((plan_type = goal_plan_type /\ mip_mode plan = "goal"%string /\
      mip_future_value plan = inject_Z amount) \/
     (plan_type <> goal_plan_type /\ mip_mode plan = "monthly"%string /\
      mip_monthly plan = inject_Z amount)) /\
    Qabs (mip_future_value plan -
          mip_monthly plan * annuity_factor (rate / 100 / 12) (years * 12))
    <= (1 # 2) * annuity_factor (rate / 100 / 12) (years * 12) +
       (1 # 1000000000) * Qabs (inject_Z amount) *
       annuity_factor (rate / 100 / 12) (years * 12).
Proof.
  intros Hrnd Hpow Ht Hr Hy.
  change (rate / 100 / 12) with (monthly_rate_of rate).
  change (years * 12)%Z with (months_of years).
  destruct (slider_factor rate years Hr Hy) as [A1 A2].
  destruct (slider_closed_forms (inject_Z amount) rate years Hr Hy) as [Hx Hf].
  destruct (monthly64_spec rnd fpow Hrnd Hpow amount rate years Ht Hr Hy)
    as (x64 & Em & Hxa).
  destruct (future64_spec rnd fpow Hrnd Hpow amount rate years Ht Hr Hy)
    as (y64 & Ef & Hya).
  pose proof (near_round _ _ _ Hxa) as Hm.
  pose proof (near_round _ _ _ Hya) as Hv.
  set (A := annuity_factor (monthly_rate_of rate) (months_of years)) in *.
  pose proof (Qabs_nonneg (inject_Z amount)) as Ha0.
  unfold monthly_investment_plan64.
  destruct (String.eqb_spec plan_type goal_plan_type) as [Hpt | Hpt].
  - rewrite Em, bind_returns.
    eexists. split; [reflexivity |]. cbn [mip_years mip_rate mip_mode
      mip_future_value mip_monthly].
    repeat split; [left; repeat split; assumption |].
    apply (scale_bound _ _ A) in Hm; [| lra].
    assert (HxT : Qabs (spec_monthly (inject_Z amount) (monthly_rate_of rate)
                          (months_of years)) * A == Qabs (inject_Z amount))
      by (rewrite <- Hx at 2; symmetry; apply Qabs_scale; lra).
    rewrite Hx in Hm.
    assert (E : ((1 # 2) + (1 # 1000000000) *
                 Qabs (spec_monthly (inject_Z amount) (monthly_rate_of rate)
                         (months_of years))) * A ==
                (1 # 2) * A + (1 # 1000000000) * Qabs (inject_Z amount))
      by (rewrite <- HxT; ring).
    rewrite E in Hm.
    apply Qabs_Qle_condition in Hm as [M1 M2].
    apply Qabs_Qle_condition. split; nra.
  - rewrite Ef, bind_returns.
    eexists. split; [reflexivity |]. cbn [mip_years mip_rate mip_mode
      mip_future_value mip_monthly].
    repeat split; [right; repeat split; assumption |].
    rewrite Hf in Hv. rewrite (Qabs_scale _ A) in Hv by lra.
    apply Qabs_Qle_condition in Hv as [V1 V2].
    apply Qabs_Qle_condition. split; nra.
Qed.

Lemma plan_block_in_slider_range_witness :
  rounds_to_nearest rnd53 /\ accurate_pow pow53 /\
  number_input 4500000 /\ rate_slider 12 /\ years_slider 10 /\
  exists plan : mip_info,
    monthly_investment_plan64 rnd53 pow53 goal_plan_type 12 10 4500000 =
      Returns plan /\
    mip_mode plan = "goal"%string /\ mip_future_value plan = inject_Z 4500000.
Proof.
  assert (Ht : number_input 4500000) by (split; reflexivity).
  assert (Hr : rate_slider 12) by (split; discriminate).
  assert (Hy : years_slider 10) by (split; discriminate).
  split; [apply rnd53_rounds | split; [apply pow53_accurate |]].
  split; [exact Ht | split; [exact Hr | split; [exact Hy |]]].
  destruct (plan_block_in_slider_range rnd53 pow53 goal_plan_type 12 10 4500000
              rnd53_rounds pow53_accurate Ht Hr Hy)
    as (plan & Hplan & _ & _ & [(_ & Hm & Hf) | (Hne & _)] & _).
  - exists plan. split; [exact Hplan | split; [exact Hm | exact Hf]].
  - exfalso. apply Hne. reflexivity.
Defined.

(** X25. From a whole monthly contribution of at most 10^8 to its corpus
    and back, on the sliders' ranges: the contribution asked for the
    corpus that the contribution grows to is that contribution, exactly,
    the rounding errors of the arithmetic notwithstanding. *)
Theorem contribution_round_trip
    (rnd : Q -> Q) (fpow : Q -> Z -> outcome Q)
    (monthly : Z) (rate : Q) (years : Z) :
  rounds_to_nearest rnd -> accurate_pow fpow ->
  (Z.abs monthly <= 100000000)%Z -> rate_slider rate -> years_slider years ->
  exists future_value : Z,
    solveFutureFromMonthly64 rnd fpow monthly rate years = Returns future_value /\
    solveMonthlyFromTarget64 rnd fpow future_value rate years = Returns monthly /\
    contributionTrip64 rnd fpow monthly rate years = Returns monthly.
Proof.
  intros Hrnd Hpow HM Hr Hy.
  assert (Ht : number_input monthly) by (unfold number_input; lia).
  assert (HM' : Qabs (inject_Z monthly) <= 100000000).
  { change (Qabs (inject_Z monthly)) with (inject_Z (Z.abs monthly)).
    change 100000000 with (inject_Z 100000000). rewrite <- Zle_Qle. exact HM. }
  destruct (slider_factor rate years Hr Hy) as [A1 A2].
  destruct (slider_closed_forms (inject_Z monthly) rate years Hr Hy) as [_ Hf].
  destruct (future64_spec rnd fpow Hrnd Hpow monthly rate years Ht Hr Hy)
    as (y64 & Ef & Hya).
  pose proof (near_round _ _ _ Hya) as Hv. rewrite Hf in Hv.
  set (fv := Py.round y64) in *.
  assert (Hin : number_input fv).
  { apply (future_is_input (inject_Z monthly) _ fv A2); [lra | exact HM' | exact Hv]. }
  destruct (slider_closed_forms (inject_Z fv) rate years Hr Hy) as [Hw _].
  destruct (monthly64_spec rnd fpow Hrnd Hpow fv rate years Hin Hr Hy)
    as (x64 & Em & Hxa).
  pose proof (approx_abs _ _ _ Hxa) as Hx.
  destruct (contribution_bound _ _ _ _ _ A1 Hw HM' Hv Hx) as [B1 B2].
  assert (Eback : Py.round x64 = monthly) by (apply round_unique; assumption).
  rewrite Eback in Em.
  exists fv. split; [exact Ef | split; [exact Em |]].
  unfold contributionTrip64. rewrite Ef. exact Em.
Qed.

Lemma contribution_round_trip_witness :
  rounds_to_nearest rnd53 /\ accurate_pow pow53 /\
  (Z.abs 5000 <= 100000000)%Z /\ rate_slider 12 /\ years_slider 10 /\
  contributionTrip64 rnd53 pow53 5000 12 10 = Returns 5000%Z.
Proof.
  assert (HM : (Z.abs 5000 <= 100000000)%Z) by (cbn; lia).
  assert (Hr : rate_slider 12) by (split; discriminate).
  assert (Hy : years_slider 10) by (split; discriminate).
  split; [apply rnd53_rounds | split; [apply pow53_accurate |]].
  split; [exact HM | split; [exact Hr | split; [exact Hy |]]].
  destruct (contribution_round_trip rnd53 pow53 5000 12 10
              rnd53_rounds pow53_accurate HM Hr Hy) as (fv & _ & _ & H).
  exact H.
Defined.

(** X28. What 53-bit arithmetic returns at some inputs of the page, next
    to the exactly rounded closed forms: goal mode for a target of
    6060821843 at 6% over 2 years gives 238315214 where the closed form
    rounds to 238315213; monthly mode for 64518445 a month at 6% over 1
    year gives 795871302 where the closed form rounds to 795871303; at 12%
    over 1 year a target of 4788843388009242 comes back 7 lower, more than
    A/2 + 1/2, and a contribution of 3646785261228027 comes back 1
    lower. *)
Theorem binary64_examples :
  solveMonthlyFromTarget64 rnd53 pow53 6060821843 6 2 = Returns 238315214%Z /\
  solveMonthlyFromTarget 6060821843 6 2 = Returns 238315213%Z /\
  solveFutureFromMonthly64 rnd53 pow53 64518445 6 1 = Returns 795871302%Z /\
  solveFutureFromMonthly 64518445 6 1 = Returns 795871303%Z /\
  roundTrip64 rnd53 pow53 4788843388009242 12 1 = Returns 4788843388009235%Z /\
  (1 # 2) * annuity_factor (12 / 100 / 12) (1 * 12) + (1 # 2) < 7 /\
  contributionTrip64 rnd53 pow53 3646785261228027 12 1 = Returns 3646785261228026%Z.
Proof.
  split; [vm_compute; reflexivity |].
  split; [vm_compute; reflexivity |].
  split; [vm_compute; reflexivity |].
  split; [vm_compute; reflexivity |].
  split; [vm_compute; reflexivity |].
  split; vm_compute; reflexivity.
Qed.

End RoundedPlan.
